(** * tensordict: shape inference, ellipsis expansion, ragged-batch indexing

    A shallow embedding of [tensordict/utils.py] and of
    [tensordict/nn/distributions/continuous.py], followed by the properties
    of the specification that were checked against it and by further
    properties of the code.

    Conventions.  Python integers are [Z]; list positions that the code
    obtains from [enumerate], [len] or [torch.arange] are [nat].  A Python
    exception is a value of [exn]; a function that can raise returns a
    [result].  One-dimensional tensors are lists; a [(K, N)] view of a flat
    tensor is kept flat (row-major) together with its two sizes. *)

From Stdlib Require Import ZArith List String QArith Qminmax Qabs Lia Bool.
From stdpp Require Import base list strings gmap.

Local Open Scope Z_scope.

(** ** Exceptions and results *)

Inductive exn : Type :=
| RuntimeError (msg : string)
| ValueError (msg : string)
| KeyError (msg : string)
| ImportError
| IndexError
| TypeError
| StopIteration
| NotImplementedError
| ZeroDivisionError.

Inductive result (A : Type) : Type :=
| Ok (a : A)
| Raise (e : exn).

Arguments Ok {A} a.
Arguments Raise {A} e.

Definition bind {A B : Type} (r : result A) (k : A -> result B) : result B :=
  match r with
  | Ok a => k a
  | Raise e => Raise e
  end.

Notation "'let!' x ':=' e 'in' k" := (bind e (fun x => k))
  (at level 10, x name, e at level 100, k at level 200).

Definition is_ok {A : Type} (r : result A) : bool :=
  match r with Ok _ => true | Raise _ => false end.

(** ** Index expressions *)

(** One element of an index.  Index arrays are one-dimensional, as in the
    data model: [IList] is a Python list of integers or a numpy array of
    integers, [ITensor] an integer tensor of the array engine, [IMask] a
    boolean tensor of the array engine, [IBools] a Python list of booleans
    or a numpy array of booleans.  [IStr] stands for any element of a type
    that the functions below do not recognise. *)
#[warnings="-register-all"]
Inductive item : Type :=
| IInt (i : Z)
| ISlice (start stop step : option Z)
| INone
| IEllipsis
| IList (l : list Z)
| ITensor (v : list Z)
| IMask (m : list bool)
| IBools (m : list bool)
| IStr (s : string)
| ITuple (l : list item).

Definition full_slice : item := ISlice None None None.

Definition is_Ellipsis (x : item) : bool :=
  match x with IEllipsis => true | _ => false end.

(** [isinstance(x, torch.Tensor)] *)
Definition is_Tensor (x : item) : bool :=
  match x with ITensor _ | IMask _ => true | _ => false end.

(** [x.shape] of a tensor index (one-dimensional). *)
Definition tensor_shape (x : item) : list Z :=
  match x with
  | ITensor v => [Z.of_nat (length v)]
  | IMask m => [Z.of_nat (length m)]
  | _ => []
  end.

(** [m.sum()] of a boolean tensor. *)
Definition mask_sum (m : list bool) : Z :=
  Z.of_nat (length (List.filter (fun b : bool => b) m)).

(** ** Python slices *)

(** [slice(start, stop, step).indices(length)], after CPython. *)
Definition slice_indices (start stop step : option Z) (len : Z)
  : result (Z * Z * Z) :=
  if len <? 0 then Raise (ValueError "length should not be negative") else
  let step := default 1 step in
  if step =? 0 then Raise (ValueError "slice step cannot be zero") else
  let lower := if step <? 0 then -1 else 0 in
  let upper := if step <? 0 then len - 1 else len in
  let clip (s : Z) :=
    if s <? 0 then Z.max (s + len) lower else Z.min s upper in
  let start :=
    match start with
    | None => if step <? 0 then upper else lower
    | Some s => clip s
    end in
  let stop :=
    match stop with
    | None => if step <? 0 then lower else upper
    | Some s => clip s
    end in
  Ok (start, stop, step).

(** [len(range(start, stop, step))] for a non-zero step. *)
Definition range_len (start stop step : Z) : Z :=
  if 0 <? step then
    if start <? stop then (stop - start - 1) / step + 1 else 0
  else
    if stop <? start then (start - stop - 1) / (- step) + 1 else 0.

(** [len(range( *s.indices(batch)))] *)
Definition slice_len (start stop step : option Z) (batch : Z) : result Z :=
  let! r := slice_indices start stop step batch in
  let '(a, b, c) := r in
  Ok (range_len a b c).

(** ** [_getitem_batch_size] (utils.py, lines 68-141) *)

(** The loop of lines 114-140: [iter_bs] is what is left of the iterator
    over [shape], [bs] the output built so far. *)
Fixpoint getitem_walk (shape : list Z) (items : list item)
    (iter_bs : list Z) (bs : list Z) : result (list Z) :=
  match items with
  | [] => Ok (bs ++ iter_bs)
  | _item :: rest =>
    match _item with
    | ISlice a b c =>
      match iter_bs with
      | [] => Raise StopIteration
      | batch :: iter_bs' =>
        let! v := slice_len a b c batch in
        getitem_walk shape rest iter_bs' (bs ++ [v])
      end
    | IList l | ITensor l =>
      match iter_bs with
      | [] => Raise StopIteration
      | _ :: iter_bs' =>
        getitem_walk shape rest iter_bs' (bs ++ [Z.of_nat (length l)])
      end
    | IMask m =>
      match iter_bs with
      | [] => Raise StopIteration
      | _ :: iter_bs' =>
        getitem_walk shape rest iter_bs' (bs ++ [mask_sum m])
      end
    | IBools m =>
      match iter_bs with
      | [] => Raise StopIteration
      | _ :: iter_bs' =>
        getitem_walk shape rest iter_bs' (bs ++ [Z.of_nat (length m)])
      end
    | INone => getitem_walk shape rest iter_bs (bs ++ [1])
    | IInt _ =>
      match iter_bs with
      | [] => Raise (RuntimeError "The shape is incompatible with the index.")
      | _ :: iter_bs' => getitem_walk shape rest iter_bs' bs
      end
    | _ => Raise NotImplementedError
    end
  end.

Definition same_shape (x y : item) : bool :=
  bool_decide (tensor_shape x = tensor_shape y).

Definition _getitem_batch_size (shape : list Z) (items : item)
  : result (list Z) :=
  let items := match items with ITuple [x] => x | _ => items end in
  match items with
  | IInt _ => Ok (tail shape)
  | IMask m => Ok (mask_sum m :: skipn 1 shape)
  | ITensor l | IList l =>
    if negb (length l =? 0)%nat
    then Ok (Z.of_nat (length l) :: tail shape)
    else Ok (tail shape)
  | IBools m =>
    if negb (length m =? 0)%nat
    then Ok (Z.of_nat (length m) :: tail shape)
    else Ok (tail shape)
  | _ =>
    let items := match items with ITuple l => l | x => [x] end in
    if forallb is_Tensor items && (length items =? length shape)%nat then
      match items with
      | [] => Raise IndexError
      | x0 :: rest =>
        if forallb (fun x => same_shape x x0) rest
        then Ok (tensor_shape x0)
        else Raise (RuntimeError "all tensor indices must have the same shape")
      end
    else getitem_walk shape items shape []
  end.

(** ** The probe: the array engine's own indexing

    [probe_shape S idx] is [torch.zeros(S)[idx].shape] for a tuple [idx]
    without ellipsis, [None] when the engine raises.  It follows the
    engine's two phases: integers, slices and [None] are applied first, one
    dimension at a time; the index arrays are then applied together. *)

(** [Tensor.slice] along a dimension of size [size]: the step must be
    positive; both ends are shifted when negative, then clamped.  The result
    is the first position, the number of positions and the step. *)
Definition torch_slice (size : Z) (start stop step : option Z)
  : option (Z * Z * Z) :=
  let step := default 1 step in
  if step <=? 0 then None else
  let s := default 0 start in
  let s := if s <? 0 then s + size else s in
  let s := if s <? 0 then 0 else if size <=? s then size else s in
  let e := match stop with
           | None => size
           | Some e => if e <? 0 then e + size else e
           end in
  let e := if e <? s then s else if size <=? e then size else e in
  Some (s, (e - s + step - 1) / step, step).

Definition probe_slice_size (size : Z) (start stop step : option Z)
  : option Z :=
  option_map (fun r => snd (fst r)) (torch_slice size start stop step).

(** A dimension after the first phase: plain, or carrying an index array. *)
Inductive pdim : Type :=
| Basic (n : Z)
| Adv (n : Z) (ix : list Z).

(** The positions at which a mask is true. *)
Definition nonzero (m : list bool) : list Z :=
  map Z.of_nat (List.filter (fun i => nth i m false) (seq 0 (length m))).

(** First phase, one element at a time: an integer selects and removes
    its dimension, a slice narrows it, [None] inserts a dimension of size
    one, an index array is recorded on its dimension (a mask must have the
    size of the dimension).  Dimensions that the index does not reach are
    kept. *)
Fixpoint probe_slicing (idx : list item) (sizes : list Z)
  : option (list pdim) :=
  match idx with
  | [] => Some (map Basic sizes)
  | it :: rest =>
    match it with
    | INone => option_map (cons (Basic 1)) (probe_slicing rest sizes)
    | IInt i =>
      match sizes with
      | n :: sizes' =>
        if (- n <=? i) && (i <? n) then probe_slicing rest sizes' else None
      | [] => None
      end
    | ISlice a b c =>
      match sizes with
      | n :: sizes' =>
        match probe_slice_size n a b c with
        | Some v => option_map (cons (Basic v)) (probe_slicing rest sizes')
        | None => None
        end
      | [] => None
      end
    | IList l | ITensor l =>
      match sizes with
      | n :: sizes' => option_map (cons (Adv n l)) (probe_slicing rest sizes')
      | [] => None
      end
    | IMask m | IBools m =>
      match sizes with
      | n :: sizes' =>
        if Z.of_nat (length m) =? n
        then option_map (cons (Adv n (nonzero m))) (probe_slicing rest sizes')
        else None
      | [] => None
      end
    | _ => None
    end
  end.

Definition is_Basic (d : pdim) : bool :=
  match d with Basic _ => true | Adv _ _ => false end.

Definition pdim_size (d : pdim) : Z :=
  match d with Basic n => n | Adv n _ => n end.

(** The index arrays, with the size of the dimension each one indexes. *)
Fixpoint adv_parts (dims : list pdim) : list (Z * list Z) :=
  match dims with
  | [] => []
  | Basic _ :: r => adv_parts r
  | Adv n ix :: r => (n, ix) :: adv_parts r
  end.

(** Index arrays are broadcast together; they are one-dimensional, so
    their lengths must agree or be one. *)
Definition broadcast2 (a b : nat) : option nat :=
  if (a =? b)%nat then Some a
  else if (a =? 1)%nat then Some b
  else if (b =? 1)%nat then Some a
  else None.

Fixpoint broadcast_all (lens : list nat) : option nat :=
  match lens with
  | [] => Some 1%nat
  | a :: r =>
    match broadcast_all r with
    | Some b => broadcast2 a b
    | None => None
    end
  end.

(** Every entry of an index array is a position of its dimension. *)
Definition in_bounds (adv : Z * list Z) : bool :=
  forallb (fun i => (- fst adv <=? i) && (i <? fst adv)) (snd adv).

(** The plain dimensions in front, and the rest from the first index array. *)
Fixpoint lead_basic (dims : list pdim) : list Z * list pdim :=
  match dims with
  | Basic n :: r => let '(b, r') := lead_basic r in (n :: b, r')
  | _ => ([], dims)
  end.

Fixpoint skip_adv (dims : list pdim) : list pdim :=
  match dims with
  | Adv _ _ :: r => skip_adv r
  | _ => dims
  end.

(** Second phase: without index array the sizes are as they are; with
    index arrays, their common length replaces their dimensions in place
    when these are adjacent, and comes first when they are not.  Entries
    are checked against the bounds when something is read. *)
Definition probe_shape (S : list Z) (idx : list item) : option (list Z) :=
  match probe_slicing idx S with
  | None => None
  | Some dims =>
    match adv_parts dims with
    | [] => Some (map pdim_size dims)
    | advs =>
      match broadcast_all (map (fun a => length (snd a)) advs) with
      | None => None
      | Some L =>
        if negb (L =? 0)%nat && negb (forallb in_bounds advs) then None
        else
          let '(before, r) := lead_basic dims in
          let after := skip_adv r in
          if forallb is_Basic after
          then Some (before ++ [Z.of_nat L] ++ map pdim_size after)
          else Some (Z.of_nat L
                       :: map pdim_size (List.filter is_Basic dims))
      end
    end
  end.

(** The number of positions a dimension contributes when it is indexed
    on its own. *)
Definition pdim_len (d : pdim) : Z :=
  match d with Basic n => n | Adv _ ix => Z.of_nat (length ix) end.

(** The index elements on which the walk can agree with the probe:
    slices, integers, lists of integers, boolean tensors and [None]. *)
Definition fuzz_kind (x : item) : bool :=
  match x with
  | ISlice _ _ _ | IInt _ | IList _ | IMask _ | INone => true
  | _ => false
  end.

Definition is_index_array (x : item) : bool :=
  match x with
  | IList _ | ITensor _ | IMask _ | IBools _ => true
  | _ => false
  end.

Definition count_arrays (idx : list item) : nat :=
  length (List.filter is_index_array idx).

(** ** [convert_ellipsis_to_idx] (utils.py, lines 144-196) *)

(** The argument is a tuple or the bare ellipsis. *)
Inductive ellipsis_index : Type :=
| Bare
| Tup (idx : list item).

(** The loop of lines 171-178 from position [i] on, with the loop state
    [(start_pos, after_ellipsis_length)]. *)
Fixpoint scan_ellipsis (idx : list item) (i : nat)
    (start_pos : option nat) (after_ellipsis_length : nat)
  : result (option nat * nat) :=
  match idx with
  | [] => Ok (start_pos, after_ellipsis_length)
  | x :: rest =>
    if is_Ellipsis x then
      match start_pos with
      | Some _ =>
        Raise (RuntimeError "An index can only have one ellipsis at most.")
      | None => scan_ellipsis rest (S i) (Some i) after_ellipsis_length
      end
    else
      match start_pos with
      | Some _ => scan_ellipsis rest (S i) start_pos (S after_ellipsis_length)
      | None => scan_ellipsis rest (S i) None after_ellipsis_length
      end
  end.

(** [idx[a:b]] for non-negative bounds. *)
Definition py_slice {A : Type} (l : list A) (a b : nat) : list A :=
  firstn (b - a) (skipn a l).

(** [sum(_idx is Ellipsis for _idx in idx)] *)
Definition count_ellipsis (idx : list item) : nat :=
  length (List.filter is_Ellipsis idx).

Definition convert_ellipsis_to_idx (idx : ellipsis_index)
    (batch_size : list Z) : result (list item) :=
  let num_dims := length batch_size in
  let idx := match idx with Bare => [IEllipsis] | Tup l => l end in
  let num_ellipsis := count_ellipsis idx in
  if (Z.of_nat num_dims <? Z.of_nat (length idx) - Z.of_nat num_ellipsis)
  then Raise (RuntimeError
                "Not enough dimensions in TensorDict for index provided.")
  else
    let! st := scan_ellipsis idx 0 None 0 in
    let '(start_pos, after_ellipsis_length) := st in
    match start_pos with
    | None => Raise TypeError
    | Some start_pos =>
      let before_ellipsis_length := start_pos in
      let ellipsis_length :=
        Z.of_nat num_dims - Z.of_nat after_ellipsis_length
        - Z.of_nat before_ellipsis_length in
      let ellipsis_start := Z.of_nat start_pos in
      let ellipsis_end := Z.of_nat start_pos + ellipsis_length in
      let new_index :=
        firstn start_pos idx
        ++ repeat full_slice (Z.to_nat (ellipsis_end - ellipsis_start))
        ++ py_slice idx (start_pos + 1)
                    (start_pos + 1 + after_ellipsis_length) in
      if negb (length new_index =? num_dims)%nat
      then Raise (RuntimeError
        "The new index is incompatible with the dimensions of the batch size.")
      else Ok new_index
    end.

(** ** Flat tensors

    The array-engine operations that the ragged-batch indexer calls, on
    one-dimensional tensors as lists. *)

(** [a // b] on lengths. *)
Definition floordiv (a b : nat) : result nat :=
  if (b =? 0)%nat then Raise ZeroDivisionError else Ok (a / b)%nat.

(** [t.view(K, N)] succeeds when the sizes multiply to the number of
    elements; the data stays as it is. *)
Definition view2 {A : Type} (t : list A) (K N : nat) : result (list A) :=
  if (K * N =? length t)%nat then Ok t
  else Raise (RuntimeError "shape is invalid for input size").

(** [t.cumsum(0)], started at [acc]. *)
Fixpoint cumsum_from (acc : Z) (l : list Z) : list Z :=
  match l with
  | [] => []
  | x :: r => (acc + x) :: cumsum_from (acc + x) r
  end.

Definition cumsum (l : list Z) : list Z := cumsum_from 0 l.

Definition sumZ (l : list Z) : Z := fold_right Z.add 0 l.

(** A batch index: a list of integers (a [range], an integer tensor or an
    array behave alike), a slice, or a boolean tensor. *)
Inductive batch_index : Type :=
| BList (l : list Z)
| BSlice (start stop step : option Z)
| BMask (m : list bool).

(** What the read path can be given: the batch index may also be an integer. *)
Inductive read_index : Type :=
| RInt (i : Z)
| RIdx (b : batch_index).

(** The columns that [t[:, index]] selects in a dimension of size [N], in
    the order of the result. *)
Definition resolve_columns (N : nat) (index : batch_index)
  : result (list nat) :=
  match index with
  | BList l =>
    if forallb (fun i => (- Z.of_nat N <=? i) && (i <? Z.of_nat N)) l
    then Ok (map (fun i => Z.to_nat (if i <? 0 then i + Z.of_nat N else i)) l)
    else Raise IndexError
  | BSlice a b c =>
    match torch_slice (Z.of_nat N) a b c with
    | Some (s, n, step) =>
      Ok (map (fun j => Z.to_nat (s + Z.of_nat j * step)) (seq 0 (Z.to_nat n)))
    | None => Raise (ValueError "step must be greater than zero")
    end
  | BMask m =>
    if (length m =? N)%nat
    then Ok (List.filter (fun i => nth i m false) (seq 0 N))
    else Raise IndexError
  end.

(** Row-major positions of the columns [cols] in a [(K, N)] view. *)
Definition flat_positions (K N : nat) (cols : list nat) : list nat :=
  flat_map (fun k => map (fun c => (k * N + c)%nat) cols) (seq 0 K).

(** [t.view(K, N)[:, index]], flattened. *)
Definition select_columns (K N : nat) (cols : list nat) (t : list Z)
  : list Z :=
  map (fun j => nth j t 0) (flat_positions K N cols).

(** The value of an assignment, expanded to [n] entries per row: a row of
    [n] entries is taken as it is, a row of one entry is repeated. *)
Definition expand_rows (M n : nat) (x : list Z) : result (list Z) :=
  if (M =? n)%nat then Ok x
  else if (M =? 1)%nat then Ok (flat_map (fun v => repeat v n) x)
  else Raise (RuntimeError "shape mismatch").

(** Writes through a list of positions, in order: at a repeated position
    the last value stays (the array engine leaves that case open). *)
Definition put_all {A : Type} (t : list A) (pos : list nat) (vals : list A)
  : list A :=
  fold_left (fun b pv => <[fst pv := snd pv]> b) (combine pos vals) t.

(** [t.view(K, N)[:, index] = x.view(K, M)], flattened. *)
Definition assign_columns (K N : nat) (cols : list nat) (M : nat)
    (x t : list Z) : result (list Z) :=
  let! x' := expand_rows M (length cols) x in
  Ok (put_all t (flat_positions K N cols) x').

(** [torch.arange(offsets[-1])] holds [0 .. T-1]; the result is [T]. *)
Definition arange_last (offsets : list Z) : result nat :=
  match last offsets with
  | None => Raise IndexError
  | Some t =>
    if t <? 0
    then Raise (RuntimeError "upper bound and lower bound inconsistent with step sign")
    else Ok (Z.to_nat t)
  end.

(** [((full_index >= lo.unsqueeze(-1)) & (full_index < hi.unsqueeze(-1)))
    .any(0).any(0)] at position [p]. *)
Definition sel_any (lo hi : list Z) (p : nat) : bool :=
  existsb (fun ab => (fst ab <=? Z.of_nat p) && (Z.of_nat p <? snd ab))
          (combine lo hi).

(** [(~(...)).all(0).all(0)] at position [p]. *)
Definition sel_none (lo hi : list Z) (p : nat) : bool :=
  forallb (fun ab => negb ((fst ab <=? Z.of_nat p) && (Z.of_nat p <? snd ab)))
          (combine lo hi).

(** [full_index.squeeze()[sel]] where [full_index] is
    [torch.arange(T).view(1, 1, -1)].  [squeeze()] removes every dimension
    of size one: for [T = 1] the result has no dimension left, and indexing
    it with the one-dimensional mask raises. *)
Definition squeeze_select (T : nat) (sel : nat -> bool) : result (list nat) :=
  if (T =? 1)%nat then Raise IndexError
  else Ok (List.filter sel (seq 0 T)).

(** [buf[idx]] for a tensor of positions. *)
Fixpoint gather {A : Type} (buf : list A) (idx : list nat)
  : result (list A) :=
  match idx with
  | [] => Ok []
  | i :: r =>
    match buf !! i with
    | Some x => let! r' := gather buf r in Ok (x :: r')
    | None => Raise IndexError
    end
  end.

(** [buf[idx] = vals] for a tensor of positions: [vals] has one entry per
    position, or a single entry that is repeated. *)
Definition index_put {A : Type} (buf : list A) (idx : list nat)
    (vals : list A) : result (list A) :=
  let! vals' :=
    if (length vals =? length idx)%nat then Ok vals
    else match vals with
         | [v] => Ok (repeat v (length idx))
         | _ => Raise (RuntimeError "shape mismatch")
         end in
  if forallb (fun i => (i <? length buf)%nat) idx
  then Ok (put_all buf idx vals')
  else Raise IndexError.

(** ** Ragged fields *)

Section Ragged.

(** Elements of the values and of the weights buffer. *)
Context {V W : Type}.

(** The contents of a freshly allocated buffer ([torch.empty]). *)
Variable uninit_values : nat -> V.
Variable uninit_weights : nat -> W.

(** The external ragged-array class, by its flat buffers and metadata. *)
Record KJT : Type := mkKJT {
  _keys : list string;
  _values : list V;
  _weights : list W;
  _lengths : list Z;
  _offsets : list Z
}.

(** The constructor called with [lengths]: the offsets are the complete
    cumulative sum. *)
Definition KeyedJaggedTensor (values : list V) (keys : list string)
    (weights : list W) (lengths : list Z) : KJT :=
  {| _keys := keys; _values := values; _weights := weights;
     _lengths := lengths; _offsets := 0 :: cumsum lengths |}.

Definition int_index_message : string :=
  "Indexing KeyedJaggedTensor instances with an integer is prohibited, as this would result in a KeyedJaggedTensor without batch size. If you want to get a single element from a KeyedJaggedTensor, call `index_keyedjaggedtensor(kjt, torch.tensor([index]))` instead.".

(** [index_keyedjaggedtensor] (utils.py, lines 393-451).  The result is a
    new object. *)
Definition index_keyedjaggedtensor (_has_torchrec : bool) (kjt : KJT)
    (index : read_index) : result KJT :=
  if negb _has_torchrec then Raise ImportError else
  match index with
  | RInt _ => Raise (ValueError int_index_message)
  | RIdx index =>
    let lengths := _lengths kjt in
    let keys := _keys kjt in
    let! numel := floordiv (length lengths) (length keys) in
    let offsets := _offsets kjt in
    let! o1 := view2 (removelast offsets) (length keys) numel in
    let! cols := resolve_columns numel index in
    let _offsets1 := select_columns (length keys) numel cols o1 in
    let! o2 := view2 (tail offsets) (length keys) numel in
    let _offsets2 := select_columns (length keys) numel cols o2 in
    let! lv := view2 lengths (length keys) numel in
    let lengths := select_columns (length keys) numel cols lv in
    let! T := arange_last offsets in
    let! full_index := squeeze_select T (sel_any _offsets1 _offsets2) in
    let! values := gather (_values kjt) full_index in
    let! weights := gather (_weights kjt) full_index in
    Ok (KeyedJaggedTensor values (_keys kjt) weights lengths)
  end.

(** Lines 497-573 of [setitem_keyedjaggedtensor]: the object that is built
    from [orig_tensor] and [other]; nothing is modified. *)
Definition setitem_build (orig_tensor : KJT) (index : batch_index)
    (other : KJT) : result KJT :=
  let orig_tensor_lengths := _lengths orig_tensor in
  let orig_tensor_keys := _keys orig_tensor in
  let! orig_tensor_numel :=
    floordiv (length orig_tensor_lengths) (length orig_tensor_keys) in
  let orig_tensor_offsets := _offsets orig_tensor in
  let other_lengths := _lengths other in
  let other_keys := _keys other in
  let! other_numel := floordiv (length other_lengths) (length other_keys) in
  if negb (bool_decide (other_keys = orig_tensor_keys))
  then Raise (KeyError "Mismatch in orig_tensor and other keys.") else
  let K := length orig_tensor_keys in
  let N := orig_tensor_numel in
  let _offsets1 := removelast orig_tensor_offsets in
  let _offsets2 := tail orig_tensor_offsets in
  let! lv := view2 orig_tensor_lengths K N in
  let! x := view2 other_lengths K other_numel in
  let! cols := resolve_columns N index in
  let! _lengths_out := assign_columns K N cols other_numel x lv in
  (* the values of orig_tensor that are kept *)
  let! T := arange_last orig_tensor_offsets in
  let! o1 := view2 _offsets1 K N in
  let! o2 := view2 _offsets2 K N in
  let! index_to_keep :=
    squeeze_select T (sel_none (select_columns K N cols o1)
                               (select_columns K N cols o2)) in
  let! values_to_keep := gather (_values orig_tensor) index_to_keep in
  let new_values := _values other in
  let! weights_to_keep := gather (_weights orig_tensor) index_to_keep in
  let new_weights := _weights other in
  (* new offsets *)
  let _offsets :=
    cumsum (map (fun v => v * 0) (firstn 1 _lengths_out) ++ _lengths_out) in
  (* positions of the new and of the kept elements *)
  let _offsets1 := removelast _offsets in
  let _offsets2 := tail _offsets in
  let! T' := arange_last _offsets in
  let! o1' := view2 _offsets1 K N in
  let! o2' := view2 _offsets2 K N in
  let! new_index_new_elts :=
    squeeze_select T' (sel_any (select_columns K N cols o1')
                               (select_columns K N cols o2')) in
  let! new_index_to_keep :=
    squeeze_select T' (sel_none (select_columns K N cols o1')
                                (select_columns K N cols o2')) in
  (* the new buffers *)
  let values_numel := (length values_to_keep + length new_values)%nat in
  let tensor := map uninit_values (seq 0 values_numel) in
  let tensor_weights := map uninit_weights (seq 0 values_numel) in
  let! tensor := index_put tensor new_index_to_keep values_to_keep in
  let! tensor := index_put tensor new_index_new_elts new_values in
  let! tensor_weights :=
    index_put tensor_weights new_index_to_keep weights_to_keep in
  let! tensor_weights :=
    index_put tensor_weights new_index_new_elts new_weights in
  Ok (KeyedJaggedTensor tensor orig_tensor_keys tensor_weights _lengths_out).

(** Objects live in a store; a reference is a location. *)
Definition loc : Type := nat.
Definition store : Type := loc -> KJT.

Definition store_set (h : store) (l : loc) (v : KJT) : store :=
  fun l' => if (l' =? l)%nat then v else h l'.

(** [setitem_keyedjaggedtensor] (utils.py, lines 454-576): the attributes
    of the object that was built replace those of [orig_tensor], which is
    returned. *)
Definition setitem_keyedjaggedtensor (orig_tensor : loc)
    (index : batch_index) (other : loc) (h : store)
  : result loc * store :=
  match setitem_build (h orig_tensor) index (h other) with
  | Ok kjt => (Ok orig_tensor, store_set h orig_tensor kjt)
  | Raise e => (Raise e, h)
  end.

(** [_shape] of a ragged field (utils.py, line 592). *)
Definition _shape (tensor : KJT) : result (list Z) :=
  let! n := floordiv (length (_lengths tensor)) (length (_keys tensor)) in
  Ok [Z.of_nat n].

(** The ragged layout, as the code keeps it: [K * N] lengths, none
    negative; [K * N + 1] offsets, the cumulative sums of the row-major
    lengths after a leading zero; as many values and weights as the
    lengths add up to. *)
Definition layout_ok (N : nat) (t : KJT) : Prop :=
  length (_lengths t) = (length (_keys t) * N)%nat
  /\ Forall (fun v => 0 <= v) (_lengths t)
  /\ _offsets t = 0 :: cumsum (_lengths t)
  /\ sumZ (_lengths t) = Z.of_nat (length (_values t))
  /\ length (_values t) = length (_weights t).

End Ragged.

Arguments KJT : clear implicits.
Arguments store : clear implicits.

(** The layout as the specification words it, column by column: column
    [i] of the offsets is the cumulative sum of column [i] of the lengths
    after a leading zero.  The offsets have one entry more than the
    lengths; their [(K, N)] views are [offsets[:-1]], where each range
    starts, and [offsets[1:]], where it ends. *)
Definition column (K N i : nat) (t : list Z) : list Z :=
  map (fun k => nth (k * N + i) t 0) (seq 0 K).

Definition columnwise_starts (K N : nat) (lengths offsets : list Z) : Prop :=
  forall i, (i < N)%nat ->
    column K N i (removelast offsets)
    = removelast (0 :: cumsum (column K N i lengths)).

Definition columnwise_ends (K N : nat) (lengths offsets : list Z) : Prop :=
  forall i, (i < N)%nat ->
    column K N i (tail offsets) = cumsum (column K N i lengths).

(** Two key lists name the same set of keys. *)
Definition same_key_set (k1 k2 : list string) : Prop :=
  forall k, In k k1 <-> In k k2.

(** ** [NormalParamWrapper.forward] (continuous.py, lines 63-70) *)

(** What a floating-point tensor holds: a number, which is a rational or
    an infinity, or NaN.  The values of a floating-point type are among
    these; an operation of the array engine rounds its result to them. *)
Inductive real : Type :=
| NegInf
| Finite (q : Q)
| PosInf.

Inductive number : Type :=
| NaN
| Real (r : real).

(** [a <= b] on numbers that are not NaN. *)
Definition real_le (a b : real) : bool :=
  match a, b with
  | NegInf, _ => true
  | _, PosInf => true
  | Finite x, Finite y => Qle_bool x y
  | _, _ => false
  end.

(** A floating-point tensor as the distribution wrapper sees it: the size
    of the trailing dimension and the rows along it. *)
Record tensor : Type := mkTensor {
  trailing : nat;
  rows : list (list number)
}.

(** Every row has the size of the trailing dimension. *)
Definition tensor_ok (t : tensor) : Prop :=
  Forall (fun r => length r = trailing t) (rows t).

(** The sizes of the pieces of [t.chunk(chunks, -1)], after the array
    engine: pieces of [ceil(dim_size / chunks)] entries, the last one
    shorter; [chunks] empty pieces for an empty dimension. *)
Definition chunk_sizes (chunks dim_size : nat) : list nat :=
  let split_size := ((dim_size + chunks - 1) / chunks)%nat in
  if (split_size =? 0)%nat && (dim_size =? 0)%nat then repeat 0%nat chunks
  else
    let num_splits :=
      Nat.max ((dim_size + split_size - 1) / split_size) 1 in
    let last_split_size :=
      (split_size - (split_size * num_splits - dim_size))%nat in
    repeat split_size (num_splits - 1) ++ [last_split_size].

Fixpoint split_rows (sizes : list nat) (start : nat) (t : tensor)
  : list tensor :=
  match sizes with
  | [] => []
  | s :: r =>
    mkTensor s (map (fun row => firstn s (skipn start row)) (rows t))
    :: split_rows r (start + s) t
  end.

Definition chunk (t : tensor) (chunks : nat) : list tensor :=
  split_rows (chunk_sizes chunks (trailing t)) 0 t.

(** [x.clamp_min(lb)] at one element, for a bound [lb] that the dtype of
    the tensor holds: NaN stays NaN, a number below the bound becomes the
    bound. *)
Definition clamp_min (lb : real) (x : number) : number :=
  match x with
  | NaN => NaN
  | Real r => Real (if real_le lb r then r else lb)
  end.

Definition map_tensor (f : number -> number) (t : tensor) : tensor :=
  mkTensor (trailing t) (map (map f) (rows t)).

(** [torch.relu] at one element: NaN stays NaN. *)
Definition relu (x : number) : number :=
  match x with
  | NaN => NaN
  | Real r => Real (if real_le (Finite 0) r then r else Finite 0)
  end.

(** Modelled from the spec: the registry of positive mappings
    ([tensordict/nn/utils.py] is not part of the sources), one of
    softplus, exp, relu and biased_softplus by name.  The three
    transcendental functions are parameters. *)
Definition registered_mappings
    (softplus exp biased_softplus : number -> number)
    (key : string) : result (number -> number) :=
  if bool_decide (key = "softplus") then Ok softplus
  else if bool_decide (key = "exp") then Ok exp
  else if bool_decide (key = "relu") then Ok relu
  else if bool_decide (key = "biased_softplus") then Ok biased_softplus
  else Raise NotImplementedError.

Section NormalParamWrapper.

(** What the wrapped operator takes, and what it may return besides its
    first tensor. *)
Context {I O : Type}.

(** [mappings], the registry that [forward] looks the scale mapping up in. *)
Variable mappings : string -> result (number -> number).

(** The Python number [scale_lb] as the dtype of the mapped scale holds
    it: [clamp_min] converts its bound to that dtype, which rounds it. *)
Variable to_dtype : Q -> real.

Inductive module_output : Type :=
| OutTensor (t : tensor)
| OutTuple (t : tensor) (others : list O).

Record NormalParamWrapper : Type := mkNormalParamWrapper {
  operator : I -> module_output;
  scale_mapping : string;
  scale_lb : Q
}.

(** The tensor that [forward] splits. *)
Definition first_output (o : module_output) : tensor :=
  match o with OutTensor t => t | OutTuple t _ => t end.

Definition forward (self : NormalParamWrapper) (tensors : I)
  : result (tensor * tensor * list O) :=
  let net_output := operator self tensors in
  let '(net_output, others) :=
    match net_output with
    | OutTensor t => (t, [])
    | OutTuple t o => (t, o)
    end in
  match chunk net_output 2 with
  | [loc; scale] =>
    let! f := mappings (scale_mapping self) in
    let scale :=
      map_tensor (clamp_min (to_dtype (scale_lb self)))
                 (map_tensor f scale) in
    Ok (loc, scale, others)
  | _ => Raise (ValueError "wrong number of values to unpack")
  end.

End NormalParamWrapper.

Arguments module_output : clear implicits.
Arguments NormalParamWrapper : clear implicits.

(** ** [infer_size_impl] and [_copy] (utils.py, lines 199-233) *)

(** [infer_size_impl] raises [AssertionError], which the functions above
    never do: what it raises is an assertion or one of the exceptions
    above. *)
Inductive raised : Type :=
| AssertionError (msg : string)
| Exn (e : exn).

Inductive outcome (A : Type) : Type :=
| Returns (a : A)
| Raises (r : raised).

Arguments Returns {A} a.
Arguments Raises {A} r.

(** [_copy]: the elements are appended one by one to an empty list. *)
Definition _copy (self : list Z) : list Z :=
  fold_left (fun out elem => out ++ [elem]) self [].

(** The loop of lines 216-224 from dimension [dim] on, with the state
    [(newsize, infer_dim)]. *)
Fixpoint infer_scan (shape : list Z) (dim : nat) (newsize : Z)
    (infer_dim : option nat) : outcome (Z * option nat) :=
  match shape with
  | [] => Returns (newsize, infer_dim)
  | d :: rest =>
    if d =? -1 then
      match infer_dim with
      | Some _ => Raises (AssertionError "only one dimension can be inferred")
      | None => infer_scan rest (S dim) newsize (Some dim)
      end
    else if 0 <=? d then infer_scan rest (S dim) (newsize * d) infer_dim
    else Raises (AssertionError "invalid shape dimensions")
  end.

Definition infer_size_impl (shape : list Z) (numel : Z) : outcome (list Z) :=
  match infer_scan shape 0 1 None with
  | Raises r => Raises r
  | Returns (newsize, infer_dim) =>
    if negb ((numel =? newsize)
             || (match infer_dim with Some _ => true | None => false end
                 && (0 <? newsize) && (numel mod newsize =? 0)))
    then Raises (AssertionError "invalid shape")
    else
      let out := _copy shape in
      match infer_dim with
      | None => Returns out
      | Some i =>
        if newsize =? 0 then Raises (Exn ZeroDivisionError)
        else Returns (<[i := numel / newsize]> out)
      end
  end.

(** [prod] (utils.py, lines 269-287) on integers. *)
Definition prod (sequence : list Z) : Z := fold_right Z.mul 1 sequence.

(** ** Nested keys (utils.py, lines 371-390) *)

(** A key as the checks see it: a string, a tuple, or anything else. *)
#[warnings="-register-all"]
Inductive key : Type :=
| KStr (s : string)
| KTuple (l : list key)
| KOther.

Definition is_str (k : key) : bool :=
  match k with KStr _ => true | _ => false end.

Definition _nested_key_type_check (k : key) : result unit :=
  let is_tuple := match k with KTuple _ => true | _ => false end in
  if negb (is_str k
           || (is_tuple
               && match k with
                  | KTuple l => (0 <? length l)%nat && forallb is_str l
                  | _ => false
                  end))
  then Raise TypeError
  else Ok tt.

(** [key if not isinstance(key, tuple) or len(key) > 1 else key[0]] *)
Definition _normalize_key (k : key) : result key :=
  match k with
  | KTuple l =>
    if (1 <? length l)%nat then Ok k
    else match l with
         | x :: _ => Ok x
         | [] => Raise IndexError
         end
  | _ => Ok k
  end.

(** ** [KeyDependentDefaultDict] (utils.py, lines 250-266) *)

Section KeyDependentDefaultDict.

Context {V : Type}.

(** The dictionary: the function that makes a default from a key, which
    may raise, and the items stored so far. *)
Record KeyDependentDefaultDict : Type := mkKDDD {
  kdd_fun : string -> result V;
  kdd_items : gmap string V
}.

(** [__missing__]: the default of the key is computed, stored and
    returned. *)
Definition __missing__ (self : KeyDependentDefaultDict) (k : string)
  : result V * KeyDependentDefaultDict :=
  match kdd_fun self k with
  | Ok value => (Ok value, mkKDDD (kdd_fun self) (<[k := value]> (kdd_items self)))
  | Raise e => (Raise e, self)
  end.

(** [self[key]]: a stored item is returned, a missing key goes through
    [__missing__]. *)
Definition kdd_getitem (self : KeyDependentDefaultDict) (k : string)
  : result V * KeyDependentDefaultDict :=
  match kdd_items self !! k with
  | Some v => (Ok v, self)
  | None => __missing__ self k
  end.

(** [self[key] = value] *)
Definition kdd_setitem (self : KeyDependentDefaultDict) (k : string) (v : V)
  : KeyDependentDefaultDict :=
  mkKDDD (kdd_fun self) (<[k := v]> (kdd_items self)).

End KeyDependentDefaultDict.

Arguments KeyDependentDefaultDict : clear implicits.

(** ** [_sub_index] (utils.py, lines 49-65) *)

Section SubIndex.

(** The tensors and their own indexing, which may raise. *)
Context {T : Type}.
Variable getitem : T -> item -> result T.

(** [_sub_index(tensor, idx)]: while the index is a non-empty tuple whose
    first element is a tuple, that element is applied first and the rest
    of the tuple to the result; anything else goes to the tensor's own
    indexing. *)
Fixpoint _sub_index (idx : item) : T -> result T :=
  match idx with
  | ITuple l =>
    (fix rest (l : list item) : T -> result T :=
       match l with
       | (ITuple _ as idx0) :: idx1 =>
         fun tensor => let! t := _sub_index idx0 tensor in rest idx1 t
       | _ => fun tensor => getitem tensor (ITuple l)
       end) l
  | _ => fun tensor => getitem tensor idx
  end.

End SubIndex.

(** ** [expand_as_right] and [expand_right] (utils.py, lines 290-350) *)

Section Expand.

Context {A : Type}.

(** A tensor of any rank, by its shape and its element at each index. *)
Record ndtensor : Type := mkNd {
  nd_shape : list Z;
  nd_at : list Z -> A
}.

Definition ndimension (t : ndtensor) : nat := length (nd_shape t).

(** [t.unsqueeze(-1)] *)
Definition unsqueeze_last (t : ndtensor) : ndtensor :=
  mkNd (nd_shape t ++ [1]) (fun idx => nd_at t (removelast idx)).

(** One dimension of [t.expand(sizes)]: [-1] keeps the size, an equal size
    is kept, a size of one is repeated. *)
Definition expand_dim (want have : Z) : result Z :=
  if want =? -1 then Ok have
  else if want =? have then Ok have
  else if (have =? 1) && (0 <=? want) then Ok want
  else Raise (RuntimeError "The expanded size of the tensor must match the existing size at non-singleton dimension").

Fixpoint expand_dims (wants haves : list Z) : result (list Z) :=
  match wants, haves with
  | w :: wants', h :: haves' =>
    let! d := expand_dim w h in
    let! r := expand_dims wants' haves' in
    Ok (d :: r)
  | _, _ => Ok []
  end.

(** [t.expand(sizes)]: the sizes are aligned with the dimensions from the
    right; sizes in front of them are new dimensions. *)
Definition expand (t : ndtensor) (sizes : list Z) : result ndtensor :=
  let n := ndimension t in
  if (length sizes <? n)%nat
  then Raise (RuntimeError "the number of sizes provided must be greater or equal to the number of dimensions in the tensor")
  else
    let lead := firstn (length sizes - n) sizes in
    if negb (forallb (fun w => 0 <=? w) lead)
    then Raise (RuntimeError "The expanded size of the tensor is not allowed in a leading, non-existing dimension")
    else
      let! dims := expand_dims (skipn (length sizes - n) sizes) (nd_shape t) in
      Ok (mkNd (lead ++ dims)
               (fun idx =>
                  nd_at t (zip_with (fun have i => if have =? 1 then 0 else i)
                                    (nd_shape t)
                                    (skipn (length sizes - n) idx)))).

(** [t.expand( *sizes)], the sizes unpacked into the arguments of the
    call: without any size the call has no argument and raises
    [TypeError]. *)
Definition expand_unpacked (t : ndtensor) (sizes : list Z)
  : result ndtensor :=
  match sizes with
  | [] => Raise TypeError
  | _ => expand t sizes
  end.

Definition expand_as_right (tensor dest : ndtensor) : result ndtensor :=
  if (ndimension dest <? ndimension tensor)%nat
  then Raise (RuntimeError "expand_as_right requires the destination tensor to have less dimensions than the input tensor")
  else if negb (bool_decide
                  (nd_shape tensor
                   = firstn (ndimension tensor) (nd_shape dest)))
  then Raise (RuntimeError "tensor shape is incompatible with dest shape")
  else
    expand (Nat.iter (ndimension dest - ndimension tensor)
                     unsqueeze_last tensor)
           (nd_shape dest).

Definition expand_right (tensor : ndtensor) (shape : list Z)
  : result ndtensor :=
  expand_unpacked
    (Nat.iter (length shape - ndimension tensor) unsqueeze_last tensor)
    shape.

(** ** [Delta] (continuous.py, lines 73-143) *)

Record Delta : Type := mkDelta {
  param : ndtensor;
  atol : Q;
  rtol : Q;
  batch_shape : list Z;
  event_shape : list Z
}.

(** [Delta.__init__]: shapes that are not given are empty; when both are
    empty the parameter's shape is split before its last dimension. *)
Definition Delta_init (param : ndtensor) (atol rtol : Q)
    (batch_shape event_shape : option (list Z)) : Delta :=
  let batch_shape := default [] batch_shape in
  let event_shape := default [] event_shape in
  let '(batch_shape, event_shape) :=
    if (length batch_shape =? 0)%nat && (length event_shape =? 0)%nat
    then (removelast (nd_shape param),
          skipn (length (nd_shape param) - 1) (nd_shape param))
    else (batch_shape, event_shape) in
  mkDelta param atol rtol batch_shape event_shape.

(** [Delta.sample] *)
Definition sample (self : Delta) (size : option (list Z))
  : result ndtensor :=
  let size := default [] size in
  expand_unpacked (param self) (size ++ nd_shape (param self)).

(** [Delta.rsample] *)
Definition rsample (self : Delta) (size : option (list Z))
  : result ndtensor :=
  let size := default [] size in
  expand_unpacked (param self) (size ++ nd_shape (param self)).

End Expand.

Arguments ndtensor : clear implicits.
Arguments Delta : clear implicits.

(** An index into a shape. *)
Definition index_in (idx shape : list Z) : Prop :=
  Forall2 (fun i n => 0 <= i < n) idx shape.

(** [t.all(dim)] of a boolean tensor: the dimension is reduced and removed;
    it is counted from the end when negative, and a tensor without
    dimensions accepts [-1] and [0] and is returned as it is. *)
Definition all_dim (t : ndtensor bool) (dim : Z) : result (ndtensor bool) :=
  let n := Z.of_nat (ndimension t) in
  if n =? 0 then
    if (-1 <=? dim) && (dim <=? 0) then Ok t else Raise IndexError
  else if (- n <=? dim) && (dim <? n) then
    let d := Z.to_nat (if dim <? 0 then dim + n else dim) in
    Ok (mkNd (firstn d (nd_shape t) ++ skipn (S d) (nd_shape t))
             (fun idx =>
                forallb (fun j => nd_at t (firstn d idx ++ Z.of_nat j
                                             :: skipn d idx))
                        (seq 0 (Z.to_nat (nth d (nd_shape t) 0)))))
  else Raise IndexError.

(** The loop of [_is_equal], lines 115-116: [k] reductions, along [i],
    [i - 1], ... *)
Fixpoint all_loop (k : nat) (i : Z) (is_equal : ndtensor bool)
  : result (ndtensor bool) :=
  match k with
  | O => Ok is_equal
  | S k' =>
    let! is_equal := all_dim is_equal i in
    all_loop k' (i - 1) is_equal
  end.

(** The two numbers that [log_prob] fills its output with: [np.inf] and
    [-np.inf]. *)
Inductive infinity : Type :=
| inf
| neg_inf.

Section DeltaLogProb.

(** The elements of the parameter ([P]) and of the value ([T]), and of the
    tensors that the comparison of [_is_equal] goes through.  Each
    operation is the array engine's, at one element: it works on the
    dtypes it is given, promotes them and rounds as the engine does. *)
Context {P T D E G H O : Type}.

(** [value - param] *)
Variable sub : T -> P -> D.
(** [abs(value - param)] *)
Variable abs_diff : D -> D.
(** [abs(param)] *)
Variable abs_param : P -> E.
(** [self.rtol * abs(param)] *)
Variable mul_rtol : Q -> E -> G.
(** [self.atol + self.rtol * abs(param)] *)
Variable add_atol : Q -> G -> H.
(** [abs(value - param) < self.atol + self.rtol * abs(param)] *)
Variable less : D -> H -> bool.

(** Whether the array engine has these operations for the dtypes of the
    value and of the parameter: it raises for those it has not, the
    difference of two boolean tensors for one. *)
Variable supported : result unit.

(** [np.inf] and [-np.inf] as [value.dtype] holds them: [masked_fill_]
    converts the number to the dtype of the tensor it fills, and raises
    for a dtype that cannot hold it. *)
Variable fill_value : infinity -> result O.

(** The comparison of [_is_equal], line 114, at one position. *)
Definition close_at (self : Delta P) (value : ndtensor T)
    (param : ndtensor P) (idx : list Z) : bool :=
  less (abs_diff (sub (nd_at value idx) (nd_at param idx)))
       (add_atol (atol self)
                 (mul_rtol (rtol self) (abs_param (nd_at param idx)))).

(** [Delta._is_equal] *)
Definition _is_equal (self : Delta P) (value : ndtensor T)
  : result (ndtensor bool) :=
  let! param := expand (param self) (nd_shape value) in
  let! _ := supported in
  let is_equal := mkNd (nd_shape value) (close_at self value param) in
  all_loop (length (event_shape self)) (-1) is_equal.

(** [Delta.log_prob] *)
Definition log_prob (self : Delta P) (value : ndtensor T)
  : result (ndtensor O) :=
  let! is_equal := _is_equal self value in
  let! pos := fill_value inf in
  let! neg := fill_value neg_inf in
  Ok (mkNd (nd_shape is_equal)
           (fun idx => if nd_at is_equal idx then pos else neg)).

End DeltaLogProb.

(** ** Quantities and inputs that the statements refer to *)

Definition multiple_ellipsis : exn :=
  RuntimeError "An index can only have one ellipsis at most.".

Definition not_enough_dimensions : exn :=
  RuntimeError "Not enough dimensions in TensorDict for index provided.".

(** The positions of the flat buffers that a read selects. *)
Definition read_positions {V W : Type} (kjt : KJT V W) (N : nat)
    (cols : list nat) : list nat :=
  let K := length (_keys kjt) in
  List.filter
    (sel_any (select_columns K N cols (removelast (_offsets kjt)))
             (select_columns K N cols (tail (_offsets kjt))))
    (seq 0 (length (_values kjt))).

Definition key_mismatch : exn :=
  KeyError "Mismatch in orig_tensor and other keys.".

(** The sum of the first [j] lengths: where entry [j] starts. *)
Definition psum (L : list Z) (j : nat) : Z := sumZ (firstn j L).

(** Membership of position [p] in the range of entry [j]. *)
Definition in_entry (L : list Z) (j p : nat) : bool :=
  (psum L j <=? Z.of_nat p) && (Z.of_nat p <? psum L (S j)).

(** One key, one row, one value. *)
Definition single_value_field : KJT Z Z :=
  KeyedJaggedTensor [7] ["a"] [1] [1].

(** Two keys, four rows, a single value in row 0 of the first key. *)
Definition one_value_field : KJT Z Z :=
  KeyedJaggedTensor [7] ["a"; "b"] [70] [1; 0; 0; 0; 0; 0; 0; 0].

(** One key, two rows holding no and five values. *)
Definition target_field : KJT Z Z :=
  KeyedJaggedTensor [1; 2; 3; 4; 5] ["a"] [10; 20; 30; 40; 50] [0; 5].

(** One key, one row of two values. *)
Definition replacement_field : KJT Z Z :=
  KeyedJaggedTensor [8; 9] ["a"] [80; 90] [2].

(** The same replacement under another key. *)
Definition other_key_field : KJT Z Z :=
  KeyedJaggedTensor [8; 9] ["b"] [80; 90] [2].

(** A field without keys. *)
Definition keyless_field : KJT Z Z := KeyedJaggedTensor [] [] [] [].

(** The target after row 0 was replaced. *)
Definition written_field : KJT Z Z :=
  KeyedJaggedTensor [8; 9; 1; 2; 3; 4; 5] ["a"]
                    [80; 90; 10; 20; 30; 40; 50] [2; 5].

Definition fields (target other : KJT Z Z) : store Z Z :=
  fun l => if (l =? 0)%nat then target else other.

Definition zeros : nat -> Z := fun _ => 0.

(** A wrapper around an operator that returns one row, with the relu
    mapping and the lower bound 1/10000. *)
Definition relu_wrapper : NormalParamWrapper unit unit :=
  {| operator := fun _ =>
       OutTensor (mkTensor 2 [[Real (Finite 0); Real (Finite (-1))]]);
     scale_mapping := "relu";
     scale_lb := (1 # 10000)%Q |}.

(** The same wrapper around an operator that returns a NaN in the half
    that becomes the scale. *)
Definition nan_wrapper : NormalParamWrapper unit unit :=
  {| operator := fun _ => OutTensor (mkTensor 2 [[Real (Finite 0); NaN]]);
     scale_mapping := "relu";
     scale_lb := (1 # 10000)%Q |}.

(** The conversion of a bound to float32, the default dtype, at the bounds
    used below: 1e-4 is not a float32 and is rounded to 13743895 / 2^37,
    which is below it; 0 is a float32. *)
Definition to_float32 (q : Q) : real :=
  if Qeq_bool q (1 # 10000) then Finite (13743895 # 137438953472)
  else Finite q.

(** An element is a number and is not below the bound. *)
Definition at_least (lb : real) (v : number) : Prop :=
  match v with
  | NaN => False
  | Real r => real_le lb r = true
  end.

(** An element is a number and is strictly greater than the Python number
    [lb]. *)
Definition above (lb : Q) (v : number) : Prop :=
  match v with
  | Real (Finite q) => (lb < q)%Q
  | Real PosInf => True
  | _ => False
  end.

(** The lengths of a target after [other] was written over the columns
    [cols] (line 517). *)
Definition written_lengths {V W : Type} (orig_tensor other : KJT V W)
    (N : nat) (cols : list nat) : list Z :=
  put_all (_lengths orig_tensor)
          (flat_positions (length (_keys orig_tensor)) N cols)
          (_lengths other).

(** The positions of the new layout that hold the rows written. *)
Definition written_positions {V W : Type} (o x : KJT V W) (N : nat)
    (cols : list nat) : list nat :=
  let K := length (_keys o) in
  let Lout := written_lengths o x N cols in
  List.filter
    (sel_any (select_columns K N cols (removelast (0 :: cumsum Lout)))
             (select_columns K N cols (tail (0 :: cumsum Lout))))
    (seq 0 (Z.to_nat (sumZ Lout))).

(** [tensor[i1][i2]...]: the indices applied one after the other. *)
Fixpoint getitems {T : Type} (getitem : T -> item -> result T)
    (l : list item) (t : T) : result T :=
  match l with
  | [] => Ok t
  | i :: l' => let! t' := getitem t i in getitems getitem l' t'
  end.

(** The first element of the tuple is itself a tuple. *)
Definition starts_with_tuple (l : list item) : bool :=
  match l with ITuple _ :: _ => true | _ => false end.

(** [x < y] on rationals, and the comparison of [_is_equal] and the
    output of [log_prob] on tensors of rationals with exact operations:
    an instance that the examples below are computed on. *)
Definition Qlt_bool (x y : Q) : bool := negb (Qle_bool y x).

Definition exact_close_at : Delta Q -> ndtensor Q -> ndtensor Q -> list Z
                            -> bool :=
  close_at Qminus Qabs Qabs Qmult Qplus Qlt_bool.

Definition exact_log_prob : Delta Q -> ndtensor Q
                            -> result (ndtensor infinity) :=
  log_prob Qminus Qabs Qabs Qmult Qplus Qlt_bool (Ok tt) (fun v => Ok v).

(** What the operator returns besides the tensor that is split. *)
Definition other_outputs {O : Type} (o : module_output O) : list O :=
  match o with OutTensor _ => [] | OutTuple _ others => others end.

(** The values of entry [j] of a ragged field with lengths [L]: the
    segment of the buffer from where the entry starts. *)
Definition segment {A : Type} (L : list Z) (buf : list A) (j : nat)
  : list A :=
  firstn (Z.to_nat (nth j L 0)) (skipn (Z.to_nat (psum L j)) buf).

(** Entry [j] is one of the entries [J]. *)
Definition owned (J : list nat) (j : nat) : bool := existsb (Nat.eqb j) J.

(** The positions of a layout with lengths [L] that lie outside the rows
    [cols], among the first [T]. *)
Definition kept_positions (K N : nat) (cols : list nat) (L : list Z)
    (T : nat) : list nat :=
  List.filter
    (sel_none (select_columns K N cols (removelast (0 :: cumsum L)))
              (select_columns K N cols (tail (0 :: cumsum L))))
    (seq 0 T).

(** * Properties *)

(** ** Ellipsis expansion *)

Lemma count_ellipsis_cons x l :
  count_ellipsis (x :: l)
  = ((if is_Ellipsis x then 1 else 0) + count_ellipsis l)%nat.
Proof. unfold count_ellipsis. simpl. destruct (is_Ellipsis x); reflexivity. Qed.

Lemma count_ellipsis_app l1 l2 :
  count_ellipsis (l1 ++ l2) = (count_ellipsis l1 + count_ellipsis l2)%nat.
Proof.
  unfold count_ellipsis. rewrite List.filter_app, length_app. reflexivity.
Qed.

Lemma count_ellipsis_le l : (count_ellipsis l <= length l)%nat.
Proof. apply List.filter_length_le. Qed.

(** Once the ellipsis is behind, every further element is counted. *)
Lemma scan_after l : forall i sp a,
  count_ellipsis l = 0%nat ->
  scan_ellipsis l i (Some sp) a = Ok (Some sp, (a + length l)%nat).
Proof.
  induction l as [|x l IH]; intros i sp a Hc; simpl.
  - f_equal. f_equal. lia.
  - rewrite count_ellipsis_cons in Hc.
    destruct (is_Ellipsis x); [discriminate|].
    rewrite IH by assumption. f_equal. f_equal. lia.
Qed.

(** Before the ellipsis nothing is recorded. *)
Lemma scan_before l : forall rest i a,
  count_ellipsis l = 0%nat ->
  scan_ellipsis (l ++ rest) i None a
  = scan_ellipsis rest (i + length l) None a.
Proof.
  induction l as [|x l IH]; intros rest i a Hc; simpl.
  - f_equal. lia.
  - rewrite count_ellipsis_cons in Hc.
    destruct (is_Ellipsis x); [discriminate|].
    rewrite IH by assumption. f_equal. lia.
Qed.

Lemma scan_second l : forall i sp a,
  (1 <= count_ellipsis l)%nat ->
  scan_ellipsis l i (Some sp) a = Raise multiple_ellipsis.
Proof.
  induction l as [|x l IH]; intros i sp a Hc.
  - cbn in Hc. lia.
  - rewrite count_ellipsis_cons in Hc. simpl.
    destruct (is_Ellipsis x); [reflexivity|].
    apply IH. lia.
Qed.

Lemma scan_two l : forall i a,
  (2 <= count_ellipsis l)%nat ->
  scan_ellipsis l i None a = Raise multiple_ellipsis.
Proof.
  induction l as [|x l IH]; intros i a Hc.
  - cbn in Hc. lia.
  - rewrite count_ellipsis_cons in Hc. simpl.
    destruct (is_Ellipsis x).
    + apply scan_second. lia.
    + apply IH. lia.
Qed.

(** An index with exactly one ellipsis splits around it. *)
Lemma one_ellipsis_split l :
  count_ellipsis l = 1%nat ->
  exists pre post,
    l = pre ++ IEllipsis :: post
    /\ count_ellipsis pre = 0%nat /\ count_ellipsis post = 0%nat.
Proof.
  induction l as [|x l IH]; intros Hc.
  - discriminate.
  - rewrite count_ellipsis_cons in Hc.
    destruct x; simpl in Hc;
      try (destruct (IH Hc) as (pre & post & -> & Hp & Hq);
           eexists (_ :: pre), post; split; [reflexivity|];
           split; [rewrite count_ellipsis_cons; simpl; exact Hp | exact Hq]).
    exists [], l. split; [reflexivity|]. split; [reflexivity|lia].
Qed.

Lemma take_before {A : Type} (pre : list A) x post :
  firstn (length pre) (pre ++ x :: post) = pre.
Proof. apply take_app_length. Qed.

Lemma py_slice_after {A : Type} (pre : list A) x post n :
  n = length post ->
  py_slice (pre ++ x :: post) (length pre + 1) (length pre + 1 + n) = post.
Proof.
  intros ->. unfold py_slice.
  replace (length pre + 1 + length post - (length pre + 1))%nat
    with (length post) by lia.
  replace (pre ++ x :: post) with ((pre ++ [x]) ++ post)
    by (rewrite <- app_assoc; reflexivity).
  replace (length pre + 1)%nat with (length (pre ++ [x]))
    by (rewrite length_app; reflexivity).
  rewrite drop_app_length. apply firstn_all.
Qed.

Lemma convert_ellipsis_split pre post (batch_size : list Z) :
  count_ellipsis pre = 0%nat -> count_ellipsis post = 0%nat ->
  (length pre + length post <= length batch_size)%nat ->
  convert_ellipsis_to_idx (Tup (pre ++ IEllipsis :: post)) batch_size
  = Ok (pre
        ++ repeat full_slice
                  (length batch_size - (length pre + length post))
        ++ post).
Proof.
  intros Hp Hq Hle. unfold convert_ellipsis_to_idx.
  rewrite count_ellipsis_app, count_ellipsis_cons, Hp, Hq. simpl is_Ellipsis.
  rewrite length_app. simpl length.
  destruct (Z.ltb_spec (Z.of_nat (length batch_size))
              (Z.of_nat (length pre + S (length post))
               - Z.of_nat (0 + (1 + 0)))) as [Hlt|_]; [lia|].
  rewrite scan_before by assumption. simpl scan_ellipsis.
  rewrite scan_after by assumption. unfold bind.
  change (0 + length pre)%nat with (length pre).
  rewrite take_before, py_slice_after by reflexivity.
  replace (Z.to_nat
             (Z.of_nat (length pre)
              + (Z.of_nat (length batch_size)
                 - Z.of_nat (0 + length post) - Z.of_nat (length pre))
              - Z.of_nat (length pre)))
    with (length batch_size - (length pre + length post))%nat by lia.
  rewrite !length_app, repeat_length.
  destruct (Nat.eqb_spec
              (length pre
               + (length batch_size - (length pre + length post)
                  + length post)) (length batch_size)) as [_|Hne];
    [reflexivity | lia].
Qed.

(** C3.  An index tuple with exactly one ellipsis and no more explicit
    elements than [batch_size] has dimensions is expanded to the elements
    before the ellipsis, then as many full slices as dimensions are left,
    then the elements after it; the result has [len(batch_size)]
    elements. *)
Theorem convert_ellipsis_one (idx : list item) (batch_size : list Z) :
  count_ellipsis idx = 1%nat ->
  (length idx - count_ellipsis idx <= length batch_size)%nat ->
  exists pre post,
    idx = pre ++ IEllipsis :: post
    /\ count_ellipsis pre = 0%nat /\ count_ellipsis post = 0%nat
    /\ convert_ellipsis_to_idx (Tup idx) batch_size
       = Ok (pre
             ++ repeat full_slice
                       (length batch_size - (length pre + length post))
             ++ post)
    /\ length (pre
               ++ repeat full_slice
                         (length batch_size - (length pre + length post))
               ++ post) = length batch_size.
Proof.
  intros H1 Hle.
  destruct (one_ellipsis_split idx H1) as (pre & post & -> & Hp & Hq).
  rewrite H1 in Hle. rewrite length_app in Hle. simpl in Hle.
  exists pre, post. repeat split; try assumption.
  - apply convert_ellipsis_split; [assumption..|lia].
  - rewrite !length_app, repeat_length. lia.
Qed.

Lemma convert_ellipsis_one_witness :
  exists pre post,
    [IEllipsis; IInt 0] = pre ++ IEllipsis :: post
    /\ count_ellipsis pre = 0%nat /\ count_ellipsis post = 0%nat
    /\ convert_ellipsis_to_idx (Tup [IEllipsis; IInt 0]) [1; 2; 3]
       = Ok (pre
             ++ repeat full_slice
                       (length [1; 2; 3] - (length pre + length post))
             ++ post)
    /\ length (pre
               ++ repeat full_slice
                         (length [1; 2; 3] - (length pre + length post))
               ++ post) = length [1; 2; 3].
Proof.
  apply (convert_ellipsis_one [IEllipsis; IInt 0] [1; 2; 3]).
  - reflexivity.
  - simpl. lia.
Defined.

(** C6, as the code has it.  With two or more ellipses the dimension count
    is checked first: when the explicit elements outnumber the dimensions,
    the not-enough-dimensions error is raised; otherwise the
    multiple-ellipsis error. *)
Theorem convert_ellipsis_many (idx : list item) (batch_size : list Z) :
  (2 <= count_ellipsis idx)%nat ->
  convert_ellipsis_to_idx (Tup idx) batch_size
  = if (length batch_size <? length idx - count_ellipsis idx)%nat
    then Raise not_enough_dimensions
    else Raise multiple_ellipsis.
Proof.
  intros H2. unfold convert_ellipsis_to_idx.
  pose proof (count_ellipsis_le idx) as Hle.
  destruct (Nat.ltb_spec (length batch_size)
              (length idx - count_ellipsis idx)) as [Hlt|Hge].
  - destruct (Z.ltb_spec (Z.of_nat (length batch_size))
                (Z.of_nat (length idx) - Z.of_nat (count_ellipsis idx)));
      [reflexivity | lia].
  - destruct (Z.ltb_spec (Z.of_nat (length batch_size))
                (Z.of_nat (length idx) - Z.of_nat (count_ellipsis idx)));
      [lia|].
    rewrite scan_two by assumption. reflexivity.
Qed.

Lemma convert_ellipsis_many_witness :
  (2 <= count_ellipsis [IEllipsis; IEllipsis; IInt 0])%nat
  /\ convert_ellipsis_to_idx (Tup [IEllipsis; IEllipsis; IInt 0]) [4; 5]
     = Raise multiple_ellipsis.
Proof.
  split.
  - cbn. lia.
  - apply (convert_ellipsis_many [IEllipsis; IEllipsis; IInt 0] [4; 5]).
    cbn. lia.
Defined.

(** C6, as stated, fails: two ellipses and one integer on a shape without
    dimensions raise the not-enough-dimensions error. *)
Lemma convert_ellipsis_many_counterexample :
  (2 <= count_ellipsis [IEllipsis; IEllipsis; IInt 0])%nat
  /\ convert_ellipsis_to_idx (Tup [IEllipsis; IEllipsis; IInt 0]) []
     = Raise not_enough_dimensions
  /\ convert_ellipsis_to_idx (Tup [IEllipsis; IEllipsis; IInt 0]) []
     <> Raise multiple_ellipsis.
Proof.
  split; [cbn; lia|]. split; [reflexivity|]. discriminate.
Qed.

(** C10.  An index tuple without ellipsis that passes the dimension count
    raises [TypeError]: the position of the ellipsis is still [None] when
    it is subtracted. *)
Theorem convert_ellipsis_none (idx : list item) (batch_size : list Z) :
  count_ellipsis idx = 0%nat ->
  (length idx <= length batch_size)%nat ->
  convert_ellipsis_to_idx (Tup idx) batch_size = Raise TypeError.
Proof.
  intros H0 Hle. unfold convert_ellipsis_to_idx. rewrite H0.
  destruct (Z.ltb_spec (Z.of_nat (length batch_size))
              (Z.of_nat (length idx) - Z.of_nat 0)); [lia|].
  rewrite <- (app_nil_r idx) at 1.
  rewrite scan_before by assumption. reflexivity.
Qed.

Lemma convert_ellipsis_none_witness :
  count_ellipsis [IInt 0; full_slice] = 0%nat
  /\ (length [IInt 0; full_slice] <= length [4; 5; 6])%nat
  /\ convert_ellipsis_to_idx (Tup [IInt 0; full_slice]) [4; 5; 6]
     = Raise TypeError.
Proof.
  split; [reflexivity|]. split; [simpl; lia|].
  apply (convert_ellipsis_none [IInt 0; full_slice] [4; 5; 6]).
  - reflexivity.
  - simpl. lia.
Defined.

(** ** Shape inference *)

(** On a positive step the Python slice and the engine's slice select the
    same number of positions. *)
Lemma slice_len_probe size a b c v :
  0 <= size ->
  probe_slice_size size a b c = Some v ->
  slice_len a b c size = Ok v.
Proof.
  intros Hsize. unfold probe_slice_size, torch_slice, slice_len, slice_indices.
  destruct (Z.leb_spec (default 1 c) 0) as [Hc|Hc]; [discriminate|].
  intros [= <-].
  destruct (Z.ltb_spec size 0); [lia|].
  destruct (Z.eqb_spec (default 1 c) 0); [lia|].
  destruct (Z.ltb_spec (default 1 c) 0); [lia|].
  unfold bind, range_len.
  destruct (Z.ltb_spec 0 (default 1 c)); [|lia].
  set (st := default 1 c) in *.
  destruct a as [a|], b as [b|]; simpl default;
    repeat match goal with
           | |- context [Z.ltb ?x ?y] => destruct (Z.ltb_spec x y)
           | |- context [Z.leb ?x ?y] => destruct (Z.leb_spec x y)
           | H : context [Z.ltb ?x ?y] |- _ => destruct (Z.ltb_spec x y)
           end;
    f_equal;
    first
      [ lia
      | symmetry; apply Z.div_small; lia
      | rewrite <- Z.div_add by lia; f_equal; lia ].
Qed.

Lemma mask_sum_nonzero m : mask_sum m = Z.of_nat (length (nonzero m)).
Proof.
  unfold mask_sum, nonzero. rewrite length_map. f_equal.
  induction m as [|b m IH]; [reflexivity|].
  simpl length at 2. simpl seq. rewrite <- seq_shift.
  simpl List.filter.
  destruct b; rewrite filter_map_swap; simpl; rewrite length_map, IH;
    reflexivity.
Qed.

(** The walk of lines 114-140 against the first phase of the probe. *)
Lemma walk_probe shape idx : forall sizes dims bs,
  Forall (fun n => 0 <= n) sizes ->
  forallb fuzz_kind idx = true ->
  probe_slicing idx sizes = Some dims ->
  getitem_walk shape idx sizes bs = Ok (bs ++ map pdim_len dims).
Proof.
  induction idx as [|x idx IH]; intros sizes dims bs Hpos Hk Hp.
  - simpl in *. injection Hp as <-. rewrite map_map. simpl.
    rewrite map_id. reflexivity.
  - simpl in Hk. apply andb_prop in Hk as [Hx Hk].
    destruct x; try discriminate; simpl in Hp |- *.
    + (* integer *)
      destruct sizes as [|n sizes]; [discriminate|].
      destruct ((- n <=? i) && (i <? n)); [|discriminate].
      apply IH; [inversion Hpos; assumption | assumption | assumption].
    + (* slice *)
      destruct sizes as [|n sizes]; [discriminate|].
      destruct (probe_slice_size n start stop step) as [v|] eqn:Hv;
        [|discriminate].
      destruct (probe_slicing idx sizes) as [dims'|] eqn:Hd; [|discriminate].
      injection Hp as <-.
      rewrite (slice_len_probe n start stop step v)
        by (inversion Hpos; assumption).
      simpl bind. rewrite (IH sizes dims');
        [|inversion Hpos; assumption|assumption|assumption].
      simpl. rewrite <- app_assoc. reflexivity.
    + (* None *)
      destruct (probe_slicing idx sizes) as [dims'|] eqn:Hd; [|discriminate].
      injection Hp as <-.
      rewrite (IH sizes dims'); [|assumption|assumption|assumption].
      simpl. rewrite <- app_assoc. reflexivity.
    + (* list *)
      destruct sizes as [|n sizes]; [discriminate|].
      destruct (probe_slicing idx sizes) as [dims'|] eqn:Hd; [|discriminate].
      injection Hp as <-.
      rewrite (IH sizes dims');
        [|inversion Hpos; assumption|assumption|assumption].
      simpl. rewrite <- app_assoc. reflexivity.
    + (* boolean array *)
      destruct sizes as [|n sizes]; [discriminate|].
      destruct (Z.of_nat (length m) =? n); [|discriminate].
      destruct (probe_slicing idx sizes) as [dims'|] eqn:Hd; [|discriminate].
      injection Hp as <-.
      rewrite (IH sizes dims');
        [|inversion Hpos; assumption|assumption|assumption].
      simpl. rewrite <- app_assoc, mask_sum_nonzero. reflexivity.
Qed.

Lemma adv_parts_count idx : forall sizes dims,
  probe_slicing idx sizes = Some dims ->
  length (adv_parts dims)
  = count_arrays idx.
Proof.
  unfold count_arrays.
  induction idx as [|x idx IH]; intros sizes dims Hp.
  - simpl in Hp. injection Hp as <-. simpl.
    induction sizes; [reflexivity | assumption].
  - destruct x; try discriminate; simpl in Hp.
    + destruct sizes as [|n sizes]; [discriminate|].
      destruct ((- n <=? i) && (i <? n)); [|discriminate].
      simpl. eapply IH; eassumption.
    + destruct sizes as [|n sizes]; [discriminate|].
      destruct (probe_slice_size n start stop step); [|discriminate].
      destruct (probe_slicing idx sizes) as [dims'|] eqn:Hd; [|discriminate].
      injection Hp as <-. simpl. eapply IH; eassumption.
    + destruct (probe_slicing idx sizes) as [dims'|] eqn:Hd; [|discriminate].
      injection Hp as <-. simpl. eapply IH; eassumption.
    + destruct sizes as [|n sizes]; [discriminate|].
      destruct (probe_slicing idx sizes) as [dims'|] eqn:Hd; [|discriminate].
      injection Hp as <-. simpl. f_equal. eapply IH; eassumption.
    + destruct sizes as [|n sizes]; [discriminate|].
      destruct (probe_slicing idx sizes) as [dims'|] eqn:Hd; [|discriminate].
      injection Hp as <-. simpl. f_equal. eapply IH; eassumption.
    + destruct sizes as [|n sizes]; [discriminate|].
      destruct (Z.of_nat (length m) =? n); [|discriminate].
      destruct (probe_slicing idx sizes) as [dims'|] eqn:Hd; [|discriminate].
      injection Hp as <-. simpl. f_equal. eapply IH; eassumption.
    + destruct sizes as [|n sizes]; [discriminate|].
      destruct (Z.of_nat (length m) =? n); [|discriminate].
      destruct (probe_slicing idx sizes) as [dims'|] eqn:Hd; [|discriminate].
      injection Hp as <-. simpl. f_equal. eapply IH; eassumption.
Qed.

Lemma no_adv_sizes dims :
  adv_parts dims = [] -> map pdim_size dims = map pdim_len dims.
Proof.
  induction dims as [|[n|n ix] dims IH]; simpl; intros H.
  - reflexivity.
  - f_equal. auto.
  - discriminate.
Qed.

Lemma no_adv_basic dims :
  adv_parts dims = [] -> forallb is_Basic dims = true.
Proof.
  induction dims as [|[n|n ix] dims IH]; simpl; intros H;
    [reflexivity | auto | discriminate].
Qed.

(** With a single index array the second phase puts its length where the
    indexed dimension was. *)
Lemma one_adv_shape dims n ix :
  adv_parts dims = [(n, ix)] ->
  forallb is_Basic (skip_adv (snd (lead_basic dims))) = true
  /\ fst (lead_basic dims) ++ [Z.of_nat (length ix)]
       ++ map pdim_size (skip_adv (snd (lead_basic dims)))
     = map pdim_len dims.
Proof.
  induction dims as [|[m|m jx] dims IH]; simpl; intros H.
  - discriminate.
  - destruct (IH H) as [Hb He].
    destruct (lead_basic dims) as [b r]. simpl in *.
    split; [assumption|]. f_equal. assumption.
  - injection H as -> -> Hr. simpl.
    assert (Hs : skip_adv dims = dims).
    { destruct dims as [|[?|? ?] ?]; [reflexivity..|discriminate]. }
    rewrite Hs. split; [apply no_adv_basic; assumption|].
    f_equal. apply no_adv_sizes. assumption.
Qed.

Lemma broadcast_single n : broadcast_all [n] = Some n.
Proof.
  simpl. unfold broadcast2.
  destruct (Nat.eqb_spec n 1) as [->|Hn]; [reflexivity|].
  destruct (Nat.eqb_spec n 1); [contradiction|]. reflexivity.
Qed.

(** With at most one index array, the probe's shape is positional. *)
Lemma probe_shape_positional S idx r :
  (count_arrays idx <= 1)%nat ->
  probe_shape S idx = Some r ->
  exists dims, probe_slicing idx S = Some dims /\ r = map pdim_len dims.
Proof.
  intros Hc. unfold probe_shape.
  destruct (probe_slicing idx S) as [dims|] eqn:Hd; [|discriminate].
  pose proof (adv_parts_count idx S dims Hd) as Hn.
  intros Hr. exists dims. split; [reflexivity|].
  destruct (adv_parts dims) as [|[n ix] [|? ?]] eqn:Ha.
  - injection Hr as <-. apply no_adv_sizes. assumption.
  - simpl map in Hr. rewrite broadcast_single in Hr.
    destruct (negb (length ix =? 0)%nat && negb (forallb in_bounds [(n, ix)]));
      [discriminate|].
    destruct (one_adv_shape dims n ix Ha) as [Hb He].
    destruct (lead_basic dims) as [b rest]. simpl in Hb, He.
    rewrite Hb in Hr. injection Hr as <-. exact He.
  - simpl in Hn. lia.
Qed.

Lemma all_tensor_count l :
  forallb is_Tensor l = true -> count_arrays l = length l.
Proof.
  unfold count_arrays. induction l as [|x l IH]; simpl; intros H.
  - reflexivity.
  - apply andb_prop in H as [Hx Hl].
    destruct x; try discriminate; simpl; f_equal; auto.
Qed.

(** Where the walk can agree with the probe, the special cases of lines
    84-112 agree with the general walk. *)
Lemma getitem_is_walk S idx dims :
  forallb fuzz_kind idx = true ->
  (count_arrays idx <= 1)%nat ->
  idx <> [IList []] ->
  (idx = [] -> S <> []) ->
  probe_slicing idx S = Some dims ->
  _getitem_batch_size S (ITuple idx) = getitem_walk S idx S [].
Proof.
  intros Hk Hc Hne Hnil Hp.
  destruct idx as [|x [|y rest]].
  - (* the empty tuple *)
    destruct S as [|n S]; [exfalso; apply Hnil; reflexivity|]. reflexivity.
  - (* a tuple of one element *)
    simpl in Hk. destruct x; try discriminate; simpl in Hp |- *.
    + destruct S as [|n S]; [discriminate|]. reflexivity.
    + reflexivity.
    + reflexivity.
    + destruct S as [|n S]; [discriminate|].
      destruct l as [|z l]; [exfalso; apply Hne; reflexivity|]. reflexivity.
    + destruct S as [|n S]; [discriminate|]. reflexivity.
  - (* two elements or more *)
    unfold _getitem_batch_size.
    destruct (forallb is_Tensor (x :: y :: rest)) eqn:Ht.
    + apply all_tensor_count in Ht. simpl length in Ht. lia.
    + simpl andb. reflexivity.
Qed.

(** Where the code agrees with the probe.  For a shape of non-negative
    sizes and an index tuple of slices, integers, lists of integers,
    boolean tensors and [None] that the array engine accepts, with at most
    one list or boolean tensor, other than the tuple of one empty list and
    other than the empty tuple on the empty shape, [_getitem_batch_size]
    returns the shape of the probe. *)
Lemma getitem_batch_size_probe (S : list Z) (idx : list item) (r : list Z) :
  Forall (fun n => 0 <= n) S ->
  forallb fuzz_kind idx = true ->
  (count_arrays idx <= 1)%nat ->
  idx <> [IList []] ->
  (idx = [] -> S <> []) ->
  probe_shape S idx = Some r ->
  _getitem_batch_size S (ITuple idx) = Ok r.
Proof.
  intros Hpos Hk Hc Hne Hnil Hp.
  destruct (probe_shape_positional S idx r Hc Hp) as (dims & Hd & ->).
  rewrite (getitem_is_walk S idx dims) by assumption.
  apply (walk_probe S idx S dims []); assumption.
Qed.

Lemma getitem_batch_size_probe_witness :
  probe_shape [4; 5; 6] [ISlice (Some 1) None (Some 2); INone; IList [0; 2; 2]]
  = Some [2; 1; 3; 6]
  /\ _getitem_batch_size [4; 5; 6]
       (ITuple [ISlice (Some 1) None (Some 2); INone; IList [0; 2; 2]])
     = Ok [2; 1; 3; 6].
Proof.
  split; [reflexivity|].
  apply (getitem_batch_size_probe [4; 5; 6]
           [ISlice (Some 1) None (Some 2); INone; IList [0; 2; 2]]).
  - repeat constructor; lia.
  - reflexivity.
  - cbn. lia.
  - discriminate.
  - discriminate.
  - reflexivity.
Defined.

Lemma adv_parts_basic l : adv_parts (map Basic l) = [].
Proof. induction l; simpl; auto. Qed.

Lemma pdim_size_basic l : map pdim_size (map Basic l) = l.
Proof. induction l; simpl; f_equal; auto. Qed.

Lemma is_Basic_basic l : forallb is_Basic (map Basic l) = true.
Proof. induction l; simpl; auto. Qed.

Lemma skip_adv_basic l : skip_adv (map Basic l) = map Basic l.
Proof. destruct l; reflexivity. Qed.

Lemma nonzero_in_bounds (b : list bool) :
  in_bounds (Z.of_nat (length b), nonzero b) = true.
Proof.
  unfold in_bounds, nonzero. simpl. apply forallb_forall. intros i Hi.
  apply in_map_iff in Hi as (k & <- & Hk).
  apply filter_In in Hk as [Hk _]. apply in_seq in Hk.
  apply andb_true_intro. split; [apply Z.leb_le|apply Z.ltb_lt]; lia.
Qed.

(** C1.  The code departs from the probe on index arrays, on every shape
    [n :: m :: rest].  Two lists of integers of the same length [L], not
    empty and with entries in range, are applied together by the array
    engine: the probe has the shape [L :: rest], the code returns
    [L :: L :: rest].  A list or numpy array of booleans as long as the
    first dimension, not empty, selects in the probe as many positions as
    it has true entries; the code returns its length.  For the tuple of
    one empty list the probe has the shape [0 :: m :: rest]; the code
    drops the dimension. *)
Theorem getitem_batch_size_index_arrays (n m : Z) (rest : list Z)
    (l1 l2 : list Z) (b : list bool) :
  length l1 = length l2 -> l1 <> [] ->
  forallb (fun i => (- n <=? i) && (i <? n)) l1 = true ->
  forallb (fun i => (- m <=? i) && (i <? m)) l2 = true ->
  Z.of_nat (length b) = n -> b <> [] ->
  (probe_shape (n :: m :: rest) [IList l1; IList l2]
   = Some (Z.of_nat (length l1) :: rest)
   /\ _getitem_batch_size (n :: m :: rest) (ITuple [IList l1; IList l2])
      = Ok (Z.of_nat (length l1) :: Z.of_nat (length l1) :: rest))
  /\ (probe_shape (n :: m :: rest) [IBools b]
      = Some (mask_sum b :: m :: rest)
      /\ _getitem_batch_size (n :: m :: rest) (ITuple [IBools b])
         = Ok (Z.of_nat (length b) :: m :: rest))
  /\ (probe_shape (n :: m :: rest) [IList []] = Some (0 :: m :: rest)
      /\ _getitem_batch_size (n :: m :: rest) (ITuple [IList []])
         = Ok (m :: rest)).
Proof.
  intros Hlen Hne H1 H2 Hb Hbne.
  assert (HL : (length l1 =? 0)%nat = false).
  { destruct l1; [contradiction|reflexivity]. }
  split; [|split].
  - split.
    + unfold probe_shape. simpl probe_slicing.
      cbn [adv_parts]. rewrite adv_parts_basic.
      cbn [map snd]. rewrite <- Hlen.
      change (broadcast_all [length l1; length l1])
        with (match broadcast_all [length l1] with
              | Some k => broadcast2 (length l1) k
              | None => None
              end).
      rewrite broadcast_single. unfold broadcast2. rewrite Nat.eqb_refl.
      rewrite HL. cbn [negb andb forallb].
      unfold in_bounds at 1 2. cbn [fst snd]. rewrite H1, H2.
      cbn [negb andb lead_basic skip_adv].
      rewrite skip_adv_basic, is_Basic_basic, pdim_size_basic. reflexivity.
    + unfold _getitem_batch_size. simpl. rewrite <- Hlen. reflexivity.
  - split.
    + unfold probe_shape. simpl probe_slicing. rewrite Hb, Z.eqb_refl.
      cbn [option_map adv_parts]. rewrite adv_parts_basic.
      cbn [map snd]. rewrite broadcast_single.
      cbn [forallb]. rewrite <- Hb at 1. rewrite nonzero_in_bounds.
      cbn [negb andb lead_basic skip_adv]. rewrite andb_false_r.
      change (map Basic (m :: rest)) with (Basic m :: map Basic rest).
      cbn [skip_adv forallb is_Basic andb map pdim_size].
      rewrite is_Basic_basic, pdim_size_basic, <- mask_sum_nonzero.
      reflexivity.
    + unfold _getitem_batch_size. destruct b; [contradiction|reflexivity].
  - split; [|reflexivity].
    unfold probe_shape. simpl probe_slicing.
    cbn [adv_parts]. rewrite adv_parts_basic.
    cbn [map snd length broadcast_all broadcast2 Nat.eqb negb andb
         lead_basic skip_adv].
    change (map Basic (m :: rest)) with (Basic m :: map Basic rest).
    cbn [skip_adv forallb is_Basic andb map pdim_size].
    rewrite is_Basic_basic, pdim_size_basic. reflexivity.
Qed.

Lemma getitem_batch_size_index_arrays_witness :
  (probe_shape [4; 5; 6] [IList [0; 1]; IList [0; 1]] = Some [2; 6]
   /\ _getitem_batch_size [4; 5; 6] (ITuple [IList [0; 1]; IList [0; 1]])
      = Ok [2; 2; 6])
  /\ (probe_shape [4; 5; 6] [IBools [true; false; true; false]]
      = Some [2; 5; 6]
      /\ _getitem_batch_size [4; 5; 6]
           (ITuple [IBools [true; false; true; false]])
         = Ok [4; 5; 6])
  /\ (probe_shape [4; 5; 6] [IList []] = Some [0; 5; 6]
      /\ _getitem_batch_size [4; 5; 6] (ITuple [IList []]) = Ok [5; 6]).
Proof.
  refine (getitem_batch_size_index_arrays 4 5 [6] [0; 1] [0; 1]
            [true; false; true; false] eq_refl _ eq_refl eq_refl eq_refl _);
    discriminate.
Defined.

(** C2, as the code has it: the third example keeps the dimension of size
    five that the index does not reach. *)
Theorem getitem_batch_size_examples :
  _getitem_batch_size [4; 5; 6] (ITuple [IInt 0]) = Ok [5; 6]
  /\ _getitem_batch_size [4; 5; 6] (ITuple [IList [0; 2]]) = Ok [2; 5; 6]
  /\ _getitem_batch_size [4; 5; 6]
       (ITuple [ISlice (Some 1) (Some 3) None; INone]) = Ok [2; 1; 5; 6].
Proof. repeat split. Qed.

(** C2, as stated, fails on its third example. *)
Lemma getitem_batch_size_examples_counterexample :
  _getitem_batch_size [4; 5; 6]
    (ITuple [ISlice (Some 1) (Some 3) None; INone]) <> Ok [2; 1; 6].
Proof. discriminate. Qed.

(** ** The location and scale split *)

Lemma chunk_sizes_even d : chunk_sizes 2 (2 * d) = [d; d].
Proof.
  unfold chunk_sizes.
  assert (Hs : ((2 * d + 2 - 1) / 2 = d)%nat).
  { symmetry. apply (Nat.div_unique _ 2 d 1); lia. }
  rewrite Hs. destruct d as [|d]; [reflexivity|].
  simpl Nat.eqb. simpl andb. cbv iota.
  assert (Hn : ((2 * S d + S d - 1) / S d = 2)%nat).
  { symmetry. apply (Nat.div_unique _ (S d) 2 d); lia. }
  rewrite Hn. simpl Nat.max.
  replace (S d - (S d * 2 - 2 * S d))%nat with (S d) by lia.
  reflexivity.
Qed.

Lemma real_le_refl r : real_le r r = true.
Proof. destruct r; simpl; auto. apply Qle_bool_iff, Qle_refl. Qed.

Lemma clamp_min_le lb x :
  clamp_min lb x = NaN \/ at_least lb (clamp_min lb x).
Proof.
  destruct x as [|r]; [left; reflexivity|]. right. simpl.
  destruct (real_le lb r) eqn:H; [exact H|apply real_le_refl].
Qed.

Lemma piece_ok t s start :
  tensor_ok t -> (start + s <= trailing t)%nat ->
  tensor_ok (mkTensor s (map (fun row => firstn s (skipn start row)) (rows t))).
Proof.
  unfold tensor_ok. simpl. intros Hok Hle. rewrite Forall_map.
  eapply Forall_impl; [exact Hok|]. intros r Hr. simpl in Hr |- *.
  rewrite length_take, length_drop. lia.
Qed.

Lemma map_tensor_ok g t : tensor_ok t -> tensor_ok (map_tensor g t).
Proof.
  unfold tensor_ok, map_tensor. simpl. intros Hok. rewrite Forall_map.
  eapply Forall_impl; [exact Hok|]. intros r Hr. simpl in Hr |- *.
  rewrite length_map. assumption.
Qed.

(** C9, as the code has it.  When the tensor to split has a trailing
    dimension of size [2 * d] and the scale mapping is registered,
    [forward] returns a location and a scale of trailing size [d], and
    every element of the scale is NaN or a number that is not below the
    lower bound as the dtype of the scale holds it. *)
Theorem forward_split {I O : Type}
    (mappings : string -> result (number -> number)) (to_dtype : Q -> real)
    (self : NormalParamWrapper I O) (tensors : I) (d : nat)
    (f : number -> number) :
  tensor_ok (first_output (operator self tensors)) ->
  trailing (first_output (operator self tensors)) = (2 * d)%nat ->
  mappings (scale_mapping self) = Ok f ->
  exists loc scale others,
    forward mappings to_dtype self tensors = Ok (loc, scale, others)
    /\ trailing loc = d /\ tensor_ok loc
    /\ trailing scale = d /\ tensor_ok scale
    /\ Forall (Forall (fun v =>
                         v = NaN \/ at_least (to_dtype (scale_lb self)) v))
              (rows scale).
Proof.
  intros Hok Ht Hm. unfold forward.
  destruct (operator self tensors) as [t|t o]; cbn [first_output] in Hok, Ht;
    cbv beta iota; unfold chunk; rewrite Ht, chunk_sizes_even;
    cbn [split_rows]; rewrite Hm; cbn [bind];
    eexists _, _, _; (split; [reflexivity|]);
    (split; [reflexivity|]);
    (split; [apply piece_ok; [assumption|lia]|]);
    (split; [reflexivity|]);
    (split; [do 2 apply map_tensor_ok; apply piece_ok; [assumption|lia]|]);
    cbn [rows map_tensor];
    rewrite !Forall_map; apply Forall_forall; intros r _;
    rewrite !Forall_map; apply Forall_forall; intros v _;
    apply clamp_min_le.
Qed.

Lemma forward_split_witness :
  tensor_ok (first_output (operator relu_wrapper tt))
  /\ trailing (first_output (operator relu_wrapper tt)) = (2 * 1)%nat
  /\ registered_mappings id id id (scale_mapping relu_wrapper) = Ok relu
  /\ exists loc scale others,
    forward (registered_mappings id id id) to_float32 relu_wrapper tt
    = Ok (loc, scale, others)
    /\ trailing loc = 1%nat /\ tensor_ok loc
    /\ trailing scale = 1%nat /\ tensor_ok scale
    /\ Forall (Forall (fun v =>
                         v = NaN
                         \/ at_least (to_float32 (scale_lb relu_wrapper)) v))
              (rows scale).
Proof.
  assert (H1 : tensor_ok (first_output (operator relu_wrapper tt)))
    by (repeat constructor).
  split; [exact H1|]. split; [reflexivity|]. split; [reflexivity|].
  apply (forward_split (registered_mappings id id id) to_float32
           relu_wrapper tt 1 relu H1 eq_refl eq_refl).
Defined.

(** C9, as stated, fails.  With relu a negative entry becomes zero and the
    clamp returns the bound itself, which in float32 is below the Python
    number 1e-4: the element of the scale is not strictly greater than
    [scale_lb], and not even equal to it.  A NaN entry stays NaN through
    relu and the clamp. *)
Lemma forward_split_counterexample :
  trailing (first_output (operator relu_wrapper tt)) = (2 * 1)%nat
  /\ registered_mappings id id id (scale_mapping relu_wrapper) = Ok relu
  /\ (exists loc,
        forward (registered_mappings id id id) to_float32 relu_wrapper tt
        = Ok (loc, mkTensor 1 [[Real (Finite (13743895 # 137438953472))]],
              [])
        /\ ~ above (scale_lb relu_wrapper)
                   (Real (Finite (13743895 # 137438953472)))
        /\ (13743895 # 137438953472 < scale_lb relu_wrapper)%Q)
  /\ (exists loc,
        forward (registered_mappings id id id) to_float32 nan_wrapper tt
        = Ok (loc, mkTensor 1 [[NaN]], [])
        /\ ~ above (scale_lb nan_wrapper) NaN).
Proof.
  split; [reflexivity|]. split; [reflexivity|]. split.
  - eexists. split; [reflexivity|]. split.
    + simpl. intros H. revert H. apply Qle_not_lt. discriminate.
    + reflexivity.
  - eexists. split; [reflexivity|]. simpl. auto.
Qed.

(** ** Flat tensors: basic facts *)

Lemma floordiv_mul K N : K <> 0%nat -> floordiv (K * N) K = Ok N.
Proof.
  intros HK. unfold floordiv.
  destruct (Nat.eqb_spec K 0); [contradiction|].
  rewrite Nat.mul_comm, Nat.div_mul by assumption. reflexivity.
Qed.

Lemma length_cumsum_from l : forall a, length (cumsum_from a l) = length l.
Proof. induction l; intros; simpl; auto. Qed.

Lemma last_cumsum_from l : forall a,
  last (a :: cumsum_from a l) = Some (a + sumZ l).
Proof.
  induction l as [|x l IH]; intros a.
  - simpl. f_equal. lia.
  - simpl cumsum_from. rewrite last_cons_cons, IH. simpl. f_equal. lia.
Qed.

Lemma length_removelast_cons {A : Type} (x : A) l :
  length (removelast (x :: l)) = length l.
Proof.
  rewrite removelast_firstn_len. simpl length. simpl Init.Nat.pred.
  rewrite length_take. simpl. lia.
Qed.

Lemma length_flat_positions K N cols :
  length (flat_positions K N cols) = (K * length cols)%nat.
Proof.
  unfold flat_positions.
  rewrite (flat_map_constant_length (c := length cols)).
  - rewrite length_seq. reflexivity.
  - intros k _. apply length_map.
Qed.

Lemma length_select_columns K N cols t :
  length (select_columns K N cols t) = (K * length cols)%nat.
Proof.
  unfold select_columns. rewrite length_map. apply length_flat_positions.
Qed.

Lemma sel_none_any lo hi p : sel_none lo hi p = negb (sel_any lo hi p).
Proof.
  unfold sel_none, sel_any.
  induction (combine lo hi) as [|ab l IH]; [reflexivity|].
  simpl. rewrite IH, negb_orb. reflexivity.
Qed.

Lemma gather_length {A : Type} (buf : list A) idx : forall r,
  gather buf idx = Ok r -> length r = length idx.
Proof.
  induction idx as [|i idx IH]; intros r H; simpl in H.
  - injection H as <-. reflexivity.
  - destruct (buf !! i); [|discriminate].
    destruct (gather buf idx) as [r'|]; [|discriminate].
    simpl in H. injection H as <-. simpl. f_equal. apply IH. reflexivity.
Qed.

Lemma gather_lookup {A : Type} (buf : list A) idx : forall r,
  gather buf idx = Ok r -> Forall2 (fun i x => buf !! i = Some x) idx r.
Proof.
  induction idx as [|i idx IH]; intros r H; simpl in H.
  - injection H as <-. constructor.
  - destruct (buf !! i) eqn:Hi; [|discriminate].
    destruct (gather buf idx) as [r'|]; [|discriminate].
    simpl in H. injection H as <-. constructor; auto.
Qed.

Lemma gather_in_range {A : Type} (buf : list A) idx :
  Forall (fun i => (i < length buf)%nat) idx ->
  exists r, gather buf idx = Ok r.
Proof.
  induction 1 as [|i idx Hi _ [r Hr]]; simpl.
  - eexists; reflexivity.
  - destruct (lookup_lt_is_Some_2 buf i Hi) as [x ->].
    rewrite Hr. eexists; reflexivity.
Qed.

Lemma filter_seq_range f T :
  Forall (fun i => (i < T)%nat) (List.filter f (seq 0 T)).
Proof.
  apply Forall_forall. intros i Hi.
  apply list_elem_of_In, filter_In in Hi as [Hi _].
  apply in_seq in Hi. lia.
Qed.

(** ** Reading a ragged field *)

Section RaggedRead.

Context {V W : Type}.

Lemma layout_last (kjt : KJT V W) N :
  layout_ok N kjt ->
  arange_last (_offsets kjt) = Ok (length (_values kjt)).
Proof.
  intros (_ & _ & Ho & Hs & _). unfold arange_last, cumsum. rewrite Ho.
  rewrite last_cumsum_from, Hs, Z.add_0_l.
  destruct (Z.ltb_spec (Z.of_nat (length (_values kjt))) 0); [lia|].
  rewrite Nat2Z.id. reflexivity.
Qed.

Lemma layout_views (kjt : KJT V W) N :
  layout_ok N kjt ->
  view2 (removelast (_offsets kjt)) (length (_keys kjt)) N
  = Ok (removelast (_offsets kjt))
  /\ view2 (tail (_offsets kjt)) (length (_keys kjt)) N
     = Ok (tail (_offsets kjt))
  /\ view2 (_lengths kjt) (length (_keys kjt)) N = Ok (_lengths kjt).
Proof.
  intros (Hl & _ & Ho & _). unfold view2. rewrite Ho.
  rewrite length_removelast_cons. simpl tail. unfold cumsum.
  rewrite length_cumsum_from, Hl, Nat.eqb_refl. auto.
Qed.

(** A read of a well-formed field that does not hold exactly one value
    succeeds, with the lengths of the selected columns and the values and
    weights at the selected positions. *)
Lemma index_read (kjt : KJT V W) (N : nat) index cols :
  layout_ok N kjt ->
  _keys kjt <> [] ->
  length (_values kjt) <> 1%nat ->
  resolve_columns N index = Ok cols ->
  exists values weights,
    gather (_values kjt) (read_positions kjt N cols) = Ok values
    /\ gather (_weights kjt) (read_positions kjt N cols) = Ok weights
    /\ index_keyedjaggedtensor true kjt (RIdx index)
       = Ok (KeyedJaggedTensor values (_keys kjt) weights
               (select_columns (length (_keys kjt)) N cols (_lengths kjt))).
Proof.
  intros Hok Hk Hv Hc.
  destruct (layout_views kjt N Hok) as (Hv1 & Hv2 & Hv3).
  pose proof (layout_last kjt N Hok) as HT.
  destruct Hok as (Hl & _ & _ & _ & Hw).
  destruct (gather_in_range (_values kjt) (read_positions kjt N cols))
    as [values Hval]; [apply filter_seq_range|].
  destruct (gather_in_range (_weights kjt) (read_positions kjt N cols))
    as [weights Hwei]; [rewrite <- Hw; apply filter_seq_range|].
  exists values, weights. split; [assumption|]. split; [assumption|].
  unfold index_keyedjaggedtensor. simpl negb. cbv iota.
  rewrite Hl, floordiv_mul by (destruct (_keys kjt); [contradiction|discriminate]).
  cbn [bind]. rewrite Hv1. cbn [bind]. rewrite Hc. cbn [bind].
  rewrite Hv2. cbn [bind]. rewrite Hv3. cbn [bind]. rewrite HT. cbn [bind].
  unfold squeeze_select.
  destruct (Nat.eqb_spec (length (_values kjt)) 1); [contradiction|].
  cbn [bind]. fold (read_positions kjt N cols).
  rewrite Hval. cbn [bind]. rewrite Hwei. reflexivity.
Qed.

(** An integer batch index is rejected, with the message that points to
    the one-element array. *)
Lemma index_int_rejected (kjt : KJT V W) (i : Z) :
  index_keyedjaggedtensor true kjt (RInt i)
  = Raise (ValueError int_index_message).
Proof. reflexivity. Qed.

Lemma index_int_error (has : bool) (kjt : KJT V W) (i : Z) :
  is_ok (index_keyedjaggedtensor has kjt (RInt i)) = false.
Proof. destruct has; reflexivity. Qed.

(** A one-element list in range, on a well-formed field that does not hold
    exactly one value, gives a field of batch size one. *)
Lemma index_single (kjt : KJT V W) (N : nat) (i : Z) :
  layout_ok N kjt ->
  _keys kjt <> [] ->
  length (_values kjt) <> 1%nat ->
  - Z.of_nat N <= i < Z.of_nat N ->
  exists r,
    index_keyedjaggedtensor true kjt (RIdx (BList [i])) = Ok r
    /\ _shape r = Ok [1].
Proof.
  intros Hok Hk Hv Hi.
  destruct (index_read kjt N (BList [i])
              [Z.to_nat (if i <? 0 then i + Z.of_nat N else i)] Hok Hk Hv)
    as (values & weights & _ & _ & Hr).
  { simpl. destruct (Z.leb_spec (- Z.of_nat N) i); [|lia].
    destruct (Z.ltb_spec i (Z.of_nat N)); [|lia]. reflexivity. }
  eexists. split; [exact Hr|].
  unfold _shape. cbn [_lengths _keys KeyedJaggedTensor].
  rewrite length_select_columns.
  rewrite floordiv_mul by (destruct (_keys kjt); [contradiction|discriminate]).
  reflexivity.
Qed.

End RaggedRead.

(** C7.  On a well-formed field with one key, batch size one and exactly
    one value, the read with the in-range one-element list [[0]] raises
    instead of returning a field of batch size one:
    [full_index.squeeze()] has no dimension left. *)
Theorem index_single_value_raises :
  layout_ok 1 single_value_field
  /\ index_keyedjaggedtensor true single_value_field (RIdx (BList [0]))
     = Raise IndexError.
Proof.
  split; [|reflexivity].
  unfold layout_ok. simpl. repeat split; try reflexivity.
  repeat constructor. lia.
Qed.

(** ** Writing through positions *)

Lemma put_all_cons {A : Type} (t : list A) i pos v vals :
  put_all t (i :: pos) (v :: vals) = put_all (<[i:=v]> t) pos vals.
Proof. reflexivity. Qed.

Lemma length_put_all {A : Type} pos : forall (t vals : list A),
  length (put_all t pos vals) = length t.
Proof.
  induction pos as [|i pos IH]; intros t vals; [reflexivity|].
  destruct vals as [|v vals]; [reflexivity|].
  rewrite put_all_cons, IH. apply length_insert.
Qed.

(** Writing back what is there changes nothing. *)
Lemma put_all_self pos : forall (t : list Z),
  put_all t pos (map (fun j => nth j t 0) pos) = t.
Proof.
  induction pos as [|i pos IH]; intros t; [reflexivity|].
  simpl map. rewrite put_all_cons.
  replace (<[i:=nth i t 0]> t) with t; [apply IH|].
  symmetry. apply list_insert_id'. intros Hi.
  destruct (nth_lookup_or_length t i 0) as [Hx|Hge]; [exact Hx|lia].
Qed.

Lemma assign_columns_self K N cols (t : list Z) :
  assign_columns K N cols (length cols) (select_columns K N cols t) t = Ok t.
Proof.
  unfold assign_columns, expand_rows. rewrite Nat.eqb_refl. cbn [bind].
  unfold select_columns. rewrite put_all_self. reflexivity.
Qed.

(** Writing values of [target] at their own positions makes the buffer
    agree with [target] there, and keeps the agreement elsewhere. *)
Lemma put_all_agree {A : Type} (target : list A) pos vals :
  Forall2 (fun i x => target !! i = Some x) pos vals ->
  forall buf p,
    length buf = length target ->
    In p pos \/ buf !! p = target !! p ->
    put_all buf pos vals !! p = target !! p.
Proof.
  induction 1 as [|i x pos vals Hi _ IH]; intros buf p Hlen Hp.
  - destruct Hp as [[]|Hp]. exact Hp.
  - rewrite put_all_cons. apply IH; [rewrite length_insert; assumption|].
    destruct Hp as [[<-|Hp]|Hp].
    + right. rewrite list_lookup_insert_eq; [congruence|].
      rewrite Hlen. eapply lookup_lt_Some. eassumption.
    + left. assumption.
    + destruct (Nat.eq_dec i p) as [<-|Hne].
      * right. rewrite list_lookup_insert_eq; [congruence|].
        rewrite Hlen. eapply lookup_lt_Some. eassumption.
      * right. rewrite list_lookup_insert_ne by assumption. exact Hp.
Qed.

Lemma index_put_exact {A : Type} (buf : list A) idx vals :
  length vals = length idx ->
  Forall (fun i => (i < length buf)%nat) idx ->
  index_put buf idx vals = Ok (put_all buf idx vals).
Proof.
  intros Hl Hb. unfold index_put. rewrite Hl, Nat.eqb_refl. cbn [bind].
  replace (forallb (fun i => (i <? length buf)%nat) idx) with true;
    [reflexivity|].
  symmetry. apply forallb_forall. intros i Hi. apply Nat.ltb_lt.
  rewrite Forall_forall in Hb. apply Hb, list_elem_of_In. exact Hi.
Qed.

(** The kept and the selected positions together are all positions. *)
Lemma keep_or_new lo hi T p :
  (p < T)%nat ->
  In p (List.filter (sel_none lo hi) (seq 0 T))
  \/ In p (List.filter (sel_any lo hi) (seq 0 T)).
Proof.
  intros Hp. rewrite !filter_In, sel_none_any.
  assert (In p (seq 0 T)) by (apply in_seq; lia).
  destruct (sel_any lo hi p); auto.
Qed.

Lemma keep_plus_new lo hi T :
  (length (List.filter (sel_none lo hi) (seq 0 T))
   + length (List.filter (sel_any lo hi) (seq 0 T)) = T)%nat.
Proof.
  rewrite (filter_ext (sel_none lo hi) (fun p => negb (sel_any lo hi p)))
    by (intros; apply sel_none_any).
  rewrite Nat.add_comm, filter_length. apply length_seq.
Qed.

(** Scattering the kept and the selected entries of a buffer into a fresh
    one rebuilds the buffer. *)
Lemma scatter_roundtrip {A : Type} (uninit : nat -> A) (buf : list A)
    lo hi vk vn :
  gather buf (List.filter (sel_none lo hi) (seq 0 (length buf))) = Ok vk ->
  gather buf (List.filter (sel_any lo hi) (seq 0 (length buf))) = Ok vn ->
  exists t,
    index_put (map uninit (seq 0 (length vk + length vn)))
      (List.filter (sel_none lo hi) (seq 0 (length buf))) vk = Ok t
    /\ index_put t (List.filter (sel_any lo hi) (seq 0 (length buf))) vn
       = Ok buf.
Proof.
  intros Hk Hn.
  pose proof (gather_length _ _ _ Hk) as Lk.
  pose proof (gather_length _ _ _ Hn) as Ln.
  pose proof (keep_plus_new lo hi (length buf)) as Hsum.
  assert (Hlen : length (map uninit (seq 0 (length vk + length vn)))
                 = length buf).
  { rewrite length_map, length_seq. lia. }
  eexists. split.
  { apply index_put_exact; [assumption|rewrite Hlen; apply filter_seq_range]. }
  rewrite index_put_exact;
    [|assumption|rewrite length_put_all, Hlen; apply filter_seq_range].
  f_equal. apply list_eq. intros p.
  destruct (Nat.lt_ge_cases p (length buf)) as [Hp|Hp].
  - apply gather_lookup in Hk, Hn.
    apply (put_all_agree buf); [assumption|rewrite length_put_all; assumption|].
    destruct (keep_or_new lo hi (length buf) p Hp) as [Hin|Hin];
      [right|left; assumption].
    apply (put_all_agree buf); [assumption..|]. left. assumption.
  - rewrite !lookup_ge_None_2; [reflexivity|lia|].
    rewrite !length_put_all, Hlen. lia.
Qed.

(** ** Writing a ragged field *)

Section RaggedWrite.

Context {V W : Type}.
Variable uninit_values : nat -> V.
Variable uninit_weights : nat -> W.

Lemma floordiv_some a b : b <> 0%nat -> floordiv a b = Ok (a / b)%nat.
Proof.
  intros Hb. unfold floordiv. destruct (Nat.eqb_spec b 0); [contradiction|].
  reflexivity.
Qed.

Lemma length_nonzero {A : Type} (l : list A) : l <> [] -> length l <> 0%nat.
Proof. destruct l; [contradiction|discriminate]. Qed.

Lemma setitem_build_key_mismatch (o x : KJT V W) index :
  _keys o <> [] -> _keys x <> [] -> _keys x <> _keys o ->
  setitem_build uninit_values uninit_weights o index x = Raise key_mismatch.
Proof.
  intros Ho Hx Hne. unfold setitem_build.
  rewrite !floordiv_some by (apply length_nonzero; assumption).
  cbn [bind]. rewrite bool_decide_eq_false_2 by assumption. reflexivity.
Qed.

Lemma setitem_build_keyless (o x : KJT V W) index :
  _keys o = [] \/ _keys x = [] ->
  setitem_build uninit_values uninit_weights o index x
  = Raise ZeroDivisionError.
Proof.
  intros Hk. unfold setitem_build, floordiv.
  destruct (_keys o) as [|ko o']; [reflexivity|].
  destruct Hk as [Hk| ->]; [discriminate|reflexivity].
Qed.

(** C8, as the code has it.  When both fields have at least one key and
    their key lists differ, as they do whenever their key sets differ, the
    write raises the key-mismatch error; when the target or the
    replacement has no key, whatever the other keys are, the division by
    the number of keys raises [ZeroDivisionError].  In each case the store
    is as it was. *)
Theorem setitem_key_mismatch (h : store V W) (orig_tensor other : loc)
    (index : batch_index) :
  (_keys (h orig_tensor) <> [] ->
   _keys (h other) <> [] ->
   _keys (h other) <> _keys (h orig_tensor)
   \/ ~ same_key_set (_keys (h other)) (_keys (h orig_tensor)) ->
   setitem_keyedjaggedtensor uninit_values uninit_weights
     orig_tensor index other h
   = (Raise key_mismatch, h))
  /\ (_keys (h orig_tensor) = [] \/ _keys (h other) = [] ->
      setitem_keyedjaggedtensor uninit_values uninit_weights
        orig_tensor index other h
      = (Raise ZeroDivisionError, h)).
Proof.
  split.
  - intros Ho Hx Hne. unfold setitem_keyedjaggedtensor.
    rewrite setitem_build_key_mismatch; [reflexivity|assumption..|].
    destruct Hne as [Hne|Hne]; [exact Hne|].
    intros Heq. apply Hne. rewrite Heq. intros k. reflexivity.
  - intros Hk. unfold setitem_keyedjaggedtensor.
    rewrite setitem_build_keyless by exact Hk. reflexivity.
Qed.

(** Reading columns and writing the result back at the same index rebuilds
    the field, when the field is well formed, has at least one key and one
    row, and does not hold exactly one value. *)
Lemma read_write_roundtrip (kjt : KJT V W) (N : nat) index cols :
  layout_ok N kjt ->
  _keys kjt <> [] ->
  N <> 0%nat ->
  length (_values kjt) <> 1%nat ->
  resolve_columns N index = Ok cols ->
  exists sub,
    index_keyedjaggedtensor true kjt (RIdx index) = Ok sub
    /\ setitem_build uninit_values uninit_weights kjt index sub = Ok kjt.
Proof.
  intros Hok Hk HN Hv Hc.
  destruct (index_read kjt N index cols Hok Hk Hv Hc)
    as (vn & wn & Hvn & Hwn & Hr).
  eexists. split; [exact Hr|].
  destruct (layout_views kjt N Hok) as (Hv1 & Hv2 & Hv3).
  pose proof (layout_last kjt N Hok) as HT.
  destruct Hok as (Hl & Hpos & Ho & Hs & Hw).
  pose proof (length_nonzero _ Hk) as HK.
  unfold read_positions in Hvn, Hwn.
  set (K := length (_keys kjt)) in *.
  set (lo := select_columns K N cols (removelast (_offsets kjt))) in *.
  set (hi := select_columns K N cols (tail (_offsets kjt))) in *.
  destruct (gather_in_range (_values kjt)
              (List.filter (sel_none lo hi) (seq 0 (length (_values kjt)))))
    as [vk Hvk]; [apply filter_seq_range|].
  destruct (gather_in_range (_weights kjt)
              (List.filter (sel_none lo hi) (seq 0 (length (_values kjt)))))
    as [wk Hwk]; [rewrite <- Hw; apply filter_seq_range|].
  unfold setitem_build.
  cbn [_lengths _keys _values _weights _offsets KeyedJaggedTensor].
  fold K. rewrite Hl, floordiv_mul by assumption. cbn [bind].
  rewrite length_select_columns, floordiv_mul by assumption. cbn [bind].
  rewrite bool_decide_eq_true_2 by reflexivity. cbn [negb].
  rewrite Hv3. cbn [bind].
  unfold view2 at 1. rewrite length_select_columns, Nat.eqb_refl. cbn [bind].
  rewrite Hc. cbn [bind].
  rewrite assign_columns_self. cbn [bind].
  rewrite HT. cbn [bind]. rewrite Hv1. cbn [bind]. rewrite Hv2. cbn [bind].
  fold lo hi.
  assert (Hsq : forall sel,
             squeeze_select (length (_values kjt)) sel
             = Ok (List.filter sel (seq 0 (length (_values kjt))))).
  { intros sel. unfold squeeze_select.
    destruct (Nat.eqb_spec (length (_values kjt)) 1); [contradiction|].
    reflexivity. }
  rewrite Hsq. cbn [bind]. rewrite Hvk. cbn [bind]. rewrite Hwk. cbn [bind].
  assert (Hoff : cumsum (map (fun v => v * 0) (firstn 1 (_lengths kjt))
                         ++ _lengths kjt) = _offsets kjt).
  { rewrite Ho. destruct (_lengths kjt) as [|l0 L] eqn:HL.
    - simpl in Hl. exfalso. destruct K; [contradiction|]. simpl in Hl.
      destruct N; [contradiction|discriminate].
    - unfold cumsum. simpl. rewrite Z.mul_0_r. reflexivity. }
  rewrite Hoff, HT. cbn [bind]. rewrite Hv1. cbn [bind].
  rewrite Hv2. cbn [bind]. fold lo hi. rewrite !Hsq. cbn [bind].
  destruct (scatter_roundtrip uninit_values (_values kjt) lo hi vk vn)
    as (t1 & Ht1 & Ht2); [assumption..|].
  rewrite Ht1. cbn [bind]. rewrite Ht2. cbn [bind].
  replace (length vk + length vn)%nat with (length wk + length wn)%nat
    by (apply gather_length in Hvk, Hvn, Hwk, Hwn; lia).
  rewrite Hw in Hwk, Hwn |- *.
  destruct (scatter_roundtrip uninit_weights (_weights kjt) lo hi wk wn)
    as (w1 & Hw1 & Hw2); [assumption..|].
  rewrite Hw1. cbn [bind]. rewrite Hw2. cbn [bind].
  unfold KeyedJaggedTensor. rewrite <- Ho.
  destruct kjt; reflexivity.
Qed.

End RaggedWrite.

(** ** Counting the selected positions *)

Lemma psum_0 L : psum L 0 = 0.
Proof. reflexivity. Qed.

Lemma psum_cons x L j : psum (x :: L) (S j) = x + psum L j.
Proof. reflexivity. Qed.

Lemma psum_all L : psum L (length L) = sumZ L.
Proof. unfold psum. rewrite firstn_all. reflexivity. Qed.

Lemma psum_S L : forall j,
  (j < length L)%nat -> psum L (S j) = psum L j + nth j L 0.
Proof.
  induction L as [|x L IH]; intros j Hj; simpl in Hj; [lia|].
  destruct j as [|j].
  - unfold psum. simpl. lia.
  - rewrite !psum_cons, IH by lia. simpl. lia.
Qed.

Lemma psum_mono L :
  Forall (fun v => 0 <= v) L ->
  forall j j', (j <= j')%nat -> psum L j <= psum L j'.
Proof.
  intros Hpos. induction Hpos as [|x L Hx _ IH]; intros j j' Hle.
  - unfold psum. destruct j, j'; simpl; lia.
  - destruct j as [|j], j' as [|j']; try lia.
    + rewrite psum_cons. specialize (IH 0%nat j'). rewrite psum_0 in IH.
      unfold psum at 1. simpl. lia.
    + rewrite !psum_cons. specialize (IH j j'). lia.
Qed.

Lemma psum_le_sum L j :
  Forall (fun v => 0 <= v) L -> psum L j <= sumZ L.
Proof.
  intros Hpos. destruct (Nat.le_gt_cases j (length L)) as [H|H].
  - rewrite <- psum_all. apply psum_mono; assumption.
  - unfold psum. rewrite firstn_all2 by lia. lia.
Qed.

Lemma psum_nonneg L j : Forall (fun v => 0 <= v) L -> 0 <= psum L j.
Proof.
  intros Hpos. rewrite <- (psum_0 L). apply psum_mono; [assumption|lia].
Qed.

(** The two views of the offsets, entry by entry. *)
Lemma starts_nth L : forall a j,
  (j < length L)%nat ->
  nth j (removelast (a :: cumsum_from a L)) 0 = a + psum L j.
Proof.
  induction L as [|x L IH]; intros a j Hj; simpl in Hj; [lia|].
  simpl cumsum_from.
  change (removelast (a :: a + x :: cumsum_from (a + x) L))
    with (a :: removelast (a + x :: cumsum_from (a + x) L)).
  destruct j as [|j].
  - cbn [nth]. rewrite psum_0. lia.
  - cbn [nth]. rewrite IH by lia. rewrite psum_cons. lia.
Qed.

Lemma ends_nth L : forall a j,
  (j < length L)%nat ->
  nth j (cumsum_from a L) 0 = a + psum L (S j).
Proof.
  induction L as [|x L IH]; intros a j Hj; simpl in Hj; [lia|].
  destruct j as [|j].
  - simpl. unfold psum. simpl. lia.
  - cbn [nth cumsum_from]. rewrite IH by lia. rewrite !psum_cons. lia.
Qed.

Lemma filter_none {A : Type} (f : A -> bool) l :
  (forall x, In x l -> f x = false) -> List.filter f l = [].
Proof.
  induction l as [|x l IH]; intros H; [reflexivity|].
  simpl. rewrite (H x) by (left; reflexivity).
  apply IH. intros y Hy. apply H. right. assumption.
Qed.

Lemma filter_all {A : Type} (f : A -> bool) l :
  (forall x, In x l -> f x = true) -> List.filter f l = l.
Proof.
  induction l as [|x l IH]; intros H; [reflexivity|].
  simpl. rewrite (H x) by (left; reflexivity).
  f_equal. apply IH. intros y Hy. apply H. right. assumption.
Qed.

(** An interval inside [0, T) holds as many positions as it is long. *)
Lemma count_interval (s e : Z) (T : nat) :
  0 <= s <= e -> e <= Z.of_nat T ->
  length (List.filter (fun p => (s <=? Z.of_nat p) && (Z.of_nat p <? e))
                      (seq 0 T))
  = Z.to_nat (e - s).
Proof.
  intros Hs He.
  replace T with (Z.to_nat s + (Z.to_nat (e - s) + (T - Z.to_nat e)))%nat
    by lia.
  rewrite !seq_app, !List.filter_app, !length_app.
  rewrite (filter_none _ (seq 0 (Z.to_nat s))).
  2:{ intros p Hp. apply in_seq in Hp.
      destruct (Z.leb_spec s (Z.of_nat p)); [lia|reflexivity]. }
  rewrite (filter_all _ (seq (0 + Z.to_nat s) (Z.to_nat (e - s)))).
  2:{ intros p Hp. apply in_seq in Hp.
      destruct (Z.leb_spec s (Z.of_nat p)); [|lia].
      destruct (Z.ltb_spec (Z.of_nat p) e); [reflexivity|lia]. }
  rewrite filter_none.
  2:{ intros p Hp. apply in_seq in Hp.
      destruct (Z.ltb_spec (Z.of_nat p) e); [lia|].
      apply andb_false_r. }
  rewrite length_seq. simpl. lia.
Qed.

Lemma count_or_disjoint {A : Type} (f g : A -> bool) l :
  (forall x, In x l -> f x = true -> g x = false) ->
  length (List.filter (fun x => f x || g x) l)
  = (length (List.filter f l) + length (List.filter g l))%nat.
Proof.
  induction l as [|x l IH]; intros H; [reflexivity|].
  simpl. specialize (IH (fun y Hy => H y (or_intror Hy))).
  pose proof (H x (or_introl eq_refl)) as Hx.
  destruct (f x); simpl.
  - rewrite Hx by reflexivity. simpl. rewrite IH. reflexivity.
  - destruct (g x); simpl; rewrite IH; lia.
Qed.

(** Two different entries have no position in common. *)
Lemma in_entry_disjoint L j j' p :
  Forall (fun v => 0 <= v) L ->
  j <> j' -> in_entry L j p = true -> in_entry L j' p = false.
Proof.
  intros Hpos Hne. unfold in_entry. intros H.
  apply andb_prop in H as [H1 H2].
  apply Z.leb_le in H1. apply Z.ltb_lt in H2.
  destruct (Nat.lt_ge_cases j j') as [Hlt|Hge].
  - pose proof (psum_mono L Hpos (S j) j' ltac:(lia)).
    destruct (Z.leb_spec (psum L j') (Z.of_nat p)); [lia|reflexivity].
  - pose proof (psum_mono L Hpos (S j') j ltac:(lia)).
    destruct (Z.ltb_spec (Z.of_nat p) (psum L (S j'))); [lia|].
    apply andb_false_r.
Qed.

(** The positions selected through a list of distinct entries are as many
    as the lengths of these entries add up to. *)
Lemma count_entries L (T : nat) :
  Forall (fun v => 0 <= v) L ->
  sumZ L = Z.of_nat T ->
  forall J,
    NoDup J -> Forall (fun j => (j < length L)%nat) J ->
    Z.of_nat (length (List.filter (fun p => existsb (fun j => in_entry L j p) J)
                                  (seq 0 T)))
    = sumZ (map (fun j => nth j L 0) J).
Proof.
  intros Hpos HT. induction J as [|j J IH]; intros Hnd Hin.
  - simpl. rewrite filter_none by reflexivity. reflexivity.
  - apply NoDup_cons in Hnd as [Hj Hnd].
    apply Forall_cons in Hin as [Hjl Hin].
    simpl existsb. rewrite count_or_disjoint.
    + rewrite Nat2Z.inj_add, IH by assumption. simpl. f_equal.
      unfold in_entry. rewrite count_interval.
      * rewrite psum_S by assumption.
        assert (0 <= nth j L 0).
        { rewrite Forall_forall in Hpos. apply Hpos.
          apply list_elem_of_In, nth_In. assumption. }
        lia.
      * split; [apply psum_nonneg; assumption|].
        apply psum_mono; [assumption|lia].
      * rewrite <- HT. apply psum_le_sum. assumption.
    + intros p _ Hp. apply not_true_is_false. intros Hex.
      apply existsb_exists in Hex as (j' & Hj' & Hp').
      assert (j <> j') by (intros ->; apply Hj, list_elem_of_In; assumption).
      rewrite (in_entry_disjoint L j j' p) in Hp' by assumption.
      discriminate.
Qed.

(** ** Sums after a write *)

Lemma sumZ_insert L : forall j x,
  (j < length L)%nat -> sumZ (<[j:=x]> L) = sumZ L - nth j L 0 + x.
Proof.
  induction L as [|y L IH]; intros j x Hj; simpl in Hj; [lia|].
  destruct j as [|j]; simpl.
  - lia.
  - rewrite IH by lia. lia.
Qed.

Lemma nth_insert_ne (L : list Z) j j' x :
  j <> j' -> nth j' (<[j:=x]> L) 0 = nth j' L 0.
Proof.
  intros Hne. rewrite !nth_lookup, list_lookup_insert_ne by assumption.
  reflexivity.
Qed.

Lemma sumZ_put_all J : forall (L X : list Z),
  NoDup J -> Forall (fun j => (j < length L)%nat) J ->
  length X = length J ->
  sumZ (put_all L J X) = sumZ L - sumZ (map (fun j => nth j L 0) J) + sumZ X.
Proof.
  induction J as [|j J IH]; intros L X Hnd Hin Hlen.
  - destruct X; [|discriminate]. unfold put_all. simpl. lia.
  - destruct X as [|x X]; [discriminate|].
    apply NoDup_cons in Hnd as [Hj Hnd].
    apply Forall_cons in Hin as [Hjl Hin].
    rewrite put_all_cons, IH.
    + rewrite sumZ_insert by assumption.
      rewrite (map_ext_in (fun j0 => nth j0 (<[j:=x]> L) 0)
                          (fun j0 => nth j0 L 0)).
      * simpl. lia.
      * intros j' Hj'. apply nth_insert_ne. intros ->.
        apply Hj, list_elem_of_In. assumption.
    + assumption.
    + rewrite length_insert. assumption.
    + simpl in Hlen. lia.
Qed.

Lemma put_all_Forall {A : Type} (P : A -> Prop) J : forall (L X : list A),
  Forall P L -> Forall P X -> Forall P (put_all L J X).
Proof.
  induction J as [|j J IH]; intros L X HL HX; [assumption|].
  destruct X as [|x X]; [assumption|].
  apply Forall_cons in HX as [Hx HX].
  rewrite put_all_cons. apply IH; [|assumption].
  apply Forall_insert; assumption.
Qed.

(** ** Columns and flat positions *)

Lemma flat_positions_range K N cols :
  Forall (fun c => (c < N)%nat) cols ->
  Forall (fun j => (j < K * N)%nat) (flat_positions K N cols).
Proof.
  intros Hc. apply Forall_forall. intros j Hj.
  apply list_elem_of_In, in_flat_map in Hj as (k & Hk & Hj).
  apply in_map_iff in Hj as (c & <- & Hcin).
  apply in_seq in Hk. rewrite Forall_forall in Hc.
  specialize (Hc c). rewrite list_elem_of_In in Hc. specialize (Hc Hcin).
  nia.
Qed.

Lemma flat_rows_NoDup N cols ks :
  NoDup cols -> Forall (fun c => (c < N)%nat) cols -> NoDup ks ->
  NoDup (flat_map (fun k => map (fun c => (k * N + c)%nat) cols) ks).
Proof.
  intros Hnd Hc. rewrite Forall_forall in Hc.
  induction 1 as [|k ks Hk Hks IH]; [constructor|].
  simpl. apply NoDup_app. split; [|split; [|assumption]].
  - change (NoDup ((fun c => (k * N + c)%nat) <$> cols)).
    apply NoDup_fmap_2; [|assumption]. intros c c' H. lia.
  - intros j Hj Hj'.
    apply list_elem_of_In, in_map_iff in Hj as (c & <- & Hcin).
    apply list_elem_of_In, in_flat_map in Hj' as (k' & Hk' & Hj').
    apply in_map_iff in Hj' as (c' & Heq & Hcin').
    assert (c < N)%nat by (apply Hc, list_elem_of_In; assumption).
    assert (c' < N)%nat by (apply Hc, list_elem_of_In; assumption).
    assert (k = k') by nia. subst k'.
    apply Hk, list_elem_of_In. assumption.
Qed.

Lemma flat_positions_NoDup K N cols :
  NoDup cols -> Forall (fun c => (c < N)%nat) cols ->
  NoDup (flat_positions K N cols).
Proof.
  intros. apply flat_rows_NoDup; [assumption..|]. apply NoDup_seq.
Qed.

Lemma torch_slice_spec size a b c s n step :
  0 <= size ->
  torch_slice size a b c = Some (s, n, step) ->
  0 < step /\ 0 <= s
  /\ exists e, s <= e <= size /\ n = (e - s + step - 1) / step.
Proof.
  intros Hsize. unfold torch_slice.
  destruct (Z.leb_spec (default 1 c) 0); [discriminate|].
  intros [= <- <- <-]. split; [assumption|].
  split.
  - repeat match goal with
           | |- context [Z.ltb ?x ?y] => destruct (Z.ltb_spec x y)
           | |- context [Z.leb ?x ?y] => destruct (Z.leb_spec x y)
           end; lia.
  - eexists. split; [|reflexivity].
    destruct b as [b|];
      repeat match goal with
             | |- context [Z.ltb ?x ?y] => destruct (Z.ltb_spec x y)
             | |- context [Z.leb ?x ?y] => destruct (Z.leb_spec x y)
             end; lia.
Qed.

(** The columns of an index are columns of the view. *)
Lemma resolve_columns_range N index cols :
  resolve_columns N index = Ok cols ->
  Forall (fun c => (c < N)%nat) cols.
Proof.
  destruct index as [l|a b c|m]; simpl.
  - destruct (forallb _ l) eqn:Hall; [|discriminate]. intros [= <-].
    apply Forall_forall. intros j Hj.
    apply list_elem_of_In, in_map_iff in Hj as (i & <- & Hi).
    rewrite forallb_forall in Hall. specialize (Hall i Hi).
    apply andb_prop in Hall as [H1 H2].
    apply Z.leb_le in H1. apply Z.ltb_lt in H2.
    destruct (Z.ltb_spec i 0); lia.
  - destruct (torch_slice (Z.of_nat N) a b c) as [[[s n] step]|] eqn:Hs;
      [|discriminate].
    intros [= <-].
    apply torch_slice_spec in Hs as (Hstep & Hs0 & e & He & ->); [|lia].
    apply Forall_forall. intros j Hj.
    apply list_elem_of_In, in_map_iff in Hj as (i & <- & Hi).
    apply in_seq in Hi.
    pose proof (Z.mul_div_le (e - s + step - 1) step Hstep).
    assert (0 <= (e - s + step - 1) / step)
      by (apply Z.div_pos; lia).
    assert (Z.of_nat i + 1 <= (e - s + step - 1) / step) by lia.
    assert (step * (Z.of_nat i + 1) <= step * ((e - s + step - 1) / step))
      by (apply Z.mul_le_mono_nonneg_l; lia).
    nia.
  - destruct (Nat.eqb_spec (length m) N); [|discriminate]. intros [= <-].
    apply filter_seq_range.
Qed.

Lemma sel_any_map (f g : nat -> Z) J p :
  sel_any (map f J) (map g J) p
  = existsb (fun j => (f j <=? Z.of_nat p) && (Z.of_nat p <? g j)) J.
Proof.
  unfold sel_any. induction J as [|j J IH]; [reflexivity|].
  simpl. rewrite IH. reflexivity.
Qed.

Lemma existsb_ext_in {A : Type} (f g : A -> bool) l :
  (forall x, In x l -> f x = g x) -> existsb f l = existsb g l.
Proof.
  induction l as [|x l IH]; intros H; [reflexivity|].
  simpl. rewrite (H x) by (left; reflexivity).
  f_equal. apply IH. intros y Hy. apply H. right. assumption.
Qed.

(** The mask of the code selects the positions of the entries at the flat
    positions of the columns. *)
Lemma sel_any_entries L K N cols p :
  Forall (fun j => (j < length L)%nat) (flat_positions K N cols) ->
  sel_any (select_columns K N cols (removelast (0 :: cumsum L)))
          (select_columns K N cols (tail (0 :: cumsum L))) p
  = existsb (fun j => in_entry L j p) (flat_positions K N cols).
Proof.
  intros Hin. unfold select_columns. rewrite sel_any_map.
  apply existsb_ext_in. intros j Hj.
  rewrite Forall_forall in Hin. specialize (Hin j).
  rewrite list_elem_of_In in Hin. specialize (Hin Hj).
  unfold in_entry, cumsum. simpl tail.
  rewrite starts_nth, ends_nth by assumption.
  rewrite !Z.add_0_l. reflexivity.
Qed.

(** ** A successful write *)

Lemma bind_ok {A B : Type} (e : result A) (k : A -> result B) r :
  bind e k = Ok r -> exists a, e = Ok a /\ k a = Ok r.
Proof. destruct e as [a|]; [eauto|discriminate]. Qed.

Lemma floordiv_inv a b n :
  floordiv a b = Ok n -> b <> 0%nat /\ n = (a / b)%nat.
Proof.
  unfold floordiv. destruct (Nat.eqb_spec b 0); [discriminate|].
  intros [= <-]. auto.
Qed.

Lemma view2_inv {A : Type} (t t' : list A) K N :
  view2 t K N = Ok t' -> t' = t /\ (K * N)%nat = length t.
Proof.
  unfold view2. destruct (Nat.eqb_spec (K * N) (length t)); [|discriminate].
  intros [= <-]. auto.
Qed.

Lemma squeeze_select_inv T sel r :
  squeeze_select T sel = Ok r -> r = List.filter sel (seq 0 T).
Proof.
  unfold squeeze_select. destruct (T =? 1)%nat; [discriminate|].
  intros [= <-]. reflexivity.
Qed.

Lemma index_put_length {A : Type} (buf : list A) idx vals r :
  index_put buf idx vals = Ok r -> length r = length buf.
Proof.
  unfold index_put. intros H. apply bind_ok in H as (v & _ & H).
  destruct (forallb _ idx); [|discriminate].
  injection H as <-. apply length_put_all.
Qed.

Section RaggedLayout.

Context {V W : Type}.
Variable uninit_values : nat -> V.
Variable uninit_weights : nat -> W.

Ltac bind_inv H x Hx := apply bind_ok in H as (x & Hx & H).

(** What a successful write builds, for a well-formed target and a
    well-formed replacement that covers the selected, distinct rows. *)
Lemma setitem_build_layout (o x : KJT V W) index (N : nat) cols r :
  layout_ok N o ->
  layout_ok (length cols) x ->
  resolve_columns N index = Ok cols ->
  NoDup cols ->
  setitem_build uninit_values uninit_weights o index x = Ok r ->
  _keys r = _keys o /\ layout_ok N r.
Proof.
  intros Ho Hx Hc Hnd Hb.
  pose proof (layout_last o N Ho) as HT.
  pose proof (resolve_columns_range N index cols Hc) as Hrange.
  destruct Ho as (Hl & Hpos & Hoff & Hsum & Hw).
  destruct Hx as (Hlx & Hposx & _ & Hsumx & _).
  unfold setitem_build in Hb.
  bind_inv Hb n Hn. apply floordiv_inv in Hn as [HK ->].
  bind_inv Hb m Hm. apply floordiv_inv in Hm as [HKx ->].
  destruct (bool_decide_reflect (_keys x = _keys o)) as [Hkeys|];
    [|discriminate].
  cbn [negb] in Hb. rewrite Hkeys in Hlx, Hb.
  set (K := length (_keys o)) in *.
  rewrite Hl, Hlx in Hb.
  rewrite (Nat.mul_comm K N), (Nat.mul_comm K (length cols)) in Hb.
  rewrite !Nat.div_mul in Hb by assumption.
  bind_inv Hb lv Hlv. apply view2_inv in Hlv as [-> _].
  bind_inv Hb xl Hxl. apply view2_inv in Hxl as [-> _].
  rewrite Hc in Hb. cbn [bind] in Hb.
  unfold assign_columns, expand_rows in Hb.
  rewrite Nat.eqb_refl in Hb. cbn [bind] in Hb.
  set (J := flat_positions K N cols) in *.
  set (Lout := put_all (_lengths o) J (_lengths x)) in *.
  rewrite HT in Hb. cbn [bind] in Hb.
  bind_inv Hb o1 Ho1. apply view2_inv in Ho1 as [-> _].
  bind_inv Hb o2 Ho2. apply view2_inv in Ho2 as [-> _].
  bind_inv Hb keep Hkeep. apply squeeze_select_inv in Hkeep.
  bind_inv Hb vk Hvk. apply gather_length in Hvk.
  bind_inv Hb wk Hwk.
  bind_inv Hb T' HT'. bind_inv Hb o1' Ho1'. bind_inv Hb o2' Ho2'.
  bind_inv Hb new Hnew. bind_inv Hb keep' Hkeep'.
  bind_inv Hb t1 Ht1. apply index_put_length in Ht1.
  bind_inv Hb t2 Ht2. apply index_put_length in Ht2.
  bind_inv Hb w1 Hw1. apply index_put_length in Hw1.
  bind_inv Hb w2 Hw2. apply index_put_length in Hw2.
  injection Hb as <-.
  split; [reflexivity|].
  unfold layout_ok. cbn [_lengths _keys _values _weights _offsets
                          KeyedJaggedTensor].
  assert (HJr : Forall (fun j => (j < length (_lengths o))%nat) J).
  { rewrite Hl. apply flat_positions_range. assumption. }
  assert (HJn : NoDup J) by (apply flat_positions_NoDup; assumption).
  split; [unfold Lout; rewrite length_put_all; exact Hl|].
  split; [apply put_all_Forall; assumption|].
  split; [reflexivity|].
  split.
  - unfold Lout. rewrite sumZ_put_all;
      [|assumption..|unfold J; rewrite length_flat_positions; exact Hlx].
    rewrite Ht2, Ht1, length_map, length_seq, Hvk, Hkeep.
    pose proof (keep_plus_new
                  (select_columns K N cols (removelast (_offsets o)))
                  (select_columns K N cols (tail (_offsets o)))
                  (length (_values o))) as Hpart.
    rewrite Hoff in Hpart |- *.
    rewrite (filter_ext _ _
               (fun p => sel_any_entries (_lengths o) K N cols p HJr))
      in Hpart.
    pose proof (count_entries (_lengths o) (length (_values o)) Hpos Hsum
                  J HJn HJr) as Hcount.
    fold J in Hpart. lia.
  - rewrite Ht2, Ht1, Hw2, Hw1, !length_map, !length_seq. reflexivity.
Qed.

Lemma store_set_same (h : store V W) l v : store_set h l v l = v.
Proof. unfold store_set. rewrite Nat.eqb_refl. reflexivity. Qed.

Lemma store_set_other (h : store V W) l l' v :
  l' <> l -> store_set h l v l' = h l'.
Proof.
  intros Hne. unfold store_set.
  destruct (Nat.eqb_spec l' l); [contradiction|reflexivity].
Qed.

(** C5, as the code has it.  A successful write, on a target and a
    replacement that satisfy the layout and with the replacement covering
    the selected, distinct rows, returns the reference it was given,
    leaves every other object alone, keeps the keys and re-establishes the
    layout on the target: [K * N] lengths, the offsets their cumulative
    sums after a leading zero, and as many values and weights as the
    lengths add up to. *)
Theorem setitem_in_place (h h' : store V W) (orig_tensor other r : loc)
    (index : batch_index) (N : nat) (cols : list nat) :
  layout_ok N (h orig_tensor) ->
  layout_ok (length cols) (h other) ->
  resolve_columns N index = Ok cols ->
  NoDup cols ->
  setitem_keyedjaggedtensor uninit_values uninit_weights
    orig_tensor index other h = (Ok r, h') ->
  r = orig_tensor
  /\ (forall l, l <> orig_tensor -> h' l = h l)
  /\ _keys (h' orig_tensor) = _keys (h orig_tensor)
  /\ layout_ok N (h' orig_tensor).
Proof.
  intros Ho Hx Hc Hnd. unfold setitem_keyedjaggedtensor.
  destruct (setitem_build uninit_values uninit_weights
              (h orig_tensor) index (h other)) as [kjt|e] eqn:Hb;
    [|discriminate].
  intros [= <- <-]. split; [reflexivity|].
  split; [intros l Hl; apply store_set_other; assumption|].
  rewrite store_set_same.
  eapply setitem_build_layout; eassumption.
Qed.

End RaggedLayout.

(** ** Concrete fields *)

Lemma target_field_ok : layout_ok 2 target_field.
Proof.
  unfold layout_ok. simpl. repeat split; try reflexivity.
  repeat constructor; lia.
Qed.

Lemma replacement_field_ok : layout_ok 1 replacement_field.
Proof.
  unfold layout_ok. simpl. repeat split; try reflexivity.
  repeat constructor; lia.
Qed.

Lemma setitem_in_place_witness :
  layout_ok 2 (fields target_field replacement_field 0%nat)
  /\ layout_ok (length [0%nat]) (fields target_field replacement_field 1%nat)
  /\ resolve_columns 2 (BList [0]) = Ok [0%nat]
  /\ NoDup [0%nat]
  /\ setitem_keyedjaggedtensor zeros zeros 0%nat (BList [0]) 1%nat
       (fields target_field replacement_field)
     = (Ok 0%nat,
        store_set (fields target_field replacement_field) 0%nat written_field)
  /\ _keys (store_set (fields target_field replacement_field) 0%nat
                      written_field 0%nat)
     = _keys (fields target_field replacement_field 0%nat)
  /\ layout_ok 2 (store_set (fields target_field replacement_field) 0%nat
                            written_field 0%nat).
Proof.
  assert (H1 : layout_ok 2 (fields target_field replacement_field 0%nat)).
  { unfold layout_ok. simpl. repeat split; try reflexivity.
    repeat constructor; lia. }
  assert (H2 : layout_ok (length [0%nat])
                 (fields target_field replacement_field 1%nat)).
  { unfold layout_ok. simpl. repeat split; try reflexivity.
    repeat constructor; lia. }
  assert (H3 : resolve_columns 2 (BList [0]) = Ok [0%nat]) by reflexivity.
  assert (H4 : NoDup [0%nat]) by apply NoDup_singleton.
  assert (H5 : setitem_keyedjaggedtensor zeros zeros 0%nat (BList [0]) 1%nat
                 (fields target_field replacement_field)
               = (Ok 0%nat,
                  store_set (fields target_field replacement_field) 0%nat
                            written_field)) by reflexivity.
  split; [exact H1|]. split; [exact H2|]. split; [exact H3|].
  split; [exact H4|]. split; [exact H5|].
  apply (setitem_in_place zeros zeros
           (fields target_field replacement_field) _ 0%nat 1%nat 0%nat
           (BList [0]) 2 [0%nat] H1 H2 H3 H4 H5).
Defined.

(** C5, as stated, fails on the form of the layout.  The target below
    satisfies the layout of the code and, in both views of its offsets,
    the layout by columns of the specification; after a successful write
    of row 0 the layout by columns holds in neither view. *)
Lemma setitem_columnwise_counterexample :
  layout_ok 2 target_field
  /\ layout_ok 1 replacement_field
  /\ columnwise_starts 1 2 (_lengths target_field) (_offsets target_field)
  /\ columnwise_ends 1 2 (_lengths target_field) (_offsets target_field)
  /\ setitem_keyedjaggedtensor zeros zeros 0%nat (BList [0]) 1%nat
       (fields target_field replacement_field)
     = (Ok 0%nat,
        store_set (fields target_field replacement_field) 0%nat written_field)
  /\ ~ columnwise_starts 1 2 (_lengths written_field)
                              (_offsets written_field)
  /\ ~ columnwise_ends 1 2 (_lengths written_field)
                            (_offsets written_field).
Proof.
  split; [apply target_field_ok|]. split; [apply replacement_field_ok|].
  split; [intros [|[|i]] Hi; [reflexivity..|lia]|].
  split; [intros [|[|i]] Hi; [reflexivity..|lia]|].
  split; [reflexivity|].
  split; intros H; specialize (H 1%nat ltac:(lia)); discriminate.
Qed.

Lemma setitem_key_mismatch_witness :
  _keys (fields target_field other_key_field 0%nat) <> []
  /\ _keys (fields target_field other_key_field 1%nat) <> []
  /\ ~ same_key_set (_keys (fields target_field other_key_field 1%nat))
                     (_keys (fields target_field other_key_field 0%nat))
  /\ setitem_keyedjaggedtensor zeros zeros 0%nat (BList [0]) 1%nat
       (fields target_field other_key_field)
     = (Raise key_mismatch, fields target_field other_key_field)
  /\ setitem_keyedjaggedtensor zeros zeros 0%nat (BList [0]) 1%nat
       (fields keyless_field target_field)
     = (Raise ZeroDivisionError, fields keyless_field target_field).
Proof.
  assert (H1 : _keys (fields target_field other_key_field 0%nat) <> [])
    by discriminate.
  assert (H2 : _keys (fields target_field other_key_field 1%nat) <> [])
    by discriminate.
  assert (H3 : ~ same_key_set
                 (_keys (fields target_field other_key_field 1%nat))
                 (_keys (fields target_field other_key_field 0%nat))).
  { intros H. destruct (H "b"%string) as [Hb _].
    destruct (Hb (or_introl eq_refl)) as [E|[]]. discriminate E. }
  split; [exact H1|]. split; [exact H2|]. split; [exact H3|].
  split.
  - exact (proj1 (setitem_key_mismatch zeros zeros
                    (fields target_field other_key_field) 0%nat 1%nat
                    (BList [0])) H1 H2 (or_intror H3)).
  - exact (proj2 (setitem_key_mismatch zeros zeros
                    (fields keyless_field target_field) 0%nat 1%nat
                    (BList [0])) (or_introl eq_refl)).
Defined.

(** C8, as stated, fails for a replacement without keys: the batch size
    is computed before the keys are compared, and the division by the
    number of keys raises.  The store is as it was. *)
Lemma setitem_key_mismatch_counterexample :
  ~ same_key_set (_keys (fields target_field keyless_field 1%nat))
                 (_keys (fields target_field keyless_field 0%nat))
  /\ setitem_keyedjaggedtensor zeros zeros 0%nat (BList [0]) 1%nat
       (fields target_field keyless_field)
     = (Raise ZeroDivisionError, fields target_field keyless_field).
Proof.
  split; [|reflexivity].
  intros H. destruct (H "a"%string) as [_ Ha].
  destruct (Ha (or_introl eq_refl)).
Qed.

(** ** The round trip on keys a and b, batch size 4, rows 1 and 3 *)

(** C4.  On a well-formed field with keys a and b and batch size 4 that
    holds exactly one value, the read of rows 1 and 3 raises: the round
    trip does not reach the write. *)
Theorem roundtrip_one_value_raises :
  layout_ok 4 one_value_field
  /\ _keys one_value_field = ["a"; "b"]
  /\ index_keyedjaggedtensor true one_value_field (RIdx (BList [1; 3]))
     = Raise IndexError.
Proof.
  split; [|split; reflexivity].
  unfold layout_ok. simpl. repeat split; try reflexivity.
  repeat constructor; lia.
Qed.

(** On every other well-formed field with keys a and b and batch size 4,
    reading rows 1 and 3 and writing the result back at the same rows
    leaves the target with the lengths, offsets, values and weights it
    had. *)
Lemma roundtrip_rows_1_3 {V W : Type} (uv : nat -> V) (uw : nat -> W)
    (h : store V W) (orig_tensor fresh : loc) :
  _keys (h orig_tensor) = ["a"; "b"] ->
  layout_ok 4 (h orig_tensor) ->
  length (_values (h orig_tensor)) <> 1%nat ->
  fresh <> orig_tensor ->
  exists sub,
    index_keyedjaggedtensor true (h orig_tensor) (RIdx (BList [1; 3]))
    = Ok sub
    /\ exists h',
         setitem_keyedjaggedtensor uv uw orig_tensor (BList [1; 3]) fresh
           (store_set h fresh sub) = (Ok orig_tensor, h')
         /\ h' orig_tensor = h orig_tensor.
Proof.
  intros Hkeys Hok Hv Hfresh.
  destruct (read_write_roundtrip uv uw (h orig_tensor) 4 (BList [1; 3])
              [1%nat; 3%nat]) as (sub & Hr & Hw);
    [assumption|rewrite Hkeys; discriminate|lia|assumption|reflexivity|].
  exists sub. split; [exact Hr|].
  unfold setitem_keyedjaggedtensor.
  rewrite store_set_same, store_set_other by (intros E; apply Hfresh; auto).
  rewrite Hw. eexists. split; [reflexivity|]. apply store_set_same.
Qed.

(** * Further properties *)

(** ** Reading a ragged field: what every successful read returns *)

Ltac inv_bind H x Hx := apply bind_ok in H as (x & Hx & H).

Lemma nth_nonneg (L : list Z) j :
  Forall (fun v => 0 <= v) L -> 0 <= nth j L 0.
Proof.
  intros Hpos. destruct (nth_in_or_default j L 0) as [Hin| ->]; [|lia].
  rewrite Forall_forall in Hpos. apply Hpos, list_elem_of_In. exact Hin.
Qed.

(** A successful read keeps the keys, has as many rows as the index
    selects columns, and carries the offsets of its own lengths. *)
Theorem index_batch_size {V W : Type} (has : bool) (kjt r : KJT V W)
    (index : batch_index) :
  index_keyedjaggedtensor has kjt (RIdx index) = Ok r ->
  exists cols,
    resolve_columns (length (_lengths kjt) / length (_keys kjt)) index
    = Ok cols
    /\ _keys r = _keys kjt
    /\ _shape r = Ok [Z.of_nat (length cols)]
    /\ _offsets r = 0 :: cumsum (_lengths r).
Proof.
  unfold index_keyedjaggedtensor. destruct has; [|discriminate].
  cbn [negb]. intros H.
  inv_bind H n Hn. apply floordiv_inv in Hn as [HK ->].
  inv_bind H o1 Ho1. inv_bind H cols Hc. inv_bind H o2 Ho2.
  inv_bind H lv Hlv. inv_bind H T HT. inv_bind H full Hfull.
  inv_bind H values Hval. inv_bind H weights Hwei.
  injection H as <-. exists cols. split; [exact Hc|].
  split; [reflexivity|]. split; [|reflexivity].
  unfold _shape. cbn [_lengths _keys KeyedJaggedTensor].
  rewrite length_select_columns, floordiv_mul by assumption. reflexivity.
Qed.

Lemma index_batch_size_witness :
  index_keyedjaggedtensor true target_field (RIdx (BList [1]))
  = Ok (KeyedJaggedTensor [1; 2; 3; 4; 5] ["a"] [10; 20; 30; 40; 50] [5])
  /\ exists cols,
       resolve_columns (length (_lengths target_field)
                        / length (_keys target_field)) (BList [1])
       = Ok cols
       /\ _keys (KeyedJaggedTensor [1; 2; 3; 4; 5] ["a"]
                   [10; 20; 30; 40; 50] [5]) = _keys target_field
       /\ _shape (KeyedJaggedTensor [1; 2; 3; 4; 5] ["a"]
                    [10; 20; 30; 40; 50] [5])
          = Ok [Z.of_nat (length cols)]
       /\ _offsets (KeyedJaggedTensor [1; 2; 3; 4; 5] ["a"]
                      [10; 20; 30; 40; 50] [5])
          = 0 :: cumsum (_lengths (KeyedJaggedTensor [1; 2; 3; 4; 5] ["a"]
                                     [10; 20; 30; 40; 50] [5])).
Proof.
  assert (H : index_keyedjaggedtensor true target_field (RIdx (BList [1]))
              = Ok (KeyedJaggedTensor [1; 2; 3; 4; 5] ["a"]
                      [10; 20; 30; 40; 50] [5])) by reflexivity.
  split; [exact H|].
  exact (index_batch_size true target_field _ (BList [1]) H).
Defined.

(** Reading distinct rows of a well-formed field gives a well-formed
    field: the lengths of the selected rows add up to the values and
    weights that were gathered. *)
Theorem index_layout {V W : Type} (kjt r : KJT V W) (N : nat)
    (index : batch_index) (cols : list nat) :
  layout_ok N kjt ->
  resolve_columns N index = Ok cols ->
  NoDup cols ->
  index_keyedjaggedtensor true kjt (RIdx index) = Ok r ->
  layout_ok (length cols) r.
Proof.
  intros Hok Hc Hnd H.
  pose proof (resolve_columns_range N index cols Hc) as Hrange.
  pose proof (layout_last kjt N Hok) as HT0.
  destruct Hok as (Hl & Hpos & Hoff & Hsum & Hw).
  unfold index_keyedjaggedtensor in H. cbn [negb] in H.
  inv_bind H n Hn. apply floordiv_inv in Hn as [HK ->].
  rewrite Hl, (Nat.mul_comm _ N), Nat.div_mul in H by assumption.
  inv_bind H o1 Ho1. apply view2_inv in Ho1 as [-> _].
  rewrite Hc in H. cbn [bind] in H.
  inv_bind H o2 Ho2. apply view2_inv in Ho2 as [-> _].
  inv_bind H lv Hlv. apply view2_inv in Hlv as [-> _].
  rewrite HT0 in H. cbn [bind] in H.
  inv_bind H full Hfull. apply squeeze_select_inv in Hfull.
  inv_bind H values Hval. apply gather_length in Hval.
  inv_bind H weights Hwei. apply gather_length in Hwei.
  injection H as <-.
  set (K := length (_keys kjt)) in *.
  set (J := flat_positions K N cols).
  assert (HJr : Forall (fun j => (j < length (_lengths kjt))%nat) J).
  { rewrite Hl. apply flat_positions_range. assumption. }
  assert (HJn : NoDup J) by (apply flat_positions_NoDup; assumption).
  unfold layout_ok.
  cbn [_lengths _keys _values _weights _offsets KeyedJaggedTensor].
  split; [apply length_select_columns|].
  split.
  { unfold select_columns. apply Forall_forall. intros v Hv.
    apply list_elem_of_In, in_map_iff in Hv as (j & <- & _).
    apply nth_nonneg. assumption. }
  split; [reflexivity|].
  split; [|congruence].
  rewrite Hval, Hfull, Hoff.
  rewrite (filter_ext _ _
             (fun p => sel_any_entries (_lengths kjt) K N cols p HJr)).
  fold J.
  rewrite (count_entries (_lengths kjt) (length (_values kjt)) Hpos Hsum
             J HJn HJr).
  reflexivity.
Qed.

Lemma index_layout_witness :
  layout_ok 2 target_field
  /\ resolve_columns 2 (BList [1]) = Ok [1%nat]
  /\ NoDup [1%nat]
  /\ layout_ok (length [1%nat])
       (KeyedJaggedTensor [1; 2; 3; 4; 5] ["a"] [10; 20; 30; 40; 50] [5]).
Proof.
  assert (H1 : layout_ok 2 target_field).
  { unfold layout_ok. simpl. repeat split; try reflexivity.
    repeat constructor; lia. }
  assert (H2 : NoDup [1%nat]) by apply NoDup_singleton.
  split; [exact H1|]. split; [reflexivity|]. split; [exact H2|].
  exact (index_layout target_field _ 2 (BList [1]) [1%nat] H1 eq_refl H2
           eq_refl).
Defined.

(** ** The order of the rows in a read *)

Lemma existsb_Permutation {A : Type} (f : A -> bool) l l' :
  Permutation l l' -> existsb f l = existsb f l'.
Proof.
  induction 1 as [|x l l' _ IH|x y l|l l' l'' _ IH1 _ IH2]; simpl.
  - reflexivity.
  - rewrite IH. reflexivity.
  - destruct (f x), (f y); reflexivity.
  - congruence.
Qed.

Lemma forallb_Permutation {A : Type} (f : A -> bool) l l' :
  Permutation l l' -> forallb f l = forallb f l'.
Proof.
  induction 1 as [|x l l' _ IH|x y l|l l' l'' _ IH1 _ IH2]; simpl.
  - reflexivity.
  - rewrite IH. reflexivity.
  - destruct (f x), (f y); reflexivity.
  - congruence.
Qed.

Lemma flat_positions_Permutation K N cols cols' :
  Permutation cols cols' ->
  Permutation (flat_positions K N cols) (flat_positions K N cols').
Proof.
  intros Hp. unfold flat_positions.
  induction (seq 0 K) as [|k ks IH]; simpl; [constructor|].
  apply Permutation_app; [|exact IH]. apply Permutation_map. exact Hp.
Qed.

Lemma sel_any_Permutation K N cols cols' (lo hi : list Z) p :
  Permutation cols cols' ->
  sel_any (select_columns K N cols lo) (select_columns K N cols hi) p
  = sel_any (select_columns K N cols' lo) (select_columns K N cols' hi) p.
Proof.
  intros Hp. unfold select_columns. rewrite !sel_any_map.
  apply existsb_Permutation, flat_positions_Permutation. exact Hp.
Qed.

(** The values and weights that a read gathers do not depend on the order
    in which the index lists the rows: listing the same rows in another
    order permutes the lengths of the result and leaves its values and
    weights where they were. *)
Theorem index_order_of_rows {V W : Type} (kjt r : KJT V W) (l l' : list Z) :
  Permutation l l' ->
  index_keyedjaggedtensor true kjt (RIdx (BList l)) = Ok r ->
  exists r',
    index_keyedjaggedtensor true kjt (RIdx (BList l')) = Ok r'
    /\ _values r' = _values r
    /\ _weights r' = _weights r
    /\ Permutation (_lengths r') (_lengths r).
Proof.
  intros Hp H. unfold index_keyedjaggedtensor in H |- *. cbn [negb] in H |- *.
  inv_bind H n Hn. rewrite Hn. cbn [bind].
  inv_bind H o1 Ho1. rewrite Ho1. cbn [bind].
  apply view2_inv in Ho1 as [-> _].
  inv_bind H cols Hc.
  unfold resolve_columns in Hc |- *.
  rewrite <- (forallb_Permutation _ l l' Hp).
  destruct (forallb _ l); [|discriminate]. injection Hc as <-. cbn [bind].
  set (norm := fun i => Z.to_nat (if i <? 0 then i + Z.of_nat n else i)) in *.
  assert (Hcols : Permutation (map norm l) (map norm l'))
    by (apply Permutation_map; exact Hp).
  inv_bind H o2 Ho2. rewrite Ho2. cbn [bind].
  apply view2_inv in Ho2 as [-> _].
  inv_bind H lv Hlv. rewrite Hlv. cbn [bind].
  inv_bind H T HT. rewrite HT. cbn [bind].
  inv_bind H full Hfull.
  assert (Hfull' : squeeze_select T
                     (sel_any (select_columns (length (_keys kjt)) n
                                 (map norm l') (removelast (_offsets kjt)))
                              (select_columns (length (_keys kjt)) n
                                 (map norm l') (tail (_offsets kjt))))
                   = Ok full).
  { rewrite <- Hfull. unfold squeeze_select.
    destruct (T =? 1)%nat; [reflexivity|]. f_equal.
    apply filter_ext. intros p. symmetry.
    apply sel_any_Permutation. exact Hcols. }
  rewrite Hfull'. cbn [bind].
  inv_bind H values Hval. rewrite Hval. cbn [bind].
  inv_bind H weights Hwei. rewrite Hwei. cbn [bind].
  injection H as <-. eexists. split; [reflexivity|].
  split; [reflexivity|]. split; [reflexivity|].
  cbn [_lengths KeyedJaggedTensor]. unfold select_columns.
  apply Permutation_map, flat_positions_Permutation.
  symmetry. exact Hcols.
Qed.

Lemma index_order_of_rows_witness :
  Permutation [0; 1] [1; 0]
  /\ index_keyedjaggedtensor true target_field (RIdx (BList [0; 1]))
     = Ok (KeyedJaggedTensor [1; 2; 3; 4; 5] ["a"] [10; 20; 30; 40; 50]
             [0; 5])
  /\ exists r',
       index_keyedjaggedtensor true target_field (RIdx (BList [1; 0]))
       = Ok r'
       /\ _values r' = [1; 2; 3; 4; 5]
       /\ _weights r' = [10; 20; 30; 40; 50]
       /\ Permutation (_lengths r') [0; 5].
Proof.
  assert (Hp : Permutation [0; 1] [1; 0]) by apply perm_swap.
  split; [exact Hp|]. split; [reflexivity|].
  exact (index_order_of_rows target_field _ [0; 1] [1; 0] Hp eq_refl).
Defined.

(** ** What every successful write keeps *)

Lemma setitem_build_shape {V W : Type} (uv : nat -> V) (uw : nat -> W)
    (o x r : KJT V W) (index : batch_index) :
  setitem_build uv uw o index x = Ok r ->
  _keys r = _keys o
  /\ length (_lengths r) = length (_lengths o)
  /\ _offsets r = 0 :: cumsum (_lengths r).
Proof.
  unfold setitem_build. intros H.
  inv_bind H n Hn. inv_bind H m Hm.
  destruct (negb (bool_decide (_keys x = _keys o))); [discriminate|].
  inv_bind H lv Hlv. apply view2_inv in Hlv as [-> _].
  inv_bind H xl Hxl. inv_bind H cols Hc.
  inv_bind H Lout HLout.
  unfold assign_columns in HLout. inv_bind HLout x' Hx'.
  injection HLout as <-.
  inv_bind H T HT. inv_bind H o1 Ho1. inv_bind H o2 Ho2.
  inv_bind H keep Hkeep. inv_bind H vk Hvk. inv_bind H wk Hwk.
  inv_bind H T' HT'. inv_bind H o1' Ho1'. inv_bind H o2' Ho2'.
  inv_bind H new Hnew. inv_bind H keep' Hkeep'.
  inv_bind H t1 Ht1. inv_bind H t2 Ht2.
  inv_bind H w1 Hw1. inv_bind H w2 Hw2.
  injection H as <-. cbn [_keys _lengths _offsets KeyedJaggedTensor].
  rewrite length_put_all. auto.
Qed.

(** Whatever the target, the replacement and the index are, a successful
    write returns the target's reference and leaves the target with the
    keys and the batch size it had; a failed write leaves the store as it
    was. *)
Theorem setitem_keeps_batch_size {V W : Type} (uv : nat -> V) (uw : nat -> W)
    (h h' : store V W) (orig_tensor other : loc) (index : batch_index)
    (res : result loc) :
  setitem_keyedjaggedtensor uv uw orig_tensor index other h = (res, h') ->
  match res with
  | Ok r =>
    r = orig_tensor
    /\ _keys (h' orig_tensor) = _keys (h orig_tensor)
    /\ _shape (h' orig_tensor) = _shape (h orig_tensor)
  | Raise _ => h' = h
  end.
Proof.
  unfold setitem_keyedjaggedtensor.
  destruct (setitem_build uv uw (h orig_tensor) index (h other))
    as [kjt|e] eqn:Hb; intros [= <- <-]; [|reflexivity].
  apply setitem_build_shape in Hb as (Hk & Hl & _).
  rewrite store_set_same. unfold _shape. rewrite Hk, Hl. auto.
Qed.

Lemma setitem_keeps_batch_size_witness :
  setitem_keyedjaggedtensor zeros zeros 0%nat (BList [0]) 1%nat
    (fields target_field replacement_field)
  = (Ok 0%nat,
     store_set (fields target_field replacement_field) 0%nat written_field)
  /\ _shape (store_set (fields target_field replacement_field) 0%nat
               written_field 0%nat)
     = _shape (fields target_field replacement_field 0%nat).
Proof.
  split; [reflexivity|].
  exact (proj2 (proj2 (setitem_keeps_batch_size zeros zeros
                         (fields target_field replacement_field) _
                         0%nat 1%nat (BList [0]) (Ok 0%nat) eq_refl))).
Defined.

(** ** A write under its contract *)

Lemma new_offsets (L : list Z) :
  L <> [] ->
  cumsum (map (fun v => v * 0) (firstn 1 L) ++ L) = 0 :: cumsum L.
Proof.
  destruct L as [|l0 L]; [contradiction|]. intros _.
  unfold cumsum. simpl. rewrite Z.mul_0_r. reflexivity.
Qed.

Lemma sumZ_nonneg L : Forall (fun v => 0 <= v) L -> 0 <= sumZ L.
Proof. induction 1; simpl; lia. Qed.

Lemma put_all_lookup_notin {A : Type} pos : forall (buf vals : list A) i,
  ~ In i pos -> put_all buf pos vals !! i = buf !! i.
Proof.
  induction pos as [|j pos IH]; intros buf vals i Hi; [reflexivity|].
  destruct vals as [|v vals]; [reflexivity|].
  rewrite put_all_cons, IH by (intros H; apply Hi; right; exact H).
  apply list_lookup_insert_ne. intros ->. apply Hi. left. reflexivity.
Qed.

(** What was written through distinct positions is read back through
    them. *)
Lemma gather_put_all {A : Type} idx : forall (buf vals : list A),
  NoDup idx ->
  length vals = length idx ->
  Forall (fun i => (i < length buf)%nat) idx ->
  gather (put_all buf idx vals) idx = Ok vals.
Proof.
  induction idx as [|i idx IH]; intros buf vals Hnd Hlen Hin.
  - destruct vals; [reflexivity|discriminate].
  - destruct vals as [|v vals]; [discriminate|].
    apply NoDup_cons in Hnd as [Hi Hnd].
    apply Forall_cons in Hin as [Hil Hin].
    rewrite put_all_cons. cbn [gather].
    rewrite put_all_lookup_notin
      by (intros H; apply Hi, list_elem_of_In; exact H).
    rewrite list_lookup_insert_eq by assumption.
    rewrite IH; [reflexivity|assumption|simpl in Hlen; lia|].
    rewrite length_insert. assumption.
Qed.

Lemma gather_nth (buf : list Z) idx : forall r,
  gather buf idx = Ok r -> map (fun j => nth j buf 0) idx = r.
Proof.
  induction idx as [|i idx IH]; intros r H; simpl in H.
  - injection H as <-. reflexivity.
  - destruct (buf !! i) as [x|] eqn:Hi; [|discriminate].
    destruct (gather buf idx) as [r'|]; [|discriminate].
    simpl in H. injection H as <-. simpl. f_equal.
    + apply nth_lookup_Some. exact Hi.
    + apply IH. reflexivity.
Qed.

Lemma select_put_all J (L X : list Z) :
  NoDup J -> length X = length J ->
  Forall (fun j => (j < length L)%nat) J ->
  map (fun j => nth j (put_all L J X) 0) J = X.
Proof.
  intros Hnd Hlen Hin. apply gather_nth, gather_put_all; assumption.
Qed.

Lemma filter_seq_NoDup f T : NoDup (List.filter f (seq 0 T)).
Proof.
  apply NoDup_ListNoDup, List.NoDup_filter, seq_NoDup.
Qed.

(** ** The rows that a write leaves alone *)

Lemma gather_app {A : Type} (buf : list A) l1 : forall l2 r1 r2,
  gather buf l1 = Ok r1 -> gather buf l2 = Ok r2 ->
  gather buf (l1 ++ l2) = Ok (r1 ++ r2).
Proof.
  induction l1 as [|i l1 IH]; intros l2 r1 r2 H1 H2; simpl in H1 |- *.
  - injection H1 as <-. exact H2.
  - destruct (buf !! i); [|discriminate].
    destruct (gather buf l1) as [r|] eqn:Hr; [|discriminate].
    simpl in H1. injection H1 as <-.
    rewrite (IH l2 r r2 eq_refl H2). reflexivity.
Qed.

Lemma gather_seq {A : Type} (buf : list A) n : forall a,
  (a + n <= length buf)%nat ->
  gather buf (seq a n) = Ok (firstn n (skipn a buf)).
Proof.
  induction n as [|n IH]; intros a Ha; [reflexivity|].
  simpl seq. simpl gather.
  destruct (lookup_lt_is_Some_2 buf a) as [x Hx]; [lia|].
  rewrite Hx, IH by lia. simpl.
  rewrite (drop_S buf x a Hx). reflexivity.
Qed.

Lemma gather_segments {A : Type} (buf : list A) L :
  forall (a : nat) (sel own : nat -> bool),
  Forall (fun v => 0 <= v) L ->
  (a + Z.to_nat (sumZ L) <= length buf)%nat ->
  (forall j p, (j < length L)%nat ->
     Z.of_nat a + psum L j <= Z.of_nat p < Z.of_nat a + psum L (S j) ->
     sel p = own j) ->
  gather buf (List.filter sel (seq a (Z.to_nat (sumZ L))))
  = Ok (flat_map (fun j =>
                    if own j
                    then firstn (Z.to_nat (nth j L 0))
                                (skipn (a + Z.to_nat (psum L j)) buf)
                    else [])
                 (seq 0 (length L))).
Proof.
  induction L as [|x L IH]; intros a sel own Hpos Hlen Hsel.
  - reflexivity.
  - apply Forall_cons in Hpos as [Hx Hpos].
    pose proof (sumZ_nonneg L Hpos) as Hnn.
    simpl sumZ in *.
    replace (Z.to_nat (x + sumZ L))
      with (Z.to_nat x + Z.to_nat (sumZ L))%nat by lia.
    rewrite seq_app, List.filter_app.
    simpl length. simpl seq. simpl flat_map.
    apply gather_app.
    + rewrite psum_0. simpl Z.to_nat. rewrite Nat.add_0_r.
      assert (H0 : forall p, In p (seq a (Z.to_nat x)) -> sel p = own 0%nat).
      { intros p Hp. apply in_seq in Hp. apply Hsel; [simpl; lia|].
        rewrite psum_0. unfold psum. simpl. lia. }
      destruct (own 0%nat).
      * rewrite filter_all by exact H0. apply gather_seq. lia.
      * rewrite filter_none by exact H0. reflexivity.
    + rewrite <- seq_shift, flat_map_concat_map, map_map,
        <- flat_map_concat_map.
      rewrite (IH (a + Z.to_nat x)%nat sel (fun j => own (S j))).
      2: exact Hpos.
      2: lia.
      2: { intros j p Hj Hp. apply Hsel; [simpl; lia|].
           rewrite !psum_cons. lia. }
      f_equal. apply flat_map_ext. intros j.
      destruct (own (S j)); [|reflexivity].
      rewrite psum_cons. cbn [nth].
      pose proof (psum_nonneg L j Hpos).
      do 2 f_equal. lia.
Qed.

Lemma owned_In J j : owned J j = true <-> In j J.
Proof.
  unfold owned. rewrite existsb_exists. split.
  - intros (x & Hx & He). apply Nat.eqb_eq in He. subst. exact Hx.
  - intros H. exists j. split; [exact H|apply Nat.eqb_refl].
Qed.

Lemma existsb_entry L J j p :
  Forall (fun v => 0 <= v) L ->
  in_entry L j p = true ->
  existsb (fun j' => in_entry L j' p) J = owned J j.
Proof.
  intros Hpos Hin. destruct (owned J j) eqn:Ho.
  - apply owned_In in Ho. apply existsb_exists. eauto.
  - destruct (existsb (fun j' => in_entry L j' p) J) eqn:He; [|reflexivity].
    apply existsb_exists in He as (j' & Hj' & Hp).
    destruct (Nat.eq_dec j j') as [->|Hne].
    + apply owned_In in Hj'. congruence.
    + rewrite (in_entry_disjoint L j j' p Hpos Hne Hin) in Hp. discriminate.
Qed.

(** The positions of the entries in [J], gathered: their segments, in the
    order of the entries. *)
Lemma gather_entries {A : Type} (buf : list A) L J :
  Forall (fun v => 0 <= v) L ->
  sumZ L = Z.of_nat (length buf) ->
  gather buf (List.filter (fun p => existsb (fun j => in_entry L j p) J)
                          (seq 0 (length buf)))
  = Ok (flat_map (fun j => if owned J j then segment L buf j else [])
                 (seq 0 (length L)))
  /\ gather buf (List.filter
                   (fun p => negb (existsb (fun j => in_entry L j p) J))
                   (seq 0 (length buf)))
     = Ok (flat_map (fun j => if negb (owned J j) then segment L buf j else [])
                    (seq 0 (length L))).
Proof.
  intros Hpos Hsum.
  assert (Hb : length buf = Z.to_nat (sumZ L)) by lia.
  rewrite Hb. split.
  - rewrite (gather_segments buf L 0 _ (owned J)); [reflexivity|assumption|lia|].
    intros j p Hj Hp. apply existsb_entry; [assumption|].
    unfold in_entry. apply andb_true_intro. split; [apply Z.leb_le|apply Z.ltb_lt]; lia.
  - rewrite (gather_segments buf L 0 _ (fun j => negb (owned J j)));
      [reflexivity|assumption|lia|].
    intros j p Hj Hp. f_equal. apply existsb_entry; [assumption|].
    unfold in_entry. apply andb_true_intro. split; [apply Z.leb_le|apply Z.ltb_lt]; lia.
Qed.

Lemma length_segment {A : Type} (buf : list A) L j :
  Forall (fun v => 0 <= v) L ->
  sumZ L = Z.of_nat (length buf) ->
  (j < length L)%nat ->
  length (segment L buf j) = Z.to_nat (nth j L 0).
Proof.
  intros Hpos Hsum Hj. unfold segment.
  rewrite length_take, length_drop.
  pose proof (psum_S L j Hj). pose proof (psum_le_sum L (S j) Hpos).
  pose proof (psum_nonneg L j Hpos).
  assert (0 <= nth j L 0).
  { rewrite List.Forall_forall in Hpos. apply Hpos, nth_In. exact Hj. }
  lia.
Qed.

Lemma flat_map_pieces {B : Type} (f g : nat -> list B) l :
  (forall j, In j l -> length (f j) = length (g j)) ->
  flat_map f l = flat_map g l ->
  forall j, In j l -> f j = g j.
Proof.
  induction l as [|x l IH]; intros Hlen Heq j Hj; [destruct Hj|].
  simpl in Heq. apply app_inj_1 in Heq as [Hx Hrest];
    [|apply Hlen; left; reflexivity].
  destruct Hj as [<-|Hj]; [exact Hx|].
  apply IH; [|exact Hrest|exact Hj].
  intros j' Hj'. apply Hlen. right. exact Hj'.
Qed.

(** The frame of a write, on lists: when the lengths agree off [J] and the
    positions outside the entries of [J] hold the same values in the same
    order, every entry outside [J] has the same segment. *)
Lemma segments_kept {A : Type} (buf buf' : list A) (L L' : list Z) J vk :
  Forall (fun v => 0 <= v) L -> Forall (fun v => 0 <= v) L' ->
  length L' = length L ->
  sumZ L = Z.of_nat (length buf) -> sumZ L' = Z.of_nat (length buf') ->
  (forall j, ~ In j J -> nth j L' 0 = nth j L 0) ->
  gather buf (List.filter
                (fun p => negb (existsb (fun j => in_entry L j p) J))
                (seq 0 (length buf))) = Ok vk ->
  gather buf' (List.filter
                 (fun p => negb (existsb (fun j => in_entry L' j p) J))
                 (seq 0 (length buf'))) = Ok vk ->
  forall j, (j < length L)%nat -> ~ In j J ->
    segment L' buf' j = segment L buf j.
Proof.
  intros Hpos Hpos' Hlen Hsum Hsum' Hoff Hk Hk' j Hj HjJ.
  rewrite (proj2 (gather_entries buf L J Hpos Hsum)) in Hk.
  rewrite (proj2 (gather_entries buf' L' J Hpos' Hsum')) in Hk'.
  rewrite Hlen in Hk'. rewrite <- Hk in Hk'. injection Hk' as Heq.
  assert (Hp : (if negb (owned J j) then segment L' buf' j else [])
               = (if negb (owned J j) then segment L buf j else [])).
  { apply (flat_map_pieces
             (fun j => if negb (owned J j) then segment L' buf' j else [])
             (fun j => if negb (owned J j) then segment L buf j else [])
             (seq 0 (length L))); [|exact Heq|apply in_seq; lia].
    intros i Hi. apply in_seq in Hi.
    destruct (owned J i) eqn:Ho; [reflexivity|]. simpl.
    rewrite !length_segment by (try assumption; lia).
    rewrite Hoff; [reflexivity|]. intros Hin. apply owned_In in Hin. congruence. }
  destruct (owned J j) eqn:Ho; [apply owned_In in Ho; contradiction|].
  exact Hp.
Qed.

(** Reading entries that the write did not touch. *)
Lemma gather_untouched {A : Type} (buf buf' : list A) (L L' : list Z) J J' :
  Forall (fun v => 0 <= v) L -> Forall (fun v => 0 <= v) L' ->
  length L' = length L ->
  sumZ L = Z.of_nat (length buf) -> sumZ L' = Z.of_nat (length buf') ->
  (forall j, (j < length L)%nat -> ~ In j J ->
     segment L' buf' j = segment L buf j) ->
  (forall j, In j J' -> ~ In j J) ->
  gather buf' (List.filter (fun p => existsb (fun j => in_entry L' j p) J')
                           (seq 0 (length buf')))
  = gather buf (List.filter (fun p => existsb (fun j => in_entry L j p) J')
                            (seq 0 (length buf))).
Proof.
  intros Hpos Hpos' Hlen Hsum Hsum' Hseg Hdis.
  rewrite (proj1 (gather_entries buf L J' Hpos Hsum)).
  rewrite (proj1 (gather_entries buf' L' J' Hpos' Hsum')).
  rewrite Hlen. f_equal. rewrite !flat_map_concat_map. f_equal.
  apply map_ext_in. intros j Hj.
  apply in_seq in Hj.
  destruct (owned J' j) eqn:Ho; [|reflexivity].
  apply Hseg; [lia|]. apply Hdis, owned_In, Ho.
Qed.

Lemma gather_put_all_disjoint {A : Type} idx : forall pos (buf vals : list A),
  (forall i, In i idx -> ~ In i pos) ->
  gather (put_all buf pos vals) idx = gather buf idx.
Proof.
  induction idx as [|i idx IH]; intros pos buf vals Hdis; [reflexivity|].
  simpl. rewrite put_all_lookup_notin by (apply Hdis; left; reflexivity).
  rewrite IH by (intros j Hj; apply Hdis; right; exact Hj). reflexivity.
Qed.

Lemma nth_put_all_notin (L X : list Z) J j :
  ~ In j J -> nth j (put_all L J X) 0 = nth j L 0.
Proof.
  intros Hj. rewrite !nth_lookup, put_all_lookup_notin by exact Hj.
  reflexivity.
Qed.

Lemma in_flat_positions K N cols j :
  In j (flat_positions K N cols)
  <-> exists k c, (k < K)%nat /\ In c cols /\ j = (k * N + c)%nat.
Proof.
  unfold flat_positions. rewrite in_flat_map. split.
  - intros (k & Hk & Hj). apply in_map_iff in Hj as (c & <- & Hc).
    apply in_seq in Hk. exists k, c. repeat split; [lia|exact Hc].
  - intros (k & c & Hk & Hc & ->). exists k. split; [apply in_seq; lia|].
    apply in_map_iff. exists c. split; [reflexivity|exact Hc].
Qed.

(** Rows that differ have no entry in common. *)
Lemma flat_positions_disjoint K N cols cols' :
  Forall (fun c => (c < N)%nat) cols ->
  Forall (fun c => (c < N)%nat) cols' ->
  (forall c, In c cols -> ~ In c cols') ->
  forall j, In j (flat_positions K N cols') ->
            ~ In j (flat_positions K N cols).
Proof.
  intros Hr Hr' Hdis j Hj' Hj.
  apply in_flat_positions in Hj as (k & c & _ & Hc & ->).
  apply in_flat_positions in Hj' as (k' & c' & _ & Hc' & He).
  rewrite List.Forall_forall in Hr, Hr'.
  pose proof (Hr c Hc) as Hlt. pose proof (Hr' c' Hc') as Hlt'.
  assert (c = c').
  { assert (Hm : ((k * N + c) mod N = (k' * N + c') mod N)%nat)
      by (rewrite He; reflexivity).
    rewrite !(Nat.add_comm (_ * N)), !Nat.Div0.mod_add in Hm.
    rewrite !Nat.mod_small in Hm by assumption. exact Hm. }
  subst c'. exact (Hdis c Hc Hc').
Qed.

Section RaggedContract.

Context {V W : Type}.
Variable uninit_values : nat -> V.
Variable uninit_weights : nat -> W.

(** Under the contract of the write, and unless the target or the result
    holds exactly one value, the write goes through; the object it builds
    has the written lengths, the values and weights of the replacement at
    the positions of the rows written, and at the other positions the
    values and weights that the target had outside these rows, in the
    same order. *)
Lemma setitem_build_contract (o x : KJT V W) index (N : nat) cols :
  layout_ok N o ->
  layout_ok (length cols) x ->
  _keys x = _keys o ->
  _keys o <> [] ->
  N <> 0%nat ->
  resolve_columns N index = Ok cols ->
  NoDup cols ->
  length (_values o) <> 1%nat ->
  sumZ (written_lengths o x N cols) <> 1 ->
  exists tv tw vk wk,
    setitem_build uninit_values uninit_weights o index x
    = Ok (KeyedJaggedTensor tv (_keys o) tw (written_lengths o x N cols))
    /\ length tv = Z.to_nat (sumZ (written_lengths o x N cols))
    /\ gather tv (written_positions o x N cols) = Ok (_values x)
    /\ gather tw (written_positions o x N cols) = Ok (_weights x)
    /\ length tw = length tv
    /\ gather (_values o)
         (kept_positions (length (_keys o)) N cols (_lengths o)
                         (length (_values o))) = Ok vk
    /\ gather tv
         (kept_positions (length (_keys o)) N cols
                         (written_lengths o x N cols) (length tv)) = Ok vk
    /\ gather (_weights o)
         (kept_positions (length (_keys o)) N cols (_lengths o)
                         (length (_values o))) = Ok wk
    /\ gather tw
         (kept_positions (length (_keys o)) N cols
                         (written_lengths o x N cols) (length tv)) = Ok wk.
Proof.
  intros Ho Hx Hkeys Hk HN Hc Hnd Hv1 Hv1'.
  pose proof (resolve_columns_range N index cols Hc) as Hrange.
  destruct (layout_views o N Ho) as (Hvo1 & Hvo2 & Hvo3).
  pose proof (layout_last o N Ho) as HT.
  destruct Ho as (Hl & Hpos & Hoff & Hsum & Hw).
  destruct Hx as (Hlx & Hposx & _ & Hsumx & Hwx).
  pose proof (length_nonzero _ Hk) as HK.
  unfold written_positions. unfold written_lengths in *.
  rewrite Hkeys in Hlx.
  set (K := length (_keys o)) in *.
  set (J := flat_positions K N cols) in *.
  set (Lout := put_all (_lengths o) J (_lengths x)) in *.
  assert (HJr : Forall (fun j => (j < length (_lengths o))%nat) J).
  { rewrite Hl. apply flat_positions_range. assumption. }
  assert (HJn : NoDup J) by (apply flat_positions_NoDup; assumption).
  assert (HlenX : length (_lengths x) = length J).
  { unfold J. rewrite length_flat_positions. exact Hlx. }
  assert (HLlen : length Lout = (K * N)%nat).
  { unfold Lout. rewrite length_put_all. exact Hl. }
  assert (HLpos : Forall (fun v => 0 <= v) Lout)
    by (apply put_all_Forall; assumption).
  assert (HJr' : Forall (fun j => (j < length Lout)%nat) J).
  { rewrite HLlen, <- Hl. exact HJr. }
  assert (Hselect : map (fun j => nth j Lout 0) J = _lengths x)
    by (apply select_put_all; assumption).
  pose proof (sumZ_put_all J (_lengths o) (_lengths x) HJn HJr HlenX)
    as HsumL. fold Lout in HsumL.
  pose proof (sumZ_nonneg Lout HLpos) as Hnn.
  set (T := length (_values o)) in *.
  set (T' := Z.to_nat (sumZ Lout)) in *.
  assert (HT' : sumZ Lout = Z.of_nat T') by (unfold T'; lia).
  set (lo := select_columns K N cols (removelast (_offsets o))) in *.
  set (hi := select_columns K N cols (tail (_offsets o))) in *.
  set (lo' := select_columns K N cols (removelast (0 :: cumsum Lout))).
  set (hi' := select_columns K N cols (tail (0 :: cumsum Lout))).
  (* how many positions each mask selects *)
  assert (Hold : Z.of_nat (length (List.filter (sel_any lo hi) (seq 0 T)))
                 = sumZ (map (fun j => nth j (_lengths o) 0) J)).
  { unfold lo, hi. rewrite Hoff.
    rewrite (filter_ext _ _
               (fun p => sel_any_entries (_lengths o) K N cols p HJr)).
    apply count_entries; assumption. }
  assert (Hnew : Z.of_nat (length (List.filter (sel_any lo' hi') (seq 0 T')))
                 = sumZ (_lengths x)).
  { unfold lo', hi'.
    rewrite (filter_ext _ _ (fun p => sel_any_entries Lout K N cols p HJr')).
    fold J. rewrite (count_entries Lout T' HLpos HT' J HJn HJr').
    rewrite Hselect. reflexivity. }
  pose proof (keep_plus_new lo hi T) as Hpart.
  pose proof (keep_plus_new lo' hi' T') as Hpart'.
  (* the buffers that are gathered *)
  destruct (gather_in_range (_values o) (List.filter (sel_none lo hi) (seq 0 T)))
    as [vk Hvk]; [apply filter_seq_range|].
  destruct (gather_in_range (_weights o)
              (List.filter (sel_none lo hi) (seq 0 T)))
    as [wk Hwk]; [rewrite <- Hw; apply filter_seq_range|].
  pose proof (gather_length _ _ _ Hvk) as Lvk.
  pose proof (gather_length _ _ _ Hwk) as Lwk.
  assert (Hkeep : length (List.filter (sel_none lo' hi') (seq 0 T'))
                  = length vk) by lia.
  assert (Hbuf : (length vk + length (_values x))%nat = T') by lia.
  set (keep' := List.filter (sel_none lo' hi') (seq 0 T')) in *.
  set (new := List.filter (sel_any lo' hi') (seq 0 T')) in *.
  assert (Hnewlen : length (_values x) = length new) by lia.
  assert (Hkr : Forall (fun i => (i < T')%nat) keep')
    by apply filter_seq_range.
  assert (Hnr : Forall (fun i => (i < T')%nat) new)
    by apply filter_seq_range.
  exists (put_all (put_all (map uninit_values (seq 0 T')) keep' vk)
                  new (_values x)),
         (put_all (put_all (map uninit_weights (seq 0 T')) keep' wk)
                  new (_weights x)),
         vk, wk.
  assert (Hdis : forall i, In i keep' -> ~ In i new).
  { intros i Hi Hi'. apply filter_In in Hi as [_ Hi].
    apply filter_In in Hi' as [_ Hi'].
    rewrite sel_none_any, Hi' in Hi. discriminate. }
  split; [|split; [|split; [|split]]].
  - unfold setitem_build. fold K.
    rewrite Hl, floordiv_mul by assumption. cbn [bind].
    rewrite Hkeys. fold K.
    rewrite Hlx, floordiv_mul by assumption. cbn [bind].
    rewrite bool_decide_eq_true_2 by reflexivity. cbn [negb].
    rewrite Hvo3. cbn [bind].
    unfold view2 at 1. rewrite Hlx, Nat.eqb_refl. cbn [bind].
    rewrite Hc. cbn [bind].
    unfold assign_columns, expand_rows. rewrite Nat.eqb_refl. cbn [bind].
    fold J Lout.
    rewrite HT. cbn [bind]. rewrite Hvo1. cbn [bind]. rewrite Hvo2.
    cbn [bind]. fold lo hi. fold T.
    unfold squeeze_select at 1.
    destruct (Nat.eqb_spec T 1) as [E|_]; [contradiction|]. cbn [bind].
    rewrite Hvk. cbn [bind]. rewrite Hwk. cbn [bind].
    rewrite new_offsets
      by (intros E; rewrite E in HLlen; simpl in HLlen;
          destruct K; [contradiction|]; destruct N; [contradiction|];
          discriminate).
    unfold arange_last, cumsum. rewrite last_cumsum_from, Z.add_0_l.
    destruct (Z.ltb_spec (sumZ Lout) 0) as [E|_]; [lia|]. cbn [bind].
    fold T'. fold (cumsum Lout).
    unfold view2.
    rewrite length_removelast_cons. cbn [tail]. unfold cumsum at 1 3.
    rewrite !length_cumsum_from, HLlen, Nat.eqb_refl. cbn [bind].
    fold (cumsum Lout). fold lo' hi'.
    unfold squeeze_select.
    destruct (Nat.eqb_spec T' 1) as [E|_]; [exfalso; lia|]. cbn [bind].
    change (select_columns K N cols (cumsum Lout)) with hi'.
    fold keep' new. rewrite Hbuf.
    rewrite index_put_exact;
      [|lia|rewrite length_map, length_seq; exact Hkr].
    cbn [bind].
    rewrite index_put_exact;
      [|lia|rewrite length_put_all, length_map, length_seq; exact Hnr].
    cbn [bind].
    rewrite index_put_exact;
      [|lia|rewrite length_map, length_seq; exact Hkr].
    cbn [bind].
    rewrite index_put_exact;
      [|lia|rewrite length_put_all, length_map, length_seq; exact Hnr].
    reflexivity.
  - rewrite !length_put_all, length_map, length_seq. reflexivity.
  - fold (cumsum Lout) lo' hi' T' new.
    apply gather_put_all;
      [apply filter_seq_NoDup|lia
      |rewrite length_put_all, length_map, length_seq; exact Hnr].
  - fold (cumsum Lout) lo' hi' T' new.
    apply gather_put_all;
      [apply filter_seq_NoDup|lia
      |rewrite length_put_all, length_map, length_seq; exact Hnr].
  - rewrite !length_put_all, !length_map, !length_seq.
    unfold kept_positions. rewrite <- Hoff. fold lo hi lo' hi' keep'.
    split; [reflexivity|]. split; [exact Hvk|]. split; [|split; [exact Hwk|]].
    + rewrite gather_put_all_disjoint by exact Hdis.
      apply gather_put_all;
        [apply filter_seq_NoDup|lia
        |rewrite length_map, length_seq; exact Hkr].
    + rewrite gather_put_all_disjoint by exact Hdis.
      apply gather_put_all;
        [apply filter_seq_NoDup|lia
        |rewrite length_map, length_seq; exact Hkr].
Qed.

(** Set, then get.  Under the contract of the write (a well-formed
    target with at least one key and one row, a well-formed replacement
    with the same keys that covers the distinct rows selected), and
    unless the target or the result holds exactly one value, the write
    succeeds in place and reading the same index afterwards returns the
    replacement. *)
Theorem setitem_then_index (h : store V W) (orig_tensor other : loc)
    (index : batch_index) (N : nat) (cols : list nat) :
  layout_ok N (h orig_tensor) ->
  layout_ok (length cols) (h other) ->
  _keys (h other) = _keys (h orig_tensor) ->
  _keys (h orig_tensor) <> [] ->
  N <> 0%nat ->
  resolve_columns N index = Ok cols ->
  NoDup cols ->
  length (_values (h orig_tensor)) <> 1%nat ->
  sumZ (written_lengths (h orig_tensor) (h other) N cols) <> 1 ->
  exists h',
    setitem_keyedjaggedtensor uninit_values uninit_weights
      orig_tensor index other h = (Ok orig_tensor, h')
    /\ _lengths (h' orig_tensor)
       = written_lengths (h orig_tensor) (h other) N cols
    /\ index_keyedjaggedtensor true (h' orig_tensor) (RIdx index)
       = Ok (h other).
Proof.
  intros Ho Hx Hkeys Hk HN Hc Hnd Hv Hv'.
  destruct (setitem_build_contract (h orig_tensor) (h other) index N cols
              Ho Hx Hkeys Hk HN Hc Hnd Hv Hv')
    as (tv & tw & _ & _ & Hb & Hlen & Hgv & Hgw & _).
  pose proof (setitem_build_layout uninit_values uninit_weights
                (h orig_tensor) (h other) index N cols _ Ho Hx Hc Hnd Hb)
    as [_ Hr].
  unfold setitem_keyedjaggedtensor. rewrite Hb.
  eexists. split; [reflexivity|]. rewrite store_set_same.
  split; [reflexivity|].
  set (r := KeyedJaggedTensor tv (_keys (h orig_tensor)) tw
              (written_lengths (h orig_tensor) (h other) N cols)) in *.
  destruct (index_read r N index cols Hr) as (v' & w' & Hv'' & Hw'' & Hread);
    [exact Hk| |exact Hc|].
  { cbn [r _values KeyedJaggedTensor]. rewrite Hlen.
    pose proof (sumZ_nonneg _ (proj1 (proj2 Hr))) as Hnn.
    cbn [r _lengths KeyedJaggedTensor] in Hnn. lia. }
  rewrite Hread.
  assert (Hpos : read_positions r N cols
                 = written_positions (h orig_tensor) (h other) N cols).
  { unfold read_positions, written_positions.
    cbn [r _keys _values _offsets KeyedJaggedTensor]. rewrite Hlen.
    reflexivity. }
  rewrite Hpos in Hv'', Hw''.
  cbn [r _values _weights KeyedJaggedTensor] in Hv'', Hw''.
  rewrite Hgv in Hv''. rewrite Hgw in Hw''.
  injection Hv'' as <-. injection Hw'' as <-.
  cbn [r _keys _lengths KeyedJaggedTensor].
  assert (Hsel : select_columns (length (_keys (h orig_tensor))) N cols
                   (written_lengths (h orig_tensor) (h other) N cols)
                 = _lengths (h other)).
  { unfold select_columns, written_lengths.
    destruct Ho as (Hl & _). destruct Hx as (Hlx & _).
    apply select_put_all.
    - apply flat_positions_NoDup; [assumption|].
      eapply resolve_columns_range; eassumption.
    - rewrite length_flat_positions, Hlx, Hkeys. reflexivity.
    - rewrite Hl. apply flat_positions_range.
      eapply resolve_columns_range; eassumption. }
  rewrite Hsel. f_equal.
  destruct Hx as (_ & _ & Hoffx & _).
  unfold KeyedJaggedTensor. rewrite <- Hoffx, <- Hkeys.
  destruct (h other); reflexivity.
Qed.

Lemma read_positions_entries (kjt : KJT V W) (N : nat) (cols : list nat) :
  layout_ok N kjt ->
  Forall (fun c => (c < N)%nat) cols ->
  read_positions kjt N cols
  = List.filter
      (fun p => existsb (fun j => in_entry (_lengths kjt) j p)
                        (flat_positions (length (_keys kjt)) N cols))
      (seq 0 (length (_values kjt))).
Proof.
  intros (Hl & _ & Hoff & _) Hr. unfold read_positions. rewrite Hoff.
  apply filter_ext. intros p. apply sel_any_entries.
  rewrite Hl. apply flat_positions_range. exact Hr.
Qed.

Lemma kept_positions_entries (K N : nat) (cols : list nat) (L : list Z)
    (T : nat) :
  length L = (K * N)%nat ->
  Forall (fun c => (c < N)%nat) cols ->
  kept_positions K N cols L T
  = List.filter
      (fun p => negb (existsb (fun j => in_entry L j p)
                              (flat_positions K N cols)))
      (seq 0 T).
Proof.
  intros Hl Hr. unfold kept_positions. apply filter_ext. intros p.
  rewrite sel_none_any. f_equal. apply sel_any_entries.
  rewrite Hl. apply flat_positions_range. exact Hr.
Qed.

(** The rows that are not written.  Under the contract of the write, and
    unless the target or the result holds exactly one value, reading rows
    that the write did not select returns after the write what it returned
    before: the same lengths, values and weights. *)
Theorem setitem_keeps_other_rows (h : store V W) (orig_tensor other : loc)
    (index index' : batch_index) (N : nat) (cols cols' : list nat) :
  layout_ok N (h orig_tensor) ->
  layout_ok (length cols) (h other) ->
  _keys (h other) = _keys (h orig_tensor) ->
  _keys (h orig_tensor) <> [] ->
  N <> 0%nat ->
  resolve_columns N index = Ok cols ->
  NoDup cols ->
  length (_values (h orig_tensor)) <> 1%nat ->
  sumZ (written_lengths (h orig_tensor) (h other) N cols) <> 1 ->
  resolve_columns N index' = Ok cols' ->
  (forall c, In c cols -> ~ In c cols') ->
  exists h',
    setitem_keyedjaggedtensor uninit_values uninit_weights
      orig_tensor index other h = (Ok orig_tensor, h')
    /\ is_ok (index_keyedjaggedtensor true (h orig_tensor) (RIdx index'))
       = true
    /\ index_keyedjaggedtensor true (h' orig_tensor) (RIdx index')
       = index_keyedjaggedtensor true (h orig_tensor) (RIdx index').
Proof.
  intros Ho Hx Hkeys Hk HN Hc Hnd Hv Hv' Hc' Hdis.
  destruct (setitem_build_contract (h orig_tensor) (h other) index N cols
              Ho Hx Hkeys Hk HN Hc Hnd Hv Hv')
    as (tv & tw & vk & wk & Hb & Hlen & _ & _ & Hlw
        & Hkv & Hkv' & Hkw & Hkw').
  pose proof (setitem_build_layout uninit_values uninit_weights
                (h orig_tensor) (h other) index N cols _ Ho Hx Hc Hnd Hb)
    as [_ Hr].
  pose proof (resolve_columns_range N index cols Hc) as Hrange.
  pose proof (resolve_columns_range N index' cols' Hc') as Hrange'.
  unfold setitem_keyedjaggedtensor. rewrite Hb.
  eexists. split; [reflexivity|]. rewrite store_set_same.
  set (o := h orig_tensor) in *.
  set (L' := written_lengths o (h other) N cols) in *.
  set (r := KeyedJaggedTensor tv (_keys o) tw L') in *.
  set (K := length (_keys o)) in *.
  set (J := flat_positions K N cols).
  set (J' := flat_positions K N cols').
  destruct (index_read o N index' cols' Ho Hk Hv Hc')
    as (v & w & Hgv & Hgw & Hread).
  destruct (index_read r N index' cols' Hr) as (v' & w' & Hgv' & Hgw' & Hread');
    [exact Hk| |exact Hc'|].
  { cbn [r _values KeyedJaggedTensor]. rewrite Hlen.
    pose proof (sumZ_nonneg _ (proj1 (proj2 Hr))) as Hnn.
    cbn [r _lengths KeyedJaggedTensor] in Hnn. lia. }
  rewrite Hread, Hread'. split; [reflexivity|].
  rewrite read_positions_entries in Hgv, Hgw, Hgv', Hgw' by assumption.
  cbn [r _keys _values _weights _lengths KeyedJaggedTensor]
    in Hgv', Hgw', Hr |- *.
  fold K J' in Hgv, Hgw, Hgv', Hgw'. fold K.
  destruct Ho as (Hl & Hpos & Hoff & Hsum & Hw).
  destruct Hr as (Hl' & Hpos' & _ & Hsum' & Hw').
  cbn [r _keys _values _weights _lengths KeyedJaggedTensor]
    in Hl', Hpos', Hsum', Hw'.
  fold K in Hl, Hl'.
  assert (HLL : length L' = length (_lengths o)) by congruence.
  assert (HJ'J : forall j, In j J' -> ~ In j J)
    by (apply flat_positions_disjoint; assumption).
  assert (Hoff' : forall j, ~ In j J -> nth j L' 0 = nth j (_lengths o) 0)
    by (intros j Hj; apply nth_put_all_notin; exact Hj).
  rewrite kept_positions_entries in Hkv, Hkv', Hkw, Hkw' by assumption.
  fold J in Hkv, Hkv', Hkw, Hkw'.
  assert (Hvals : v' = v).
  { assert (Ok v' = Ok v) as [= ->]; [|reflexivity].
    rewrite <- Hgv, <- Hgv'.
    apply (gather_untouched _ _ _ _ J); try assumption.
    apply (segments_kept _ _ _ _ _ vk); assumption. }
  assert (Hwts : w' = w).
  { assert (Ok w' = Ok w) as [= ->]; [|reflexivity].
    rewrite Hw in Hgw, Hkw, Hsum. rewrite Hw' in Hgw', Hkw', Hsum'.
    rewrite <- Hgw, <- Hgw'.
    apply (gather_untouched _ _ _ _ J); try assumption.
    apply (segments_kept _ _ _ _ _ wk); assumption. }
  subst v' w'. do 2 f_equal.
  unfold select_columns. fold J'. apply map_ext_in. intros j Hj.
  apply Hoff', HJ'J, Hj.
Qed.

End RaggedContract.

Lemma setitem_then_index_witness :
  sumZ (written_lengths (fields target_field replacement_field 0%nat)
          (fields target_field replacement_field 1%nat) 2 [0%nat]) <> 1
  /\ exists h',
       setitem_keyedjaggedtensor zeros zeros 0%nat (BList [0]) 1%nat
         (fields target_field replacement_field) = (Ok 0%nat, h')
       /\ _lengths (h' 0%nat)
          = written_lengths (fields target_field replacement_field 0%nat)
              (fields target_field replacement_field 1%nat) 2 [0%nat]
       /\ index_keyedjaggedtensor true (h' 0%nat) (RIdx (BList [0]))
          = Ok (fields target_field replacement_field 1%nat).
Proof.
  assert (H1 : layout_ok 2 (fields target_field replacement_field 0%nat)).
  { unfold layout_ok. simpl. repeat split; try reflexivity.
    repeat constructor; lia. }
  assert (H2 : layout_ok (length [0%nat])
                 (fields target_field replacement_field 1%nat)).
  { unfold layout_ok. simpl. repeat split; try reflexivity.
    repeat constructor; lia. }
  assert (H3 : _keys (fields target_field replacement_field 0%nat) <> [])
    by discriminate.
  assert (H4 : (2 <> 0)%nat) by lia.
  assert (H5 : NoDup [0%nat]) by apply NoDup_singleton.
  assert (H6 : length (_values (fields target_field replacement_field 0%nat))
               <> 1%nat) by (simpl; lia).
  assert (H7 : sumZ (written_lengths
                       (fields target_field replacement_field 0%nat)
                       (fields target_field replacement_field 1%nat)
                       2 [0%nat]) <> 1) by (vm_compute; discriminate).
  split; [exact H7|].
  exact (setitem_then_index zeros zeros
           (fields target_field replacement_field) 0%nat 1%nat (BList [0])
           2 [0%nat] H1 H2 eq_refl H3 H4 eq_refl H5 H6 H7).
Defined.

Lemma setitem_keeps_other_rows_witness :
  exists h',
    setitem_keyedjaggedtensor zeros zeros 0%nat (BList [0]) 1%nat
      (fields target_field replacement_field) = (Ok 0%nat, h')
    /\ is_ok (index_keyedjaggedtensor true
                (fields target_field replacement_field 0%nat)
                (RIdx (BList [1]))) = true
    /\ index_keyedjaggedtensor true (h' 0%nat) (RIdx (BList [1]))
       = index_keyedjaggedtensor true
           (fields target_field replacement_field 0%nat) (RIdx (BList [1])).
Proof.
  assert (H1 : layout_ok 2 (fields target_field replacement_field 0%nat)).
  { unfold layout_ok. simpl. repeat split; try reflexivity.
    repeat constructor; lia. }
  assert (H2 : layout_ok (length [0%nat])
                 (fields target_field replacement_field 1%nat)).
  { unfold layout_ok. simpl. repeat split; try reflexivity.
    repeat constructor; lia. }
  assert (H3 : _keys (fields target_field replacement_field 0%nat) <> [])
    by discriminate.
  assert (H4 : (2 <> 0)%nat) by lia.
  assert (H5 : NoDup [0%nat]) by apply NoDup_singleton.
  assert (H6 : length (_values (fields target_field replacement_field 0%nat))
               <> 1%nat) by (simpl; lia).
  assert (H7 : sumZ (written_lengths
                       (fields target_field replacement_field 0%nat)
                       (fields target_field replacement_field 1%nat)
                       2 [0%nat]) <> 1) by (vm_compute; discriminate).
  assert (H8 : forall c, In c [0%nat] -> ~ In c [1%nat]).
  { intros c [<-|[]] [E|[]]. discriminate. }
  exact (setitem_keeps_other_rows zeros zeros
           (fields target_field replacement_field) 0%nat 1%nat
           (BList [0]) (BList [1]) 2 [0%nat] [1%nat]
           H1 H2 eq_refl H3 H4 eq_refl H5 H6 H7 eq_refl H8).
Defined.

(** ** Inferring a size *)

Lemma copy_from (l : list Z) : forall acc,
  fold_left (fun out elem => out ++ [elem]) l acc = acc ++ l.
Proof.
  induction l as [|x l IH]; intros acc; simpl.
  - rewrite app_nil_r. reflexivity.
  - rewrite IH, <- app_assoc. reflexivity.
Qed.

Lemma _copy_same l : _copy l = l.
Proof. unfold _copy. apply copy_from. Qed.

Lemma prod_app l1 l2 : prod (l1 ++ l2) = prod l1 * prod l2.
Proof.
  induction l1 as [|x l1 IH]; simpl; [lia|]. rewrite IH. lia.
Qed.

Lemma prod_nonneg l : Forall (fun d => 0 <= d) l -> 0 <= prod l.
Proof. induction 1; simpl; lia. Qed.

(** The scan once the dimension to infer is known. *)
Lemma infer_scan_known shape : forall dim ns i,
  Forall (fun d => 0 <= d) shape ->
  infer_scan shape dim ns (Some i) = Returns (ns * prod shape, Some i).
Proof.
  induction shape as [|d shape IH]; intros dim ns i Hpos.
  - simpl. f_equal. f_equal. lia.
  - apply Forall_cons in Hpos as [Hd Hpos]. simpl.
    destruct (Z.eqb_spec d (-1)); [lia|].
    destruct (Z.leb_spec 0 d); [|lia].
    rewrite IH by assumption. f_equal. f_equal. lia.
Qed.

(** The scan before a dimension to infer is met. *)
Lemma infer_scan_plain pre : forall rest dim ns,
  Forall (fun d => 0 <= d) pre ->
  infer_scan (pre ++ rest) dim ns None
  = infer_scan rest (dim + length pre) (ns * prod pre) None.
Proof.
  induction pre as [|d pre IH]; intros rest dim ns Hpos.
  - simpl. f_equal; lia.
  - apply Forall_cons in Hpos as [Hd Hpos]. simpl.
    destruct (Z.eqb_spec d (-1)); [lia|].
    destruct (Z.leb_spec 0 d); [|lia].
    rewrite IH by assumption. f_equal; lia.
Qed.

(** What a scan that comes through has seen. *)
Lemma infer_scan_returns shape : forall dim ns ns' r,
  infer_scan shape dim ns None = Returns (ns', r) ->
  match r with
  | None => Forall (fun d => 0 <= d) shape /\ ns' = ns * prod shape
  | Some i =>
    exists pre post,
      shape = pre ++ -1 :: post /\ i = (dim + length pre)%nat
      /\ Forall (fun d => 0 <= d) pre /\ Forall (fun d => 0 <= d) post
      /\ ns' = ns * prod (pre ++ post)
  end.
Proof.
  induction shape as [|d shape IH]; intros dim ns ns' r H.
  - simpl in H. injection H as <- <-. split; [constructor|simpl; lia].
  - simpl in H. destruct (Z.eqb_spec d (-1)) as [->|Hd].
    + clear IH.
      assert (Hs : forall sh dm n i o,
                 infer_scan sh dm n (Some i) = Returns o ->
                 Forall (fun d => 0 <= d) sh /\ o = (n * prod sh, Some i)).
      { induction sh as [|e sh IHs]; intros dm n i o Ho; simpl in Ho.
        - injection Ho as <-. split; [constructor|]. simpl. f_equal. lia.
        - destruct (Z.eqb_spec e (-1)); [discriminate|].
          destruct (Z.leb_spec 0 e); [|discriminate].
          apply IHs in Ho as [Hf ->]. split; [constructor; assumption|].
          simpl. f_equal. lia. }
      apply Hs in H as [Hf Heq]. injection Heq as -> ->.
      exists [], shape. simpl. repeat split; try constructor; auto.
    + destruct (Z.leb_spec 0 d); [|discriminate].
      apply IH in H. destruct r as [i|].
      * destruct H as (pre & post & -> & -> & Hpre & Hpost & ->).
        exists (d :: pre), post. simpl.
        repeat split; auto; try lia; constructor; assumption.
      * destruct H as [Hf ->]. split; [constructor; assumption|simpl; lia].
Qed.

(** Whenever [infer_size_impl] returns, the result has the length of the
    shape, agrees with it outside the inferred dimension, and its sizes
    multiply to [numel]. *)
Theorem infer_size_impl_sound (shape out : list Z) (numel : Z) :
  infer_size_impl shape numel = Returns out ->
  length out = length shape
  /\ Forall2 (fun s o => s = o \/ s = -1) shape out
  /\ prod out = numel.
Proof.
  unfold infer_size_impl.
  destruct (infer_scan shape 0 1 None) as [[ns r]|] eqn:Hs; [|discriminate].
  apply infer_scan_returns in Hs. rewrite _copy_same.
  destruct r as [i|].
  - destruct Hs as (pre & post & -> & -> & Hpre & Hpost & ->).
    rewrite Z.mul_1_l. set (p := prod (pre ++ post)).
    assert (0 <= p) by (apply prod_nonneg, Forall_app; auto).
    destruct (negb _) eqn:Hc; [discriminate|].
    apply negb_false_iff in Hc.
    destruct (Z.eqb_spec p 0); [discriminate|]. intros [= <-].
    simpl plus. rewrite insert_app_r_alt, Nat.sub_diag by lia.
    simpl. split; [rewrite !length_app; reflexivity|]. split.
    + apply Forall2_app; [apply Forall2_same_length_lookup_2; [reflexivity|];
                          intros; left; congruence|].
      constructor; [right; reflexivity|].
      apply Forall2_same_length_lookup_2; [reflexivity|].
      intros; left; congruence.
    + rewrite prod_app. simpl. unfold p in *. rewrite prod_app in *.
      apply orb_prop in Hc as [Hc|Hc].
      * apply Z.eqb_eq in Hc. rewrite Hc, Z.div_same by assumption. lia.
      * simpl in Hc. apply andb_prop in Hc as [_ Hc]. apply Z.eqb_eq in Hc.
        pose proof (Z.div_mod numel (prod pre * prod post) ltac:(lia)). lia.
  - destruct Hs as [Hpos ->]. rewrite Z.mul_1_l.
    destruct (negb _) eqn:Hc; [discriminate|].
    apply negb_false_iff in Hc. intros [= <-].
    split; [reflexivity|]. split.
    + apply Forall2_same_length_lookup_2; [reflexivity|].
      intros; left; congruence.
    + simpl in Hc. rewrite orb_false_r in Hc.
      apply Z.eqb_eq in Hc. congruence.
Qed.

Lemma infer_size_impl_sound_witness :
  infer_size_impl [2; -1; 3] 24 = Returns [2; 4; 3]
  /\ length [2; 4; 3] = length [2; -1; 3]
  /\ Forall2 (fun s o => s = o \/ s = -1) [2; -1; 3] [2; 4; 3]
  /\ prod [2; 4; 3] = 24.
Proof.
  split; [reflexivity|].
  exact (infer_size_impl_sound [2; -1; 3] [2; 4; 3] 24 eq_refl).
Defined.

(** With one dimension to infer among sizes that are not negative: when
    the other sizes multiply to a positive [p], the dimension is
    [numel // p] if [p] divides [numel] and the shape is invalid if not;
    when they multiply to zero, [numel = 0] passes the check and the
    division by zero raises, and any other [numel] is an invalid shape. *)
Theorem infer_size_impl_infers (pre post : list Z) (numel : Z) :
  Forall (fun d => 0 <= d) pre ->
  Forall (fun d => 0 <= d) post ->
  infer_size_impl (pre ++ -1 :: post) numel
  = let p := prod (pre ++ post) in
    if p =? 0 then
      if numel =? 0 then Raises (Exn ZeroDivisionError)
      else Raises (AssertionError "invalid shape")
    else if numel mod p =? 0 then Returns (pre ++ numel / p :: post)
    else Raises (AssertionError "invalid shape").
Proof.
  intros Hpre Hpost. unfold infer_size_impl.
  rewrite infer_scan_plain by assumption. simpl infer_scan.
  rewrite infer_scan_known by assumption.
  replace (1 * prod pre * prod post) with (prod (pre ++ post))
    by (rewrite prod_app; lia).
  cbv zeta. set (p := prod (pre ++ post)).
  assert (0 <= p) by (apply prod_nonneg, Forall_app; auto).
  rewrite _copy_same. simpl andb.
  destruct (Z.eqb_spec p 0) as [Hp|Hp].
  - rewrite Hp. simpl. rewrite orb_false_r.
    destruct (Z.eqb_spec numel 0); reflexivity.
  - destruct (Z.ltb_spec 0 p); [|lia]. simpl.
    destruct (Z.eqb_spec (numel mod p) 0) as [Hm|Hm].
    + rewrite orb_true_r. simpl.
      rewrite insert_app_r_alt, Nat.sub_diag by lia. reflexivity.
    + rewrite orb_false_r.
      destruct (Z.eqb_spec numel p) as [->|]; [|reflexivity].
      rewrite Z.mod_same in Hm by assumption. contradiction.
Qed.

Lemma infer_size_impl_infers_witness :
  Forall (fun d => 0 <= d) [2] /\ Forall (fun d => 0 <= d) [0]
  /\ infer_size_impl ([2] ++ -1 :: [0]) 0 = Raises (Exn ZeroDivisionError).
Proof.
  assert (H1 : Forall (fun d => 0 <= d) [2]) by (repeat constructor; lia).
  assert (H2 : Forall (fun d => 0 <= d) [0]) by (repeat constructor; lia).
  split; [exact H1|]. split; [exact H2|].
  exact (infer_size_impl_infers [2] [0] 0 H1 H2).
Defined.

(** Without a dimension to infer, the shape is returned as it is when its
    sizes multiply to [numel], and is invalid when they do not. *)
Theorem infer_size_impl_plain (shape : list Z) (numel : Z) :
  Forall (fun d => 0 <= d) shape ->
  infer_size_impl shape numel
  = if numel =? prod shape then Returns shape
    else Raises (AssertionError "invalid shape").
Proof.
  intros Hpos. unfold infer_size_impl.
  rewrite <- (app_nil_r shape) at 1.
  rewrite infer_scan_plain by assumption. simpl infer_scan.
  rewrite Z.mul_1_l, _copy_same. simpl. rewrite orb_false_r.
  destruct (numel =? prod shape); reflexivity.
Qed.

Lemma infer_size_impl_plain_witness :
  Forall (fun d => 0 <= d) [2; 3]
  /\ infer_size_impl [2; 3] 5 = Raises (AssertionError "invalid shape").
Proof.
  assert (H : Forall (fun d => 0 <= d) [2; 3]) by (repeat constructor; lia).
  split; [exact H|]. exact (infer_size_impl_plain [2; 3] 5 H).
Defined.

(** The first offending dimension decides the assertion, whatever comes
    after it and whatever [numel] is: a second [-1] raises "only one
    dimension can be inferred", a size below [-1] raises "invalid shape
    dimensions". *)
Theorem infer_size_impl_rejects (pre mid post : list Z) (d numel : Z) :
  Forall (fun d => 0 <= d) pre ->
  Forall (fun d => 0 <= d) mid ->
  (infer_size_impl (pre ++ -1 :: mid ++ -1 :: post) numel
   = Raises (AssertionError "only one dimension can be inferred"))
  /\ (d < -1 ->
      infer_size_impl (pre ++ d :: post) numel
      = Raises (AssertionError "invalid shape dimensions"))
  /\ (d < -1 ->
      infer_size_impl (pre ++ -1 :: mid ++ d :: post) numel
      = Raises (AssertionError "invalid shape dimensions")).
Proof.
  intros Hpre Hmid. unfold infer_size_impl.
  assert (Hk : forall sh rest dm ns i,
             Forall (fun d => 0 <= d) sh ->
             infer_scan (sh ++ rest) dm ns (Some i)
             = infer_scan rest (dm + length sh) (ns * prod sh) (Some i)).
  { induction sh as [|e sh IH]; intros rest dm ns i Hf.
    - simpl. f_equal; lia.
    - apply Forall_cons in Hf as [He Hf]. simpl.
      destruct (Z.eqb_spec e (-1)); [lia|].
      destruct (Z.leb_spec 0 e); [|lia].
      rewrite IH by assumption. f_equal; lia. }
  split; [|split].
  - rewrite infer_scan_plain by assumption. simpl infer_scan.
    rewrite Hk by assumption. reflexivity.
  - intros Hd. rewrite infer_scan_plain by assumption. simpl infer_scan.
    destruct (Z.eqb_spec d (-1)); [lia|].
    destruct (Z.leb_spec 0 d); [lia|]. reflexivity.
  - intros Hd. rewrite infer_scan_plain by assumption. simpl infer_scan.
    rewrite Hk by assumption. simpl infer_scan.
    destruct (Z.eqb_spec d (-1)); [lia|].
    destruct (Z.leb_spec 0 d); [lia|]. reflexivity.
Qed.

Lemma infer_size_impl_rejects_witness :
  Forall (fun d => 0 <= d) [2] /\ Forall (fun d => 0 <= d) [3]
  /\ infer_size_impl ([2] ++ -1 :: [3] ++ -1 :: [4]) 24
     = Raises (AssertionError "only one dimension can be inferred")
  /\ infer_size_impl ([2] ++ -2 :: [4]) 24
     = Raises (AssertionError "invalid shape dimensions")
  /\ infer_size_impl ([2] ++ -1 :: [3] ++ -2 :: [4]) 24
     = Raises (AssertionError "invalid shape dimensions").
Proof.
  assert (H1 : Forall (fun d => 0 <= d) [2]) by (repeat constructor; lia).
  assert (H2 : Forall (fun d => 0 <= d) [3]) by (repeat constructor; lia).
  assert (H3 : -2 < -1) by lia.
  split; [exact H1|]. split; [exact H2|].
  destruct (infer_size_impl_rejects [2] [3] [4] (-2) 24 H1 H2)
    as (Ha & Hb & Hc).
  exact (conj Ha (conj (Hb H3) (Hc H3))).
Defined.

(** ** Nested keys *)

(** A key that passes [_nested_key_type_check] is normalised without an
    error; the normalised key passes the check again, is left as it is by
    a second normalisation, and is either a string or a tuple of at least
    two strings. *)
Theorem normalize_checked_key (k : key) :
  _nested_key_type_check k = Ok tt ->
  exists k',
    _normalize_key k = Ok k'
    /\ _nested_key_type_check k' = Ok tt
    /\ _normalize_key k' = Ok k'
    /\ (is_str k' = true
        \/ exists l, k' = KTuple l /\ (2 <= length l)%nat
                     /\ forallb is_str l = true).
Proof.
  intros Hc. destruct k as [s|l|].
  - exists (KStr s). repeat split; auto.
  - unfold _nested_key_type_check in Hc. simpl in Hc.
    destruct (0 <? length l)%nat eqn:Hlen; [|discriminate].
    destruct (forallb is_str l) eqn:Hall; [|discriminate].
    apply Nat.ltb_lt in Hlen.
    destruct l as [|x l]; [simpl in Hlen; lia|].
    destruct l as [|y l].
    + simpl in Hall. rewrite andb_true_r in Hall.
      destruct x; try discriminate.
      exists (KStr s). repeat split; auto.
    + exists (KTuple (x :: y :: l)).
      split; [reflexivity|]. split.
      * unfold _nested_key_type_check. cbn [is_str orb andb negb].
        rewrite Hall. reflexivity.
      * split; [reflexivity|]. right. eexists; split; [reflexivity|].
        split; [simpl; lia|assumption].
  - discriminate.
Qed.

Lemma normalize_checked_key_witness :
  exists k',
    _normalize_key (KTuple [KStr "a"]) = Ok k'
    /\ _nested_key_type_check k' = Ok tt
    /\ _normalize_key k' = Ok k'
    /\ (is_str k' = true
        \/ exists l, k' = KTuple l /\ (2 <= length l)%nat
                     /\ forallb is_str l = true).
Proof.
  exact (normalize_checked_key (KTuple [KStr "a"]) eq_refl).
Defined.

(** Normalisation itself checks nothing: a tuple of one element yields that
    element whatever it is, and such a tuple passes the check exactly when
    its element is a string.  So a one-element tuple that holds a tuple of
    two or more strings fails the check, although it is normalised to a
    key that passes. *)
Theorem normalize_key_unchecked (x : key) :
  _normalize_key (KTuple [x]) = Ok x
  /\ (_nested_key_type_check (KTuple [x]) = Ok tt <-> is_str x = true)
  /\ (forall y z l, x = KTuple (y :: z :: l) ->
      forallb is_str (y :: z :: l) = true ->
      _nested_key_type_check x = Ok tt
      /\ _nested_key_type_check (KTuple [x]) = Raise TypeError).
Proof.
  split; [reflexivity|]. split.
  - unfold _nested_key_type_check. simpl. rewrite andb_true_r.
    destruct (is_str x); simpl; split; congruence.
  - intros y z l -> Hall. split.
    + unfold _nested_key_type_check. cbn [is_str orb andb negb].
      rewrite Hall. reflexivity.
    + reflexivity.
Qed.

Lemma normalize_key_unchecked_witness :
  _nested_key_type_check (KTuple [KStr "a"; KStr "b"]) = Ok tt
  /\ _nested_key_type_check (KTuple [KTuple [KStr "a"; KStr "b"]])
     = Raise TypeError.
Proof.
  exact (proj2 (proj2 (normalize_key_unchecked
                         (KTuple [KStr "a"; KStr "b"])))
               (KStr "a") (KStr "b") [] eq_refl eq_refl).
Defined.

(** ** The key-dependent default dictionary *)

(** A successful lookup leaves the key stored with the value it returned:
    the same lookup again returns the same value and changes nothing; the
    other keys and the default function are as before, and a key that was
    stored keeps its value. *)
Theorem kdd_getitem_stores {V : Type}
    (self self' : KeyDependentDefaultDict V) (k : string) (v : V) :
  kdd_getitem self k = (Ok v, self') ->
  kdd_items self' !! k = Some v
  /\ kdd_getitem self' k = (Ok v, self')
  /\ kdd_fun self' = kdd_fun self
  /\ (forall k', k' <> k -> kdd_items self' !! k' = kdd_items self !! k')
  /\ (forall w, kdd_items self !! k = Some w -> w = v /\ self' = self)
  /\ (kdd_items self !! k = None -> kdd_fun self k = Ok v).
Proof.
  unfold kdd_getitem, __missing__. intros H.
  destruct (kdd_items self !! k) as [w|] eqn:Hk.
  - injection H as -> ->. rewrite Hk.
    repeat split; auto; try congruence.
  - destruct (kdd_fun self k) as [value|e] eqn:Hf; [|discriminate].
    injection H as -> <-. simpl.
    rewrite lookup_insert_eq.
    repeat split; auto; try congruence.
    intros k' Hne. apply lookup_insert_ne. congruence.
Qed.

Lemma kdd_getitem_stores_witness :
  let d := mkKDDD (fun key => Ok (String.append "foo_" key)) ∅ in
  let d' := mkKDDD (kdd_fun d) (<["bar" := "foo_bar"]> ∅) in
  kdd_getitem d "bar" = (Ok "foo_bar", d')
  /\ kdd_getitem d' "bar" = (Ok "foo_bar", d').
Proof.
  intros d d'.
  assert (H : kdd_getitem d "bar" = (Ok "foo_bar", d')) by reflexivity.
  split; [exact H|].
  exact (proj1 (proj2 (kdd_getitem_stores d d' "bar" "foo_bar" H))).
Defined.

(** A lookup that fails raises what the default function raised for a key
    that is not stored, and leaves the dictionary as it was. *)
Theorem kdd_getitem_raises {V : Type}
    (self self' : KeyDependentDefaultDict V) (k : string) (e : exn) :
  kdd_getitem self k = (Raise e, self') ->
  kdd_items self !! k = None /\ kdd_fun self k = Raise e /\ self' = self.
Proof.
  unfold kdd_getitem, __missing__. intros H.
  destruct (kdd_items self !! k) as [w|] eqn:Hk; [discriminate|].
  destruct (kdd_fun self k) as [value|e'] eqn:Hf; [discriminate|].
  injection H as -> <-. auto.
Qed.

Lemma kdd_getitem_raises_witness :
  let d := mkKDDD (fun key => @Raise string (KeyError key)) ∅ in
  kdd_items d !! "bar" = None
  /\ kdd_fun d "bar" = Raise (KeyError "bar") /\ d = d.
Proof.
  intros d.
  exact (kdd_getitem_raises d d "bar" (KeyError "bar") eq_refl).
Defined.

(** ** Expanding on the right *)

Lemma iter_unsqueeze_shape {A : Type} (t : ndtensor A) k :
  nd_shape (Nat.iter k unsqueeze_last t) = nd_shape t ++ repeat 1 k.
Proof.
  induction k as [|k IH]; simpl.
  - rewrite app_nil_r. reflexivity.
  - rewrite IH, <- app_assoc. f_equal.
    change (repeat 1 k ++ [1] = repeat 1 (S k)).
    symmetry. apply repeat_cons.
Qed.

Lemma iter_unsqueeze_at {A : Type} (t : ndtensor A) k : forall idx,
  nd_at (Nat.iter k unsqueeze_last t) idx
  = nd_at t (firstn (length idx - k) idx).
Proof.
  induction k as [|k IH]; intros idx; simpl.
  - rewrite Nat.sub_0_r, firstn_all. reflexivity.
  - rewrite IH. f_equal.
    rewrite removelast_firstn_len, firstn_firstn, length_take.
    f_equal. lia.
Qed.

Lemma expand_dims_ok wants : forall haves,
  Forall2 (fun have want => 0 <= want /\ (have = want \/ have = 1))
          haves wants ->
  expand_dims wants haves = Ok wants.
Proof.
  induction wants as [|w wants IH]; intros haves H.
  - destruct haves; reflexivity.
  - inversion H as [|h ? haves' ? [Hw Hh] Hrest]; subst. simpl.
    rewrite (IH haves' Hrest).
    unfold expand_dim.
    destruct (Z.eqb_spec w (-1)); [lia|].
    destruct (Z.eqb_spec w h) as [->|Hne]; [reflexivity|].
    destruct Hh as [->| ->]; [contradiction|].
    destruct (Z.leb_spec 0 w); [reflexivity|lia].
Qed.

Lemma expand_dims_same haves : expand_dims haves haves = Ok haves.
Proof.
  induction haves as [|h haves IH]; [reflexivity|]. simpl.
  rewrite IH. unfold expand_dim. rewrite Z.eqb_refl.
  destruct (h =? -1); reflexivity.
Qed.

(** Inside the shape, a dimension of size one is only ever read at zero. *)
Lemma zip_in_range shape : forall idx,
  index_in idx shape ->
  zip_with (fun have i => if have =? 1 then 0 else i) shape idx = idx.
Proof.
  unfold index_in. induction shape as [|n shape IH]; intros idx H.
  - inversion H. reflexivity.
  - inversion H as [|i ? idx' ? Hi Hrest]; subst. simpl.
    rewrite (IH idx' Hrest). f_equal.
    destruct (Z.eqb_spec n 1); lia.
Qed.

Lemma zip_with_app_l {A B C : Type} (f : A -> B -> C) l1 : forall l2 k,
  (length k <= length l1)%nat ->
  zip_with f (l1 ++ l2) k = zip_with f l1 k.
Proof.
  induction l1 as [|a l1 IH]; intros l2 k Hk.
  - destruct k; [|simpl in Hk; lia]. destruct l2; reflexivity.
  - destruct k as [|b k]; [reflexivity|]. simpl. f_equal.
    apply IH. simpl in Hk. lia.
Qed.

Lemma firstn_zip_with {A B C : Type} (f : A -> B -> C) n : forall l k,
  firstn n (zip_with f l k) = zip_with f (firstn n l) (firstn n k).
Proof.
  induction n as [|n IH]; intros l k; [reflexivity|].
  destruct l as [|a l]; [reflexivity|].
  destruct k as [|b k]; [reflexivity|]. simpl. f_equal. apply IH.
Qed.

(** What both functions do once the tensor is compatible: unsqueeze up to
    the number of sizes, then expand. *)
Lemma expand_unsqueezed {A : Type} (t : ndtensor A) (shape : list Z) :
  (ndimension t <= length shape)%nat ->
  Forall (fun n => 0 <= n) shape ->
  Forall2 (fun have want => have = want \/ have = 1)
          (nd_shape t) (firstn (ndimension t) shape) ->
  exists r,
    expand (Nat.iter (length shape - ndimension t) unsqueeze_last t) shape
    = Ok r
    /\ nd_shape r = shape
    /\ forall idx, length idx = length shape ->
         nd_at r idx
         = nd_at t (zip_with (fun have i => if have =? 1 then 0 else i)
                             (nd_shape t) (firstn (ndimension t) idx)).
Proof.
  intros Hle Hpos Hcompat. unfold expand, ndimension in *.
  rewrite iter_unsqueeze_shape, length_app, repeat_length.
  set (k := (length shape - length (nd_shape t))%nat).
  replace (length (nd_shape t) + k)%nat with (length shape) by lia.
  rewrite Nat.ltb_irrefl, Nat.sub_diag. simpl firstn. simpl skipn.
  simpl forallb. simpl negb. cbv iota.
  rewrite expand_dims_ok.
  - simpl. eexists. split; [reflexivity|]. split; [reflexivity|].
    intros idx Hidx. simpl. rewrite iter_unsqueeze_at.
    rewrite length_zip_with, length_app, repeat_length.
    change (drop 0 idx) with idx.
    replace ((length (nd_shape t) + k) `min` length idx - k)%nat
      with (length (nd_shape t)) by lia.
    rewrite firstn_zip_with, take_app_length. reflexivity.
  - change (drop 0 shape) with shape.
    rewrite <- (firstn_skipn (length (nd_shape t)) shape).
    rewrite <- (firstn_skipn (length (nd_shape t)) shape) in Hpos.
    apply Forall_app in Hpos as [Hp1 Hp2].
    apply Forall2_app.
    + apply Forall2_same_length_lookup_2.
      * eapply Forall2_length; eassumption.
      * intros i have want Hh Hw. split.
        -- eapply Forall_lookup_1 in Hp1; eassumption.
        -- eapply Forall2_lookup_lr in Hcompat; eassumption.
    + apply Forall2_same_length_lookup_2.
      * rewrite repeat_length, length_drop. reflexivity.
      * intros i have want Hh Hw. split.
        -- eapply Forall_lookup_1 in Hp2; eassumption.
        -- right. apply list_elem_of_lookup_2 in Hh.
           apply list_elem_of_In, repeat_spec in Hh. exact Hh.
Qed.

Lemma Forall2_eq_refl {A : Type} (l : list A) :
  Forall2 (fun have want => have = want) l l.
Proof. induction l; constructor; auto. Qed.

(** [expand_as_right] succeeds exactly when the shape of the tensor is the
    front of the shape of the destination (whose sizes are not negative),
    and raises [RuntimeError] otherwise.  The result has the shape of the
    destination and holds, at each index, the element of the tensor at the
    front of that index. *)
Theorem expand_as_right_spec {A : Type} (tensor dest : ndtensor A) :
  Forall (fun n => 0 <= n) (nd_shape dest) ->
  (nd_shape tensor = firstn (ndimension tensor) (nd_shape dest) ->
   exists r,
     expand_as_right tensor dest = Ok r
     /\ nd_shape r = nd_shape dest
     /\ forall idx, index_in idx (nd_shape dest) ->
          nd_at r idx = nd_at tensor (firstn (ndimension tensor) idx))
  /\ (nd_shape tensor <> firstn (ndimension tensor) (nd_shape dest) ->
      exists msg, expand_as_right tensor dest = Raise (RuntimeError msg)).
Proof.
  intros Hpos. split.
  - intros Hfront.
    assert (Hle : (ndimension tensor <= ndimension dest)%nat).
    { unfold ndimension. rewrite Hfront at 1. rewrite length_take. lia. }
    destruct (expand_unsqueezed tensor (nd_shape dest)) as (r & Hr & Hs & Hat).
    + exact Hle.
    + exact Hpos.
    + rewrite <- Hfront. eapply Forall2_impl; [apply Forall2_eq_refl|].
      simpl. auto.
    + exists r. unfold expand_as_right.
      destruct (Nat.ltb_spec (ndimension dest) (ndimension tensor)); [lia|].
      rewrite bool_decide_eq_true_2 by assumption. simpl negb. cbv iota.
      split; [exact Hr|]. split; [exact Hs|].
      intros idx Hidx. rewrite Hat by (eapply Forall2_length; eassumption).
      f_equal. apply zip_in_range. rewrite Hfront.
      apply Forall2_take. exact Hidx.
  - intros Hfront. unfold expand_as_right.
    destruct (ndimension dest <? ndimension tensor)%nat; [eauto|].
    rewrite bool_decide_eq_false_2 by assumption. simpl. eauto.
Qed.

Lemma expand_as_right_spec_witness :
  let tensor := mkNd [3; 4] (fun idx => idx) in
  let dest := mkNd [3; 4; 5] (fun idx => idx) in
  exists r,
    expand_as_right tensor dest = Ok r
    /\ nd_shape r = [3; 4; 5]
    /\ forall idx, index_in idx [3; 4; 5] ->
         nd_at r idx = firstn 2 idx.
Proof.
  intros tensor dest.
  assert (Hpos : Forall (fun n => 0 <= n) (nd_shape dest))
    by (repeat constructor; lia).
  exact (proj1 (expand_as_right_spec tensor dest Hpos) eq_refl).
Defined.

(** [expand_right] accepts more: each dimension of the tensor has the
    requested size or the size one, in which case it is repeated.  The
    result has the requested shape (not empty, of sizes that are not
    negative).  With more dimensions than sizes requested the tensor is
    not unsqueezed and the expansion raises [RuntimeError].  The empty
    shape raises [TypeError], whatever the tensor is: its sizes are
    unpacked into a call without argument. *)
Theorem expand_right_spec {A : Type} (tensor : ndtensor A) (shape : list Z) :
  Forall (fun n => 0 <= n) shape ->
  (shape <> [] ->
   (ndimension tensor <= length shape)%nat ->
   Forall2 (fun have want => have = want \/ have = 1)
           (nd_shape tensor) (firstn (ndimension tensor) shape) ->
   exists r,
     expand_right tensor shape = Ok r
     /\ nd_shape r = shape
     /\ forall idx, index_in idx shape ->
          nd_at r idx
          = nd_at tensor
              (zip_with (fun have i => if have =? 1 then 0 else i)
                        (nd_shape tensor)
                        (firstn (ndimension tensor) idx)))
  /\ (shape <> [] ->
      (length shape < ndimension tensor)%nat ->
      exists msg, expand_right tensor shape = Raise (RuntimeError msg))
  /\ (shape = [] -> expand_right tensor shape = Raise TypeError).
Proof.
  intros Hpos. split; [|split].
  - intros Hne Hle Hcompat.
    destruct (expand_unsqueezed tensor shape Hle Hpos Hcompat)
      as (r & Hr & Hs & Hat).
    exists r. split.
    { unfold expand_right, expand_unpacked.
      destruct shape; [contradiction|exact Hr]. }
    split; [exact Hs|].
    intros idx Hidx. apply Hat. eapply Forall2_length; eassumption.
  - intros Hne Hlt. unfold expand_right, expand_unpacked.
    destruct shape as [|n shape]; [contradiction|].
    replace (length (n :: shape) - ndimension tensor)%nat with 0%nat by lia.
    simpl Nat.iter. unfold expand.
    destruct (Nat.ltb_spec (length (n :: shape)) (ndimension tensor)); [|lia].
    eauto.
  - intros ->. reflexivity.
Qed.

Lemma expand_right_spec_witness :
  let tensor := mkNd [1; 4] (fun idx => idx) in
  exists r,
    expand_right tensor [3; 4; 5] = Ok r
    /\ nd_shape r = [3; 4; 5]
    /\ forall idx, index_in idx [3; 4; 5] ->
         nd_at r idx
         = zip_with (fun have i => if have =? 1 then 0 else i)
                    [1; 4] (firstn 2 idx).
Proof.
  intros tensor.
  assert (Hpos : Forall (fun n => 0 <= n) [3; 4; 5])
    by (repeat constructor; lia).
  refine (proj1 (expand_right_spec tensor [3; 4; 5] Hpos) _ _ _).
  - discriminate.
  - unfold ndimension. simpl. lia.
  - unfold ndimension. simpl.
    constructor; [right; reflexivity|].
    constructor; [left; reflexivity|]. constructor.
Defined.

(** ** Indexing with nested tuples *)

Lemma _sub_index_plain {T : Type} (getitem : T -> item -> result T)
    (l : list item) (t : T) :
  starts_with_tuple l = false ->
  _sub_index getitem (ITuple l) t = getitem t (ITuple l).
Proof.
  intros H. destruct l as [|x l]; [reflexivity|].
  destruct x; try reflexivity. discriminate.
Qed.

(** [_sub_index] on a tuple that starts with tuples applies these one after
    the other, as [tensor[tuple1][tuple2]...] does, and then indexes once
    more with the tuple of the elements left over, the empty tuple when
    nothing is left; the tuples themselves do not start with a tuple.
    An index that is not a tuple goes to the tensor's own indexing. *)
Theorem _sub_index_chain {T : Type} (getitem : T -> item -> result T)
    (ls : list (list item)) (rest : list item) (t : T) :
  Forall (fun l => starts_with_tuple l = false) ls ->
  starts_with_tuple rest = false ->
  _sub_index getitem (ITuple (map ITuple ls ++ rest)) t
  = let! t' := getitems getitem (map ITuple ls) t in
    getitem t' (ITuple rest).
Proof.
  intros Hls Hrest. revert t.
  induction Hls as [|l ls Hl Hls IH]; intros t.
  - simpl. apply _sub_index_plain. assumption.
  - change (_sub_index getitem (ITuple (map ITuple (l :: ls) ++ rest)) t)
      with (let! t1 := _sub_index getitem (ITuple l) t in
            _sub_index getitem (ITuple (map ITuple ls ++ rest)) t1).
    rewrite _sub_index_plain by assumption. simpl.
    destruct (getitem t (ITuple l)) as [t1|e]; simpl; [apply IH|reflexivity].
Qed.

Lemma _sub_index_chain_witness :
  let getitem (t : list Z) (i : item) :=
    match i with
    | ITuple [IInt k] => Ok (skipn (Z.to_nat k) t)
    | ITuple [] => Ok t
    | _ => Raise IndexError
    end in
  _sub_index getitem (ITuple [ITuple [IInt 1]; ITuple [IInt 2]])
             [10; 20; 30; 40; 50]
  = Ok [40; 50].
Proof.
  intros getitem.
  refine (_sub_index_chain getitem [[IInt 1]; [IInt 2]] []
            [10; 20; 30; 40; 50] _ eq_refl).
  repeat constructor.
Defined.

(** ** The delta distribution *)

Lemma removelast_last_split {A : Type} (l : list A) :
  removelast l ++ skipn (length l - 1) l = l.
Proof.
  rewrite removelast_firstn_len, Nat.sub_1_r. apply firstn_skipn.
Qed.

(** [Delta.__init__] keeps the parameter and the tolerances.  Shapes that
    are not both empty are taken as they are given, whatever the shape of
    the parameter is.  When both are empty or not given, the batch shape
    followed by the event shape is the shape of the parameter, and the
    event shape has one dimension, or none for a parameter without
    dimensions. *)
Theorem Delta_init_shapes {A : Type} (p : ndtensor A) (a r : Q)
    (b e : option (list Z)) :
  let d := Delta_init p a r b e in
  param d = p /\ atol d = a /\ rtol d = r
  /\ (default [] b = [] -> default [] e = [] ->
      batch_shape d ++ event_shape d = nd_shape p
      /\ length (event_shape d) = Nat.min 1 (ndimension p))
  /\ (default [] b <> [] \/ default [] e <> [] ->
      batch_shape d = default [] b /\ event_shape d = default [] e).
Proof.
  unfold Delta_init.
  destruct (default [] b) as [|x bs] eqn:Hb;
    destruct (default [] e) as [|y es] eqn:He; simpl;
    repeat split; try congruence; try tauto.
  - apply removelast_last_split.
  - rewrite length_drop. unfold ndimension.
    destruct (length (nd_shape p)); lia.
Qed.

Lemma Delta_init_shapes_witness :
  let d := Delta_init (mkNd [3; 4] (fun idx => idx)) 0 0 None (Some []) in
  batch_shape d ++ event_shape d = [3; 4]
  /\ length (event_shape d) = 1%nat.
Proof.
  exact (proj1 (proj2 (proj2 (proj2
           (Delta_init_shapes (mkNd [3; 4] (fun idx => idx)) 0 0
                              None (Some [])))))
               eq_refl eq_refl).
Defined.

(** [sample] and [rsample] return the same tensor: for a sample size
    without negative entries, its shape is the sample size followed by
    the shape of the parameter, and its element at an index is the element
    of the parameter at what is left of the index after the sample
    dimensions; a negative entry raises [RuntimeError].  When the sample
    size is empty or not given and the parameter has no dimension, the
    expansion is called without argument and raises [TypeError].  The
    batch and event shapes are not used. *)
Theorem sample_spec {A : Type} (self : Delta A) (size : option (list Z)) :
  let sz := default [] size in
  (sz ++ nd_shape (param self) <> [] ->
   Forall (fun n => 0 <= n) sz ->
   exists r,
     sample self size = Ok r /\ rsample self size = Ok r
     /\ nd_shape r = sz ++ nd_shape (param self)
     /\ forall idx, index_in idx (sz ++ nd_shape (param self)) ->
          nd_at r idx = nd_at (param self) (skipn (length sz) idx))
  /\ (~ Forall (fun n => 0 <= n) sz ->
      exists msg, sample self size = Raise (RuntimeError msg)
                  /\ rsample self size = Raise (RuntimeError msg))
  /\ (sz ++ nd_shape (param self) = [] ->
      sample self size = Raise TypeError
      /\ rsample self size = Raise TypeError).
Proof.
  intros sz.
  assert (Hempty : sz ++ nd_shape (param self) = [] ->
                   sample self size = Raise TypeError
                   /\ rsample self size = Raise TypeError).
  { intros He. unfold sample, rsample. fold sz. rewrite He. auto. }
  destruct (sz ++ nd_shape (param self)) as [|n0 l0] eqn:Hsplat.
  { split; [intros Hc; contradiction Hc; reflexivity|].
    split; [|exact Hempty].
    intros Hn. exfalso. apply Hn.
    apply app_eq_nil in Hsplat as [-> _]. constructor. }
  assert (Hcall : forall t : ndtensor A,
             expand_unpacked t (n0 :: l0) = expand t (n0 :: l0))
    by reflexivity.
  cut ((Forall (fun n => 0 <= n) sz ->
        exists r,
          sample self size = Ok r /\ rsample self size = Ok r
          /\ nd_shape r = n0 :: l0
          /\ forall idx, index_in idx (n0 :: l0) ->
               nd_at r idx = nd_at (param self) (skipn (length sz) idx))
       /\ (~ Forall (fun n => 0 <= n) sz ->
           exists msg, sample self size = Raise (RuntimeError msg)
                       /\ rsample self size = Raise (RuntimeError msg))).
  { intros [Ha Hb]. split; [intros _; exact Ha|].
    split; [exact Hb|discriminate]. }
  unfold sample, rsample. fold sz. rewrite Hsplat, Hcall, <- Hsplat.
  unfold expand, ndimension.
  rewrite length_app.
  destruct (Nat.ltb_spec (length sz + length (nd_shape (param self)))
              (length (nd_shape (param self)))); [lia|].
  replace (length sz + length (nd_shape (param self))
           - length (nd_shape (param self)))%nat with (length sz) by lia.
  rewrite take_app_length, drop_app_length.
  destruct (forallb (fun w => 0 <=? w) sz) eqn:Hf; simpl negb; cbv iota.
  - split; [|intros Hn; exfalso; apply Hn].
    + intros _. rewrite expand_dims_same. simpl.
      eexists. split; [reflexivity|]. split; [reflexivity|].
      split; [reflexivity|]. intros idx Hidx. simpl. f_equal.
      apply zip_in_range.
      apply (Forall2_drop _ _ _ (length sz)) in Hidx.
      rewrite drop_app_length in Hidx. exact Hidx.
    + apply List.Forall_forall. intros x Hx.
      rewrite forallb_forall in Hf. apply Z.leb_le, Hf. exact Hx.
  - split; [|eauto].
    intros Hpos. exfalso.
    assert (forallb (fun w => 0 <=? w) sz = true); [|congruence].
    apply forallb_forall. intros x Hx. apply Z.leb_le.
    rewrite List.Forall_forall in Hpos. apply Hpos. exact Hx.
Qed.

Lemma sample_spec_witness :
  let self := Delta_init (mkNd [3] (fun idx => idx)) 0 0 None None in
  exists r,
    sample self (Some [2]) = Ok r /\ rsample self (Some [2]) = Ok r
    /\ nd_shape r = [2; 3]
    /\ forall idx, index_in idx [2; 3] -> nd_at r idx = skipn 1 idx.
Proof.
  intros self.
  refine (proj1 (sample_spec self (Some [2])) _ _).
  - discriminate.
  - repeat constructor; simpl; lia.
Defined.

(** A reduction along a dimension counted from the end. *)
Lemma all_dim_from_end (t : ndtensor bool) (pre post : list Z) (n dim : Z) :
  nd_shape t = pre ++ n :: post ->
  dim = - Z.of_nat (S (length post)) ->
  exists r,
    all_dim t dim = Ok r
    /\ nd_shape r = pre ++ post
    /\ forall i1 i2, length i1 = length pre ->
         (nd_at r (i1 ++ i2) = true
          <-> forall j, 0 <= j < n -> nd_at t (i1 ++ j :: i2) = true).
Proof.
  intros Hs ->. unfold all_dim, ndimension. rewrite Hs, length_app.
  simpl length.
  destruct (Z.eqb_spec (Z.of_nat (length pre + S (length post))) 0); [lia|].
  destruct (Z.leb_spec (- Z.of_nat (length pre + S (length post)))
              (- Z.of_nat (S (length post)))); [|lia].
  destruct (Z.ltb_spec (- Z.of_nat (S (length post)))
              (Z.of_nat (length pre + S (length post)))); [|lia].
  destruct (Z.ltb_spec (- Z.of_nat (S (length post))) 0); [|lia].
  replace (Z.to_nat (- Z.of_nat (S (length post))
                     + Z.of_nat (length pre + S (length post))))
    with (length pre) by lia.
  simpl andb. cbv iota.
  eexists. split; [reflexivity|]. cbn [nd_shape nd_at].
  split.
  - rewrite take_app_length.
    change (pre ++ n :: post) with (pre ++ [n] ++ post).
    rewrite app_assoc.
    replace (S (length pre)) with (length (pre ++ [n]))
      by (rewrite length_app; simpl; lia).
    rewrite drop_app_length. reflexivity.
  - intros i1 i2 Hi. rewrite <- Hi.
    rewrite take_app_length, drop_app_length.
    rewrite Hi, nth_middle, forallb_forall. split.
    + intros Hall j Hj. specialize (Hall (Z.to_nat j)).
      rewrite Z2Nat.id in Hall by lia. apply Hall.
      apply in_seq. lia.
    + intros Hall j Hj. apply in_seq in Hj. apply Hall. lia.
Qed.

Section DeltaLogProbFacts.

Context {P T D E G H O : Type}.
Variable sub : T -> P -> D.
Variable abs_diff : D -> D.
Variable abs_param : P -> E.
Variable mul_rtol : Q -> E -> G.
Variable add_atol : Q -> G -> H.
Variable less : D -> H -> bool.
Variable supported : result unit.
Variable fill_value : infinity -> result O.

(** With an event shape of one dimension, on a value whose shape is
    [bs ++ [e]], to which the parameter can be expanded and with which it
    can be compared: when the dtype of the value holds both infinities, [log_prob] has the shape [bs]; it
    is [inf] at an index when the comparison of [_is_equal] holds at every
    position of the last dimension, and [-inf] when it fails at one.  When
    the dtype cannot hold [inf], [log_prob] raises what the conversion
    raises. *)
Theorem log_prob_one_event (self : Delta P) (value : ndtensor T)
    (p' : ndtensor P) (bs : list Z) (e : Z) :
  length (event_shape self) = 1%nat ->
  nd_shape value = bs ++ [e] ->
  expand (param self) (nd_shape value) = Ok p' ->
  supported = Ok tt ->
  (forall pos neg,
     fill_value inf = Ok pos -> fill_value neg_inf = Ok neg ->
     exists r,
       log_prob sub abs_diff abs_param mul_rtol add_atol less supported
                fill_value
                self value = Ok r
       /\ nd_shape r = bs
       /\ forall idx, length idx = length bs ->
            ((forall j, 0 <= j < e ->
                close_at sub abs_diff abs_param mul_rtol add_atol less
                         self value p' (idx ++ [j]) = true) ->
             nd_at r idx = pos)
            /\ ((exists j, 0 <= j < e
                  /\ close_at sub abs_diff abs_param mul_rtol add_atol less
                              self value p' (idx ++ [j]) = false) ->
                nd_at r idx = neg))
  /\ (forall err,
        fill_value inf = Raise err ->
        log_prob sub abs_diff abs_param mul_rtol add_atol less supported
                fill_value
                 self value = Raise err).
Proof.
  intros Hev Hs Hexp Hsup. unfold log_prob, _is_equal.
  rewrite Hexp, Hsup, Hev. cbn [bind all_loop].
  match goal with
  | |- context [all_dim ?t (-1)] =>
    destruct (all_dim_from_end t bs [] e (-1) Hs eq_refl)
      as (r1 & -> & Hs1 & Hat1)
  end.
  cbn [bind]. split.
  - intros pos neg -> ->. cbn [bind].
    eexists. split; [reflexivity|]. cbn [nd_shape nd_at].
    split; [rewrite Hs1; apply app_nil_r|].
    intros idx Hidx. specialize (Hat1 idx [] Hidx).
    rewrite app_nil_r in Hat1. cbn [nd_at] in Hat1.
    destruct (nd_at r1 idx).
    + split; [reflexivity|]. intros (j & Hj & Hc).
      rewrite (proj1 Hat1 eq_refl j Hj) in Hc. discriminate.
    + split; [|reflexivity]. intros Hall.
      apply Hat1 in Hall. discriminate.
  - intros err ->. reflexivity.
Qed.

(** With an event shape of two dimensions the second reduction is along
    the dimension [-2] of what the first one left.  For a value of shape
    [bs ++ [b; e1; e2]] that can be compared with the parameter, when
    the dtype of the value holds both infinities, the result has the shape
    [bs ++ [e1]]: the sizes [e2] and
    [b] are reduced, and [log_prob] is [inf] at [i ++ [j]] when the
    comparison of [_is_equal] holds at [i ++ [x; j; k]] for every [x] and
    [k], and [-inf] when it fails for some.  For a value of two dimensions
    or less the second reduction raises [IndexError]. *)
Theorem log_prob_two_events (self : Delta P) (value : ndtensor T)
    (p' : ndtensor P) :
  length (event_shape self) = 2%nat ->
  expand (param self) (nd_shape value) = Ok p' ->
  supported = Ok tt ->
  (forall bs b e1 e2 pos neg,
     nd_shape value = bs ++ [b; e1; e2] ->
     fill_value inf = Ok pos -> fill_value neg_inf = Ok neg ->
     exists r,
       log_prob sub abs_diff abs_param mul_rtol add_atol less supported
                fill_value
                self value = Ok r
       /\ nd_shape r = bs ++ [e1]
       /\ forall i j, length i = length bs ->
            ((forall x k, 0 <= x < b -> 0 <= k < e2 ->
                close_at sub abs_diff abs_param mul_rtol add_atol less
                         self value p' (i ++ [x; j; k]) = true) ->
             nd_at r (i ++ [j]) = pos)
            /\ ((exists x k, 0 <= x < b /\ 0 <= k < e2
                  /\ close_at sub abs_diff abs_param mul_rtol add_atol less
                              self value p' (i ++ [x; j; k]) = false) ->
                nd_at r (i ++ [j]) = neg))
  /\ ((length (nd_shape value) <= 2)%nat ->
      log_prob sub abs_diff abs_param mul_rtol add_atol less supported
                fill_value
               self value = Raise IndexError).
Proof.
  intros Hev Hexp Hsup. split.
  - intros bs b e1 e2 pos neg Hs Hpos Hneg. unfold log_prob, _is_equal.
    rewrite Hexp, Hsup, Hev. cbn [bind all_loop].
    match goal with
    | |- context [all_dim ?t (-1)] =>
      destruct (all_dim_from_end t (bs ++ [b; e1]) [] e2 (-1))
        as (r1 & -> & Hs1 & Hat1)
    end.
    { cbn [nd_shape]. rewrite Hs, <- app_assoc. reflexivity. }
    { reflexivity. }
    cbn [bind]. rewrite app_nil_r in Hs1.
    destruct (all_dim_from_end r1 bs [e1] b (-1 - 1))
      as (r2 & -> & Hs2 & Hat2).
    { rewrite Hs1. reflexivity. }
    { reflexivity. }
    cbn [bind]. rewrite Hpos, Hneg. cbn [bind].
    eexists. split; [reflexivity|]. cbn [nd_shape nd_at].
    split; [exact Hs2|].
    intros i j Hi. specialize (Hat2 i [j] Hi).
    assert (Hin : forall x,
               nd_at r1 (i ++ [x; j]) = true
               <-> forall k, 0 <= k < e2 ->
                     close_at sub abs_diff abs_param mul_rtol add_atol less
                              self value p' (i ++ [x; j; k]) = true).
    { intros x. specialize (Hat1 (i ++ [x; j]) []).
      rewrite app_nil_r in Hat1. rewrite Hat1
        by (rewrite !length_app; simpl; lia).
      cbn [nd_at]. split; intros Hk k Hr; specialize (Hk k Hr);
        rewrite <- app_assoc in *; exact Hk. }
    destruct (nd_at r2 (i ++ [j])).
    + split; [reflexivity|]. intros (x & k & Hx & Hk & Hc).
      rewrite (proj1 (Hin x) (proj1 Hat2 eq_refl x Hx) k Hk) in Hc.
      discriminate.
    + split; [|reflexivity]. intros Hall.
      assert (false = true); [|discriminate].
      apply Hat2. intros x Hx. apply Hin. intros k Hk. apply Hall; assumption.
  - intros Hlen. unfold log_prob, _is_equal.
    rewrite Hexp, Hsup, Hev. cbn [bind all_loop].
    destruct (nd_shape value) as [|e1 [|e2 [|e3 rest]]] eqn:Hs;
      [reflexivity|reflexivity|reflexivity|simpl in Hlen; lia].
Qed.

End DeltaLogProbFacts.

Lemma log_prob_one_event_witness :
  let self := Delta_init (mkNd [2] (fun idx => 1%Q)) (1 # 10) 0 None None in
  let value := mkNd [2] (fun idx => 1%Q) in
  exists r,
    exact_log_prob self value = Ok r
    /\ nd_shape r = []
    /\ forall idx, length idx = 0%nat ->
         ((forall j, 0 <= j < 2 ->
             exact_close_at self value (mkNd [2] (fun idx => 1%Q))
                            (idx ++ [j]) = true) ->
          nd_at r idx = inf)
         /\ ((exists j, 0 <= j < 2
               /\ exact_close_at self value (mkNd [2] (fun idx => 1%Q))
                                 (idx ++ [j]) = false) ->
             nd_at r idx = neg_inf).
Proof.
  intros self value.
  exact (proj1 (log_prob_one_event Qminus Qabs Qabs Qmult Qplus Qlt_bool
                  (Ok tt) (fun v => Ok v) self value
                  (mkNd [2] (fun idx => 1%Q)) [] 2
                  eq_refl eq_refl eq_refl eq_refl)
               inf neg_inf eq_refl eq_refl).
Defined.

Lemma log_prob_two_events_witness :
  let self :=
    Delta_init (mkNd [3; 2; 2] (fun idx => 1%Q)) (1 # 10) 0
               (Some [3]) (Some [2; 2]) in
  let value := mkNd [3; 2; 2] (fun idx => 1%Q) in
  exists r,
    exact_log_prob self value = Ok r
    /\ nd_shape r = [] ++ [2]
    /\ forall i j, length i = 0%nat ->
         ((forall x k, 0 <= x < 3 -> 0 <= k < 2 ->
             exact_close_at self value (mkNd [3; 2; 2] (fun idx => 1%Q))
                            (i ++ [x; j; k]) = true) ->
          nd_at r (i ++ [j]) = inf)
         /\ ((exists x k, 0 <= x < 3 /\ 0 <= k < 2
               /\ exact_close_at self value
                                 (mkNd [3; 2; 2] (fun idx => 1%Q))
                                 (i ++ [x; j; k]) = false) ->
             nd_at r (i ++ [j]) = neg_inf).
Proof.
  intros self value.
  exact (proj1 (log_prob_two_events Qminus Qabs Qabs Qmult Qplus Qlt_bool
                  (Ok tt) (fun v => Ok v) self value
                  (mkNd [3; 2; 2] (fun idx => 1%Q)) eq_refl eq_refl eq_refl)
               [] 3 2 2 inf neg_inf eq_refl eq_refl eq_refl).
Defined.

(** ** Shape inference: slices, integers and the sizes returned *)

Lemma range_len_bounds (a b s : Z) :
  s <> 0 -> 0 <= range_len a b s <= Z.abs (b - a).
Proof.
  intros Hs. unfold range_len.
  destruct (Z.ltb_spec 0 s).
  - destruct (Z.ltb_spec a b); [|lia].
    assert (0 <= (b - a - 1) / s) by (apply Z.div_pos; lia).
    assert ((b - a - 1) / s <= b - a - 1)
      by (apply Z.div_le_upper_bound; nia).
    lia.
  - destruct (Z.ltb_spec b a); [|lia].
    assert (0 <= (a - b - 1) / - s) by (apply Z.div_pos; lia).
    assert ((a - b - 1) / - s <= a - b - 1)
      by (apply Z.div_le_upper_bound; nia).
    lia.
Qed.

(** On a dimension of size [batch], a slice whose step is not zero never
    raises and selects between zero and [batch] positions; the full slice
    selects all of them.  A step of zero raises [ValueError]. *)
Theorem slice_len_bounds (a b c : option Z) (batch : Z) :
  0 <= batch ->
  (default 1 c <> 0 ->
   exists v, slice_len a b c batch = Ok v /\ 0 <= v <= batch)
  /\ (default 1 c = 0 ->
      slice_len a b c batch = Raise (ValueError "slice step cannot be zero"))
  /\ slice_len None None None batch = Ok batch.
Proof.
  intros Hb. unfold slice_len, slice_indices.
  destruct (Z.ltb_spec batch 0); [lia|].
  split; [|split].
  - intros Hc. destruct (Z.eqb_spec (default 1 c) 0); [contradiction|].
    cbn [bind]. eexists. split; [reflexivity|].
    match goal with
    | |- 0 <= range_len ?x ?y ?z <= _ =>
      pose proof (range_len_bounds x y z Hc) as Hr
    end.
    split; [apply Hr|].
    eapply Z.le_trans; [apply Hr|].
    destruct a as [a|], b as [b|];
      repeat match goal with
             | |- context [Z.ltb ?x ?y] => destruct (Z.ltb_spec x y)
             end; lia.
  - intros Hc. rewrite Hc. reflexivity.
  - simpl. unfold range_len. simpl.
    destruct (Z.ltb_spec 0 batch); f_equal; [|lia].
    rewrite Z.div_1_r. lia.
Qed.

Lemma slice_len_bounds_witness :
  exists v, slice_len (Some (-3)) None (Some (-2)) 5 = Ok v /\ 0 <= v <= 5.
Proof.
  refine (proj1 (slice_len_bounds (Some (-3)) None (Some (-2)) 5 _) _).
  - lia.
  - simpl. lia.
Defined.

Lemma slice_len_nonneg a b c batch v :
  slice_len a b c batch = Ok v -> 0 <= v.
Proof.
  unfold slice_len, slice_indices.
  destruct (batch <? 0); [discriminate|].
  destruct (Z.eqb_spec (default 1 c) 0) as [|Hc]; [discriminate|].
  cbn [bind]. intros [= <-]. apply range_len_bounds. exact Hc.
Qed.

Lemma walk_nonneg shape items : forall iter_bs bs r,
  Forall (fun n => 0 <= n) iter_bs ->
  Forall (fun n => 0 <= n) bs ->
  getitem_walk shape items iter_bs bs = Ok r ->
  Forall (fun n => 0 <= n) r.
Proof.
  induction items as [|x items IH]; intros iter_bs bs r Hit Hbs Hw.
  - simpl in Hw. injection Hw as <-. apply Forall_app; auto.
  - destruct x; simpl in Hw; try discriminate.
    + destruct iter_bs as [|n it]; [discriminate|].
      apply Forall_cons in Hit as [_ Hit].
      eapply IH; [exact Hit|exact Hbs|exact Hw].
    + destruct iter_bs as [|n it]; [discriminate|].
      apply Forall_cons in Hit as [_ Hit].
      destruct (slice_len start stop step n) as [v|] eqn:Hv; [|discriminate].
      cbn [bind] in Hw. eapply IH; [exact Hit| |exact Hw].
      apply Forall_app. split; [assumption|].
      repeat constructor. eapply slice_len_nonneg; eassumption.
    + eapply IH; [exact Hit| |exact Hw].
      apply Forall_app. split; [assumption|]. repeat constructor. lia.
    + destruct iter_bs as [|n it]; [discriminate|].
      apply Forall_cons in Hit as [_ Hit].
      eapply IH; [exact Hit| |exact Hw].
      apply Forall_app. split; [assumption|]. repeat constructor. lia.
    + destruct iter_bs as [|n it]; [discriminate|].
      apply Forall_cons in Hit as [_ Hit].
      eapply IH; [exact Hit| |exact Hw].
      apply Forall_app. split; [assumption|]. repeat constructor. lia.
    + destruct iter_bs as [|n it]; [discriminate|].
      apply Forall_cons in Hit as [_ Hit].
      eapply IH; [exact Hit| |exact Hw].
      apply Forall_app. split; [assumption|]. repeat constructor.
      unfold mask_sum. lia.
    + destruct iter_bs as [|n it]; [discriminate|].
      apply Forall_cons in Hit as [_ Hit].
      eapply IH; [exact Hit| |exact Hw].
      apply Forall_app. split; [assumption|]. repeat constructor. lia.
Qed.

Lemma tail_nonneg (shape : list Z) :
  Forall (fun n => 0 <= n) shape -> Forall (fun n => 0 <= n) (tail shape).
Proof. intros H. destruct shape; [assumption|]. inversion H; assumption. Qed.

Lemma tensor_shape_nonneg x : Forall (fun n => 0 <= n) (tensor_shape x).
Proof. destruct x; simpl; repeat constructor; lia. Qed.

(** Whatever the index is, the sizes that [_getitem_batch_size] returns
    for a shape without negative sizes are not negative. *)
Theorem getitem_batch_size_nonneg (shape : list Z) (items : item)
    (r : list Z) :
  Forall (fun n => 0 <= n) shape ->
  _getitem_batch_size shape items = Ok r ->
  Forall (fun n => 0 <= n) r.
Proof.
  intros Hpos. unfold _getitem_batch_size.
  set (it := match items with ITuple [x] => x | _ => items end).
  assert (Hgen : forall l,
             (if forallb is_Tensor l && (length l =? length shape)%nat
              then match l with
                   | [] => Raise IndexError
                   | x0 :: rest =>
                     if forallb (fun x => same_shape x x0) rest
                     then Ok (tensor_shape x0)
                     else Raise (RuntimeError
                            "all tensor indices must have the same shape")
                   end
              else getitem_walk shape l shape []) = Ok r ->
             Forall (fun n => 0 <= n) r).
  { intros l.
    destruct (forallb is_Tensor l && (length l =? length shape)%nat).
    - destruct l as [|x0 rest]; [discriminate|].
      destruct (forallb (fun x => same_shape x x0) rest); [|discriminate].
      intros [= <-]. apply tensor_shape_nonneg.
    - apply walk_nonneg; [assumption|constructor]. }
  destruct it; try (apply Hgen).
  - intros [= <-]. apply tail_nonneg, Hpos.
  - destruct (negb (length l =? 0)%nat); intros [= <-].
    + constructor; [lia|]. apply tail_nonneg, Hpos.
    + apply tail_nonneg, Hpos.
  - destruct (negb (length v =? 0)%nat); intros [= <-].
    + constructor; [lia|]. apply tail_nonneg, Hpos.
    + apply tail_nonneg, Hpos.
  - intros [= <-]. constructor; [unfold mask_sum; lia|].
    apply Forall_drop, Hpos.
  - destruct (negb (length m =? 0)%nat); intros [= <-].
    + constructor; [lia|]. apply tail_nonneg, Hpos.
    + apply tail_nonneg, Hpos.
Qed.

Lemma getitem_batch_size_nonneg_witness :
  Forall (fun n => 0 <= n) [2; 5; 6].
Proof.
  refine (getitem_batch_size_nonneg [4; 5; 6]
            (ITuple [ISlice (Some 3) (Some 0) (Some (-2))])
            [2; 5; 6] _ eq_refl).
  repeat constructor; lia.
Defined.

(** A tuple of two elements or more is not unwrapped. *)
Lemma getitem_tuple_two shape x y l :
  _getitem_batch_size shape (ITuple (x :: y :: l))
  = if forallb is_Tensor (x :: y :: l)
       && (length (x :: y :: l) =? length shape)%nat
    then if forallb (fun z => same_shape z x) (y :: l)
         then Ok (tensor_shape x)
         else Raise (RuntimeError
                "all tensor indices must have the same shape")
    else getitem_walk shape (x :: y :: l) shape [].
Proof. reflexivity. Qed.

Lemma walk_ints shape (l : list Z) : forall iter_bs bs,
  getitem_walk shape (map IInt l) iter_bs bs
  = if (length l <=? length iter_bs)%nat
    then Ok (bs ++ skipn (length l) iter_bs)
    else Raise (RuntimeError "The shape is incompatible with the index.").
Proof.
  induction l as [|i l IH]; intros iter_bs bs.
  - reflexivity.
  - simpl. destruct iter_bs as [|n it]; [reflexivity|].
    rewrite IH. reflexivity.
Qed.

(** An index of integers only.  Two integers or more remove as many
    leading dimensions and raise [RuntimeError] when the shape has fewer.
    A single integer removes the first dimension and never raises: on the
    empty shape it returns the empty shape.  The empty tuple returns the
    shape, and raises [IndexError] on the empty shape. *)
Theorem getitem_batch_size_ints (shape : list Z) (l : list Z) :
  _getitem_batch_size shape (ITuple (map IInt l))
  = match l with
    | [] => match shape with [] => Raise IndexError | _ => Ok shape end
    | [_] => Ok (tail shape)
    | _ =>
      if (length l <=? length shape)%nat
      then Ok (skipn (length l) shape)
      else Raise (RuntimeError "The shape is incompatible with the index.")
    end.
Proof.
  destruct l as [|i [|j l]].
  - destruct shape; reflexivity.
  - reflexivity.
  - change (map IInt (i :: j :: l))
      with (IInt i :: IInt j :: map IInt l) at 1.
    rewrite getitem_tuple_two.
    change (forallb is_Tensor (IInt i :: IInt j :: map IInt l)) with false.
    cbn [andb].
    change (IInt i :: IInt j :: map IInt l) with (map IInt (i :: j :: l)).
    rewrite walk_ints. reflexivity.
Qed.

Lemma walk_full_slices shape k : forall rest iter_bs bs,
  (k <= length iter_bs)%nat ->
  Forall (fun n => 0 <= n) iter_bs ->
  getitem_walk shape (repeat full_slice k ++ rest) iter_bs bs
  = getitem_walk shape rest (skipn k iter_bs) (bs ++ firstn k iter_bs).
Proof.
  induction k as [|k IH]; intros rest iter_bs bs Hk Hpos.
  - simpl. rewrite app_nil_r. reflexivity.
  - destruct iter_bs as [|n it]; [simpl in Hk; lia|].
    apply Forall_cons in Hpos as [Hn Hpos].
    change (getitem_walk shape (repeat full_slice (S k) ++ rest)
                         (n :: it) bs)
      with (let! v := slice_len None None None n in
            getitem_walk shape (repeat full_slice k ++ rest) it (bs ++ [v])).
    destruct (slice_len_bounds None None None n Hn) as (_ & _ & ->).
    cbn [bind]. rewrite IH by (simpl in Hk; try lia; assumption).
    simpl. rewrite <- app_assoc. reflexivity.
Qed.

(** The bare ellipsis is expanded to one full slice for each dimension,
    and the size inferred for this index is the shape itself, for a shape
    that is not empty and has no negative size.  On the empty shape the
    expansion is the empty tuple, for which the inference raises
    [IndexError]. *)
Theorem ellipsis_then_batch_size (shape : list Z) :
  Forall (fun n => 0 <= n) shape ->
  convert_ellipsis_to_idx Bare shape
  = Ok (repeat full_slice (length shape))
  /\ _getitem_batch_size shape (ITuple (repeat full_slice (length shape)))
     = match shape with [] => Raise IndexError | _ => Ok shape end.
Proof.
  intros Hpos. split.
  - change (convert_ellipsis_to_idx Bare shape)
      with (convert_ellipsis_to_idx (Tup ([] ++ IEllipsis :: [])) shape).
    rewrite convert_ellipsis_split by (simpl; try reflexivity; lia).
    simpl. rewrite app_nil_r, Nat.sub_0_r. reflexivity.
  - destruct shape as [|n [|m shape]].
    + reflexivity.
    + apply Forall_cons in Hpos as [Hn _].
      change (_getitem_batch_size [n] (ITuple (repeat full_slice (length [n]))))
        with (let! v := slice_len None None None n in
              getitem_walk [n] [] [] ([] ++ [v])).
      destruct (slice_len_bounds None None None n Hn) as (_ & _ & ->).
      reflexivity.
    + change (repeat full_slice (length (n :: m :: shape)))
        with (full_slice :: full_slice
                :: repeat full_slice (length shape)) at 1.
      rewrite getitem_tuple_two.
      change (forallb is_Tensor
                (full_slice :: full_slice
                   :: repeat full_slice (length shape)))
        with false.
      cbn [andb].
      change (full_slice :: full_slice :: repeat full_slice (length shape))
        with (repeat full_slice (length (n :: m :: shape))).
      rewrite <- (app_nil_r (repeat full_slice _)).
      rewrite walk_full_slices by (try lia; assumption).
      rewrite skipn_all, firstn_all. simpl. rewrite app_nil_r.
      reflexivity.
Qed.

Lemma ellipsis_then_batch_size_witness :
  convert_ellipsis_to_idx Bare [4; 5] = Ok [full_slice; full_slice]
  /\ _getitem_batch_size [4; 5] (ITuple [full_slice; full_slice])
     = Ok [4; 5].
Proof.
  refine (ellipsis_then_batch_size [4; 5] _).
  repeat constructor; lia.
Defined.

(** ** The ellipsis: every outcome *)

Lemma count_ellipsis_repeat k : count_ellipsis (repeat full_slice k) = 0%nat.
Proof. unfold count_ellipsis. induction k; simpl; auto. Qed.

(** The four outcomes of [convert_ellipsis_to_idx] on a tuple. *)
Lemma convert_ellipsis_cases (idx : list item) (batch_size : list Z) :
  convert_ellipsis_to_idx (Tup idx) batch_size = Raise not_enough_dimensions
  \/ convert_ellipsis_to_idx (Tup idx) batch_size = Raise multiple_ellipsis
  \/ convert_ellipsis_to_idx (Tup idx) batch_size = Raise TypeError
  \/ exists pre post,
       idx = pre ++ IEllipsis :: post
       /\ count_ellipsis pre = 0%nat /\ count_ellipsis post = 0%nat
       /\ (length pre + length post <= length batch_size)%nat
       /\ convert_ellipsis_to_idx (Tup idx) batch_size
          = Ok (pre
                ++ repeat full_slice
                     (length batch_size - (length pre + length post))
                ++ post).
Proof.
  pose proof (count_ellipsis_le idx) as Hle.
  destruct (Nat.ltb_spec (length batch_size)
              (length idx - count_ellipsis idx)) as [Hlt|Hge].
  { left. unfold convert_ellipsis_to_idx.
    destruct (Z.ltb_spec (Z.of_nat (length batch_size))
                (Z.of_nat (length idx) - Z.of_nat (count_ellipsis idx)));
      [reflexivity|lia]. }
  right.
  destruct (count_ellipsis idx) as [|[|c]] eqn:Hc.
  - right. left. unfold convert_ellipsis_to_idx. rewrite Hc.
    destruct (Z.ltb_spec (Z.of_nat (length batch_size))
                (Z.of_nat (length idx) - Z.of_nat 0)); [lia|].
    rewrite <- (app_nil_r idx) at 1.
    rewrite scan_before by assumption. reflexivity.
  - right. right.
    destruct (one_ellipsis_split idx Hc) as (pre & post & -> & Hp & Hq).
    rewrite length_app in Hge. simpl in Hge.
    exists pre, post. repeat split; try assumption; try lia.
    apply convert_ellipsis_split; [assumption..|lia].
  - left. unfold convert_ellipsis_to_idx. rewrite Hc.
    destruct (Z.ltb_spec (Z.of_nat (length batch_size))
                (Z.of_nat (length idx) - Z.of_nat (S (S c)))); [lia|].
    rewrite scan_two by lia. reflexivity.
Qed.

(** Whenever [convert_ellipsis_to_idx] returns an index, the tuple had
    exactly one ellipsis and no more other elements than there are
    dimensions; the index returned has one element for each dimension, no
    ellipsis, and every element of the tuple other than the ellipsis is in
    it. *)
Theorem convert_ellipsis_returns (idx r : list item) (batch_size : list Z) :
  convert_ellipsis_to_idx (Tup idx) batch_size = Ok r ->
  count_ellipsis idx = 1%nat
  /\ (length idx - 1 <= length batch_size)%nat
  /\ length r = length batch_size
  /\ count_ellipsis r = 0%nat
  /\ forall x, In x idx -> is_Ellipsis x = false -> In x r.
Proof.
  intros Hr.
  destruct (convert_ellipsis_cases idx batch_size)
    as [H|[H|[H|(pre & post & -> & Hp & Hq & Hle & H)]]];
    rewrite H in Hr; try discriminate.
  injection Hr as <-.
  split; [rewrite count_ellipsis_app, count_ellipsis_cons, Hp, Hq;
          reflexivity|].
  split; [rewrite length_app; simpl; lia|].
  split; [rewrite !length_app, repeat_length; lia|].
  split.
  - rewrite !count_ellipsis_app, count_ellipsis_repeat, Hp, Hq. reflexivity.
  - intros x Hx Hne. apply in_app_or in Hx as [Hx|[<-|Hx]].
    + apply in_or_app. left. exact Hx.
    + discriminate.
    + apply in_or_app. right. apply in_or_app. right. exact Hx.
Qed.

Lemma convert_ellipsis_returns_witness :
  count_ellipsis [IInt 0; IEllipsis] = 1%nat
  /\ (length [IInt 0; IEllipsis] - 1 <= length [4; 5; 6])%nat
  /\ length [IInt 0; full_slice; full_slice] = length [4; 5; 6]
  /\ count_ellipsis [IInt 0; full_slice; full_slice] = 0%nat
  /\ forall x, In x [IInt 0; IEllipsis] -> is_Ellipsis x = false ->
               In x [IInt 0; full_slice; full_slice].
Proof.
  exact (convert_ellipsis_returns [IInt 0; IEllipsis]
           [IInt 0; full_slice; full_slice] [4; 5; 6] eq_refl).
Defined.

(** The last check of [convert_ellipsis_to_idx] never fails: whatever the
    index and the batch size are, the error that the new index is
    incompatible with the dimensions of the batch size is not raised. *)
Theorem convert_ellipsis_last_check (idx : ellipsis_index)
    (batch_size : list Z) :
  convert_ellipsis_to_idx idx batch_size
  <> Raise (RuntimeError
       "The new index is incompatible with the dimensions of the batch size.").
Proof.
  assert (Htup : forall l,
             convert_ellipsis_to_idx (Tup l) batch_size
             <> Raise (RuntimeError
                  "The new index is incompatible with the dimensions of the batch size.")).
  { intros l.
    destruct (convert_ellipsis_cases l batch_size)
      as [H|[H|[H|(pre & post & _ & _ & _ & _ & H)]]];
      rewrite H; discriminate. }
  destruct idx as [|l]; [|apply Htup].
  change (convert_ellipsis_to_idx Bare batch_size)
    with (convert_ellipsis_to_idx (Tup [IEllipsis]) batch_size).
  apply Htup.
Qed.

(** ** The location and scale split: values and sizes that are not even *)

Lemma chunk_sizes_odd d : (0 < d)%nat -> chunk_sizes 2 (2 * d + 1) = [S d; d].
Proof.
  intros Hd. unfold chunk_sizes.
  assert (Hs : ((2 * d + 1 + 2 - 1) / 2 = S d)%nat).
  { symmetry. apply (Nat.div_unique _ 2 (S d) 0); lia. }
  rewrite Hs. simpl Nat.eqb. simpl andb. cbv iota.
  assert (Hn : ((2 * d + 1 + S d - 1) / S d = 2)%nat).
  { symmetry. apply (Nat.div_unique _ (S d) 2 (d - 1)); lia. }
  rewrite Hn. simpl Nat.max.
  replace (S d - (S d * 2 - (2 * d + 1)))%nat with d by lia.
  reflexivity.
Qed.

(** On a trailing dimension of size [2 * d], the location holds the first
    [d] entries of each row as they are, the scale holds the entries after
    them, mapped and then clamped at the bound as the dtype holds it (NaN
    stays NaN), and what the operator returned besides its first tensor is
    passed on unchanged. *)
Theorem forward_values {I O : Type}
    (mappings : string -> result (number -> number)) (to_dtype : Q -> real)
    (self : NormalParamWrapper I O) (tensors : I) (d : nat)
    (f : number -> number) :
  tensor_ok (first_output (operator self tensors)) ->
  trailing (first_output (operator self tensors)) = (2 * d)%nat ->
  mappings (scale_mapping self) = Ok f ->
  forward mappings to_dtype self tensors
  = Ok (mkTensor d (map (firstn d)
                        (rows (first_output (operator self tensors)))),
        mkTensor d (map (fun row =>
                           map (fun x =>
                                  clamp_min (to_dtype (scale_lb self)) (f x))
                               (skipn d row))
                        (rows (first_output (operator self tensors)))),
        other_outputs (operator self tensors)).
Proof.
  intros Hok Ht Hm. unfold forward.
  assert (Hrows : forall t : tensor,
             tensor_ok t -> trailing t = (2 * d)%nat ->
             map_tensor (clamp_min (to_dtype (scale_lb self)))
               (map_tensor f
                  (mkTensor d (map (fun row => firstn d (skipn (0 + d) row))
                                   (rows t))))
             = mkTensor d (map (fun row =>
                                  map (fun x =>
                                         clamp_min (to_dtype (scale_lb self))
                                                   (f x))
                                      (skipn d row))
                               (rows t))).
  { intros t Hokt Htt. unfold map_tensor. cbn [trailing rows]. f_equal.
    rewrite !map_map. apply map_ext_in. intros row Hrow.
    rewrite map_map. f_equal. apply firstn_all2.
    unfold tensor_ok in Hokt. rewrite List.Forall_forall in Hokt.
    rewrite length_drop, (Hokt row Hrow), Htt. simpl. lia. }
  destruct (operator self tensors) as [t|t o]; cbn [first_output] in *;
    cbv beta iota; unfold chunk; rewrite Ht, chunk_sizes_even;
    cbn [split_rows]; rewrite Hm; cbn [bind];
    rewrite Hrows by assumption; reflexivity.
Qed.

Lemma forward_values_witness :
  forward (registered_mappings id id id) to_float32 relu_wrapper tt
  = Ok (mkTensor 1 [[Real (Finite 0)]],
        mkTensor 1 [[Real (Finite (13743895 # 137438953472))]], []).
Proof.
  refine (forward_values (registered_mappings id id id) to_float32
            relu_wrapper tt 1
            relu _ eq_refl eq_refl).
  repeat constructor.
Defined.

(** The trailing dimension is not checked to be even.  On a size of
    [2 * d + 1] with [d] positive the location gets [d + 1] entries and
    the scale [d]; on a size of one the split gives a single piece and
    the unpacking raises [ValueError], before the scale mapping is looked
    up. *)
Theorem forward_uneven {I O : Type}
    (mappings : string -> result (number -> number)) (to_dtype : Q -> real)
    (self : NormalParamWrapper I O) (tensors : I) (d : nat) :
  trailing (first_output (operator self tensors)) = (2 * d + 1)%nat ->
  (d = 0%nat ->
   forward mappings to_dtype self tensors
   = Raise (ValueError "wrong number of values to unpack"))
  /\ ((0 < d)%nat -> forall f,
      mappings (scale_mapping self) = Ok f ->
      exists loc scale others,
        forward mappings to_dtype self tensors = Ok (loc, scale, others)
        /\ trailing loc = S d /\ trailing scale = d).
Proof.
  intros Ht. split.
  - intros ->. unfold forward.
    destruct (operator self tensors) as [t|t o]; cbn [first_output] in Ht;
      cbv beta iota; unfold chunk; rewrite Ht; reflexivity.
  - intros Hd f Hm. unfold forward.
    destruct (operator self tensors) as [t|t o]; cbn [first_output] in Ht;
      cbv beta iota; unfold chunk; rewrite Ht, chunk_sizes_odd by assumption;
      cbn [split_rows]; rewrite Hm; cbn [bind];
      eexists _, _, _; repeat split.
Qed.

Lemma forward_uneven_witness :
  forward (fun _ => Raise NotImplementedError) to_float32
          (mkNormalParamWrapper
             (fun _ : unit =>
                @OutTensor unit (mkTensor 1 [[Real (Finite 0)]]))
             "relu" 0%Q) tt
  = Raise (ValueError "wrong number of values to unpack").
Proof.
  exact (proj1 (forward_uneven (fun _ => Raise NotImplementedError)
                  to_float32
                  (mkNormalParamWrapper
                     (fun _ : unit =>
                        @OutTensor unit (mkTensor 1 [[Real (Finite 0)]]))
                     "relu" 0%Q) tt 0 eq_refl) eq_refl).
Defined.
